(** * SimpleVector: a resizable array over an owned buffer

    A shallow embedding of [simple-vector/simple_vector.h].  The class is
    imperative: a vector object owns a heap block through an [ArrayPtr],
    several member functions take a second vector by reference and compare
    addresses ([this != &rhs]), [PushBack] and [Insert] take the element by
    reference and read it after they have moved and shifted the elements,
    and the shifting algorithms read and write one block in place.  The
    embedding therefore keeps

    - a heap of element blocks, addressed by location;
    - a store of vector objects, addressed by reference;
    - a monad that threads both and has three outcomes: a normal return, a
      thrown exception, and undefined behaviour (an access outside a block,
      a dangling object, a failed [assert]).

    A [const Type&] or [Type&&] argument of [PushBack] and [Insert] is the
    address of the object it is bound to, which may be an element of the
    vector itself.

    Sizes are natural numbers and the arithmetic the class does on them
    ([2 * size_], [++size_], [--size_]) wraps at [2^64] as [size_t] does;
    the theorems about growth assume that the doubled size is the value of
    a [size_t].  Allocation never fails in the model: [std::bad_alloc] is
    outside it. *)

From Stdlib Require Import ZArith Lia.
From stdpp Require Import base option list gmap.

Set Default Proof Using "Type".

(** ** Memory *)

Abbreviation loc := positive (only parsing).
Abbreviation ref := positive (only parsing).

(** The members of [SimpleVector<Type>]; [arr_] is the raw pointer held by
    the [ArrayPtr] ([None] is [nullptr]), so that [arr_.Get()] is
    [Ptr arr_ 0] and [arr_[i]] is the element at [Ptr arr_ i]. *)
Record SimpleVector := mkSimpleVector {
  arr_ : option loc;
  size_ : nat;
  capacity_ : nat
}.

(** A [Type*]: a block and an element offset.  [Iterator] and
    [ConstIterator] are such pointers. *)
Record ptr := Ptr { base : option loc; off : nat }.

Inductive exception := out_of_range.

Section Memory.
Context {T : Type}.

Record mem := Mem {
  heap : gmap loc (list T);
  objs : gmap ref SimpleVector
}.

Inductive outcome (A : Type) :=
| Ret (a : A) (m : mem)
| Throw (e : exception) (m : mem)
| Undefined.

Definition exec (A : Type) := mem -> outcome A.

Definition ret {A} (a : A) : exec A := fun m => Ret A a m.

Definition bind {A B} (c : exec A) (k : A -> exec B) : exec B :=
  fun m =>
    match c m with
    | Ret _ a m' => k a m'
    | Throw _ e m' => Throw B e m'
    | Undefined _ => Undefined B
    end.

Definition throw {A} (e : exception) : exec A := fun m => Throw A e m.

Definition undefined {A} : exec A := fun _ => Undefined A.

(** [assert(b)]: a failed assertion aborts the diagnostic build and is
    undefined behaviour otherwise; both are the third outcome. *)
Definition assert (b : bool) : exec unit :=
  if b then ret tt else undefined.

Definition empty_mem : mem := Mem ∅ ∅.

(** The value of a normal return. *)
Definition value_of {A} (o : outcome A) : option A :=
  match o with Ret _ a _ => Some a | _ => None end.
End Memory.

Arguments mem : clear implicits.
Arguments outcome : clear implicits.
Arguments exec : clear implicits.
Arguments Ret {T A} a m.
Arguments Throw {T A} e m.
Arguments Undefined {T A}.

Notation "x <- c ;; k" := (bind c (fun x => k))
  (at level 100, c at next level, k at level 200, right associativity).
Notation "c ;; k" := (bind c (fun _ => k))
  (at level 100, k at level 200, right associativity).

(** ** Pointers *)

Definition ptr_add (p : ptr) (n : nat) : ptr := Ptr (base p) (off p + n).

(** [p <= q] and [p < q].  C++ leaves the order of pointers into different
    blocks unspecified; here such a comparison is false, so an [assert] on
    it fails. *)
Definition ptr_le (p q : ptr) : bool :=
  bool_decide (base p = base q) && (off p <=? off q).

Definition ptr_lt (p q : ptr) : bool :=
  bool_decide (base p = base q) && (off p <? off q).

(** ** size_t *)

(** [size_t] has 64 bits.  The sizes in a [SimpleVector] record are natural
    numbers below [2^64]; the three operations the class applies to them
    wrap around as the machine's do. *)
Definition SIZE_MAX : N := 18446744073709551615%N.

Definition size_t (n : N) : nat := N.to_nat (n mod (SIZE_MAX + 1)).

(** [a * b], [++a] and [--a] on [size_t]. *)
Definition size_t_mul (a b : nat) : nat := size_t (N.of_nat a * N.of_nat b).

Definition size_t_succ (a : nat) : nat := size_t (N.of_nat a + 1).

Definition size_t_pred (a : nat) : nat := size_t (N.of_nat a + SIZE_MAX).

(** [n] is the value of a [size_t]. *)
Definition fits (n : nat) : Prop := (N.of_nat n <= SIZE_MAX)%N.

Section Primitives.
Context {T : Type}.
Variable Type_default : T.

Local Abbreviation M := (exec T).

(** *** Element access through a pointer *)

Definition load (p : ptr) : M T :=
  fun m =>
    match base p with
    | Some l =>
        match heap m !! l with
        | Some buf =>
            match buf !! off p with
            | Some x => Ret x m
            | None => Undefined
            end
        | None => Undefined
        end
    | None => Undefined
    end.

Definition store (p : ptr) (x : T) : M unit :=
  fun m =>
    match base p with
    | Some l =>
        match heap m !! l with
        | Some buf =>
            if decide (off p < length buf)
            then Ret tt (Mem (<[l := <[off p := x]> buf]> (heap m)) (objs m))
            else Undefined
        | None => Undefined
        end
    | None => Undefined
    end.

(** [--p]: forming a pointer before the start of a block is undefined. *)
Definition ptr_pred (p : ptr) : M ptr :=
  match off p with
  | O => undefined
  | S n => ret (Ptr (base p) n)
  end.

(** [std::distance(first, last)] for [first <= last] in one block, which is
    how the class and the loops below use it. *)
Definition distance (first last : ptr) : M nat :=
  assert (ptr_le first last);;
  ret (off last - off first).

(** *** ArrayPtr *)

(** Modelled from the spec: [array_ptr.h] is not among the sources.  The
    spec's OwnedBuffer is "a fixed-size, exclusively-owned, heap-allocated
    block of Type elements, default-constructible empty, constructible with
    a requested element count (elements default-initialized), supporting
    indexed access and an ownership-transfer swap"; with zero elements "the
    underlying pointer may be null".  [ArrayPtr_new n] is the constructor
    with a count: a fresh block of [n] default elements, or [nullptr] and no
    block for a count of zero. *)
Definition ArrayPtr_new (n : nat) : M (option loc) :=
  fun m =>
    match n with
    | O => Ret None m
    | S _ =>
        let l := fresh (dom (heap m)) in
        Ret (Some l) (Mem (<[l := replicate n Type_default]> (heap m)) (objs m))
    end.

(** Modelled from the spec: the end of an [ArrayPtr]'s lifetime releases
    the block it owns ("destroyed when its owner's lifetime ends, releasing
    the buffer"); releasing a block that is not live is undefined. *)
Definition ArrayPtr_delete (p : option loc) : M unit :=
  match p with
  | None => ret tt
  | Some l =>
      fun m =>
        match heap m !! l with
        | Some _ => Ret tt (Mem (delete l (heap m)) (objs m))
        | None => Undefined
        end
  end.

(** *** Vector objects *)

Definition get (this : ref) : M SimpleVector :=
  fun m =>
    match objs m !! this with
    | Some v => Ret v m
    | None => Undefined
    end.

Definition put (this : ref) (v : SimpleVector) : M unit :=
  fun m =>
    match objs m !! this with
    | Some _ => Ret tt (Mem (heap m) (<[this := v]> (objs m)))
    | None => Undefined
    end.

Definition set_arr (this : ref) (p : option loc) : M unit :=
  v <- get this;; put this (mkSimpleVector p (size_ v) (capacity_ v)).

Definition set_size (this : ref) (n : nat) : M unit :=
  v <- get this;; put this (mkSimpleVector (arr_ v) n (capacity_ v)).

Definition set_capacity (this : ref) (n : nat) : M unit :=
  v <- get this;; put this (mkSimpleVector (arr_ v) (size_ v) n).

(** Storage for a new object, with the default member initialisers of the
    class: an empty [ArrayPtr], [size_ = 0], [capacity_ = 0]. *)
Definition new_object : M ref :=
  fun m =>
    let this := fresh (dom (objs m)) in
    Ret this (Mem (heap m) (<[this := mkSimpleVector None 0 0]> (objs m))).

(** The implicit destructor: the [ArrayPtr] member releases its block and
    the object's storage goes away. *)
Definition destroy (this : ref) : M unit :=
  v <- get this;;
  ArrayPtr_delete (arr_ v);;
  fun m => Ret tt (Mem (heap m) (delete this (objs m))).

End Primitives.

Arguments load {T} p m.
Arguments store {T} p x m.
Arguments ptr_pred {T} p m.
Arguments distance {T} first last m.
Arguments ArrayPtr_delete {T} p m.
Arguments get {T} this m.
Arguments put {T} this v m.
Arguments set_arr {T} this p m.
Arguments set_size {T} this n m.
Arguments set_capacity {T} this n m.
Arguments new_object {T} m.
Arguments destroy {T} this m.

(** ** ReserveProxyObj *)

Record ReserveProxyObj := mkReserveProxyObj { capacity : nat }.

Definition Reserve (capacity_to_reserve : nat) : ReserveProxyObj :=
  mkReserveProxyObj capacity_to_reserve.

(** ** The class *)

Section Class.
Context {T : Type}.
Variable Type_default : T.          (* Type{} *)
Variable moved_from : T -> T.       (* what a move leaves in its source *)
Variable Type_eq : T -> T -> bool.  (* operator== of Type *)
Variable Type_lt : T -> T -> bool.  (* operator< of Type *)

Local Abbreviation M := (exec T).

(** *** The loops of <algorithm> *)

(** [*d = *s] and [*d = std::move( *s)]. *)
Definition copy_assign (d s : ptr) : M unit :=
  x <- load s;; store d x.

Definition move_assign (d s : ptr) : M unit :=
  x <- load s;; store d x;; store s (moved_from x).

(** [while (first != last) *d_first++ = *first++;] run [n = last - first]
    times, with either assignment. *)
Fixpoint forward_loop (assign : ptr -> ptr -> M unit) (n : nat)
    (first d_first : ptr) : M ptr :=
  match n with
  | O => ret d_first
  | S n' =>
      assign d_first first;;
      forward_loop assign n' (ptr_add first 1) (ptr_add d_first 1)
  end.

(** [while (first != last) *(--d_last) = *(--last);] *)
Fixpoint backward_loop (assign : ptr -> ptr -> M unit) (n : nat)
    (last d_last : ptr) : M ptr :=
  match n with
  | O => ret d_last
  | S n' =>
      last' <- ptr_pred last;;
      d_last' <- ptr_pred d_last;;
      assign d_last' last';;
      backward_loop assign n' last' d_last'
  end.

Definition std_copy (first last d_first : ptr) : M ptr :=
  n <- distance first last;; forward_loop copy_assign n first d_first.

Definition std_move (first last d_first : ptr) : M ptr :=
  n <- distance first last;; forward_loop move_assign n first d_first.

Definition std_copy_backward (first last d_last : ptr) : M ptr :=
  n <- distance first last;; backward_loop copy_assign n last d_last.

Definition std_move_backward (first last d_last : ptr) : M ptr :=
  n <- distance first last;; backward_loop move_assign n last d_last.

Fixpoint fill_loop (n : nat) (first : ptr) (value : T) : M unit :=
  match n with
  | O => ret tt
  | S n' => store first value;; fill_loop n' (ptr_add first 1) value
  end.

Definition std_fill (first last : ptr) (value : T) : M unit :=
  n <- distance first last;; fill_loop n first value.

(** The elements of an initializer list or another range outside the
    heap, written in order. *)
Fixpoint write_list (d_first : ptr) (init : list T) : M ptr :=
  match init with
  | [] => ret d_first
  | x :: init' => store d_first x;; write_list (ptr_add d_first 1) init'
  end.

Fixpoint equal_loop (n : nat) (first1 first2 : ptr) : M bool :=
  match n with
  | O => ret true
  | S n' =>
      x <- load first1;;
      y <- load first2;;
      if negb (Type_eq x y) then ret false
      else equal_loop n' (ptr_add first1 1) (ptr_add first2 1)
  end.

(** The four-iterator [std::equal] on random-access ranges. *)
Definition std_equal (first1 last1 first2 last2 : ptr) : M bool :=
  n1 <- distance first1 last1;;
  n2 <- distance first2 last2;;
  if negb (n1 =? n2) then ret false else equal_loop n1 first1 first2.

Fixpoint lexicographical_loop (n1 n2 : nat) (first1 first2 : ptr) : M bool :=
  match n1, n2 with
  | S n1', S n2' =>
      x <- load first1;;
      y <- load first2;;
      if Type_lt x y then ret true
      else if Type_lt y x then ret false
      else lexicographical_loop n1' n2' (ptr_add first1 1) (ptr_add first2 1)
  | O, S _ => ret true
  | _, O => ret false
  end.

Definition std_lexicographical_compare (first1 last1 first2 last2 : ptr)
    : M bool :=
  n1 <- distance first1 last1;;
  n2 <- distance first2 last2;;
  lexicographical_loop n1 n2 first1 first2.

(** *** Observers *)

Definition GetSize (this : ref) : M nat :=
  v <- get this;; ret (size_ v).

Definition GetCapacity (this : ref) : M nat :=
  v <- get this;; ret (capacity_ v).

Definition IsEmpty (this : ref) : M bool :=
  v <- get this;; ret (size_ v =? 0).

Definition begin (this : ref) : M ptr :=
  v <- get this;; ret (Ptr (arr_ v) 0).

Definition end_ (this : ref) : M ptr :=
  v <- get this;; ret (Ptr (arr_ v) (size_ v)).

Definition cbegin (this : ref) : M ptr := begin this.

Definition cend (this : ref) : M ptr := end_ this.

(** *** Clear and swap *)

Definition Clear (this : ref) : M unit := set_size this 0.

(** Modelled from the spec: [arr_.swap(other.arr_)], the "ownership-exchanging
    swap with another OwnedBuffer instance": the two raw pointers change
    places. *)
Definition ArrayPtr_swap (this other : ref) : M unit :=
  a <- get this;;
  b <- get other;;
  set_arr this (arr_ b);;
  set_arr other (arr_ a).

Definition swap (this other : ref) : M unit :=
  ArrayPtr_swap this other;;
  a <- get this;;
  b <- get other;;
  set_size this (size_ b);;
  set_size other (size_ a);;
  a <- get this;;
  b <- get other;;
  set_capacity this (capacity_ b);;
  set_capacity other (capacity_ a).

(** [swap(SimpleVector&&)]. *)
Definition swap_rvalue (this other : ref) : M unit :=
  swap this other;;
  Clear other.

(** *** Constructors *)

Definition SimpleVector_default : M ref := new_object.

(** [for (it = arr_.Get(); it != arr_.Get() + size; ++it)
      { *it = std::move(value); value = Type{}; }]
    The result is what [value] holds after the loop. *)
Fixpoint fill_move_loop (n : nat) (it : ptr) (value : T) : M T :=
  match n with
  | O => ret value
  | S n' => store it value;; fill_move_loop n' (ptr_add it 1) Type_default
  end.

(** [SimpleVector(size_t size, Type&& value)]. *)
Definition SimpleVector_fill_move (size : nat) (value : T) : M ref :=
  this <- new_object;;
  p <- ArrayPtr_new Type_default size;;
  put this (mkSimpleVector p size size);;
  fill_move_loop size (Ptr p 0) value;;
  ret this.

(** [explicit SimpleVector(size_t size)] delegates with [Type{}]. *)
Definition SimpleVector_sized (size : nat) : M ref :=
  SimpleVector_fill_move size Type_default.

(** [SimpleVector(size_t size, const Type& value)]. *)
Definition SimpleVector_fill (size : nat) (value : T) : M ref :=
  this <- new_object;;
  p <- ArrayPtr_new Type_default size;;
  put this (mkSimpleVector p size size);;
  b <- begin this;;
  e <- end_ this;;
  std_fill b e value;;
  ret this.

(** [SimpleVector(std::initializer_list<Type> init)]. *)
Definition SimpleVector_init (init : list T) : M ref :=
  this <- new_object;;
  p <- ArrayPtr_new Type_default (length init);;
  put this (mkSimpleVector p (length init) (length init));;
  write_list (Ptr p 0) init;;
  ret this.

(** [SimpleVector(const SimpleVector& other)]. *)
Definition SimpleVector_copy (other : ref) : M ref :=
  this <- new_object;;
  n <- GetSize other;;
  tmp <- SimpleVector_sized n;;
  b <- begin other;;
  e <- end_ other;;
  d <- begin tmp;;
  std_copy b e d;;
  c <- GetCapacity other;;
  set_capacity tmp c;;
  swap this tmp;;
  destroy tmp;;
  ret this.

(** [SimpleVector(SimpleVector&& other)]. *)
Definition SimpleVector_move (other : ref) : M ref :=
  this <- new_object;;
  o <- get other;;
  p <- ArrayPtr_new Type_default (size_ o);;
  set_arr this p;;
  (if decide (this ≠ other) then
     ArrayPtr_swap this other;;
     o <- get other;;
     set_size this (size_ o);;
     o <- get other;;
     set_capacity this (capacity_ o);;
     Clear other
   else ret tt);;
  ret this.

(** [SimpleVector(ReserveProxyObj proxy)]. *)
Definition SimpleVector_reserved (proxy : ReserveProxyObj) : M ref :=
  this <- new_object;;
  p <- ArrayPtr_new Type_default (capacity proxy);;
  put this (mkSimpleVector p 0 (capacity proxy));;
  ret this.

(** *** Assignment *)

(** [operator=(const SimpleVector& rhs)]. *)
Definition assign_copy (this rhs : ref) : M ref :=
  (if decide (this ≠ rhs) then
     empty <- IsEmpty rhs;;
     if empty then Clear this
     else
       copy <- SimpleVector_copy rhs;;
       swap this copy;;
       destroy copy
   else ret tt);;
  ret this.

(** [operator=(SimpleVector&& rhs)]. *)
Definition assign_move (this rhs : ref) : M ref :=
  (if decide (this ≠ rhs) then
     empty <- IsEmpty rhs;;
     if empty then Clear this
     else
       swap_rvalue this rhs;;
       Clear rhs
   else ret tt);;
  ret this.

(** *** Element access *)

(** [operator[]], mutable and const. *)
Definition subscript (this : ref) (index : nat) : M ptr :=
  v <- get this;;
  assert (index <? size_ v);;
  b <- begin this;;
  ret (ptr_add b index).

(** [At], mutable and const. *)
Definition At (this : ref) (index : nat) : M ptr :=
  v <- get this;;
  if size_ v <=? index then throw out_of_range
  else
    b <- begin this;;
    ret (ptr_add b index).

(** *** Capacity *)

Definition ChangeCapacity (this : ref) (new_size : nat) : M unit :=
  new_arr <- SimpleVector_sized new_size;;
  prev_size <- GetSize this;;
  b <- begin this;;
  e <- end_ this;;
  d <- begin new_arr;;
  std_move b e d;;
  swap_rvalue this new_arr;;
  set_size this prev_size;;
  destroy new_arr.

(** [if (size_ == capacity_)
      size_ != 0 ? ChangeCapacity(2 * size_) : ChangeCapacity(1);]
    as it stands in both [PushBack] and both [Insert] overloads. *)
Definition grow_if_full (this : ref) : M unit :=
  v <- get this;;
  if size_ v =? capacity_ v then
    if negb (size_ v =? 0) then ChangeCapacity this (size_t_mul 2 (size_ v))
    else ChangeCapacity this 1
  else ret tt.

Definition Resize (this : ref) (new_size : nat) : M unit :=
  v <- get this;;
  if new_size <=? size_ v then set_size this new_size
  else
    (if new_size <=? capacity_ v then
       b <- begin this;;
       fill_loop (new_size - size_ v) (ptr_add b (size_ v)) Type_default
     else ChangeCapacity this new_size);;
    set_size this new_size.

Definition SimpleVector_Reserve (this : ref) (new_capacity : nat) : M unit :=
  v <- get this;;
  if capacity_ v <? new_capacity then ChangeCapacity this new_capacity
  else ret tt.

(** *** PushBack and PopBack *)

(** [PushBack(const Type& item)].  The argument is a reference: the
    address of the object it is bound to, which is read only after the
    growth. *)
Definition PushBack (this : ref) (item : ptr) : M unit :=
  grow_if_full this;;
  v <- get this;;
  copy_assign (Ptr (arr_ v) (size_ v)) item;;
  set_size this (size_t_succ (size_ v)).

(** [PushBack(Type&& item)]:
    [arr_[size_] = std::move(item); item = std::move(Type{}); size_++;] *)
Definition PushBack_move (this : ref) (item : ptr) : M unit :=
  grow_if_full this;;
  v <- get this;;
  move_assign (Ptr (arr_ v) (size_ v)) item;;
  store item Type_default;;
  set_size this (size_t_succ (size_ v)).

Definition PopBack (this : ref) : M unit :=
  empty <- IsEmpty this;;
  if empty then ret tt
  else
    v <- get this;;
    set_size this (size_t_pred (size_ v)).

(** *** Insert and Erase *)

(** [Insert(ConstIterator pos, const Type& value)].  The reference [value]
    is read after the growth and after the shift; [std::move] of a
    [const Type&] copies. *)
Definition Insert (this : ref) (pos : ptr) (value : ptr) : M ptr :=
  b <- begin this;;
  e <- end_ this;;
  assert (ptr_le b pos && ptr_le pos e);;
  cb <- cbegin this;;
  index <- distance cb pos;;
  grow_if_full this;;
  b <- begin this;;
  e <- end_ this;;
  std_copy_backward (ptr_add b index) e (ptr_add e 1);;
  v <- get this;;
  copy_assign (Ptr (arr_ v) index) value;;
  set_size this (size_t_succ (size_ v));;
  b <- begin this;;
  ret (ptr_add b index).

(** [Insert(ConstIterator pos, Type&& value)]:
    [arr_[index] = std::move(value); ++size_; value = std::move(Type{});] *)
Definition Insert_move (this : ref) (pos : ptr) (value : ptr) : M ptr :=
  b <- begin this;;
  e <- end_ this;;
  assert (ptr_le b pos && ptr_le pos e);;
  cb <- cbegin this;;
  index <- distance cb pos;;
  grow_if_full this;;
  b <- begin this;;
  e <- end_ this;;
  std_move_backward (ptr_add b index) e (ptr_add e 1);;
  v <- get this;;
  move_assign (Ptr (arr_ v) index) value;;
  set_size this (size_t_succ (size_ v));;
  store value Type_default;;
  b <- begin this;;
  ret (ptr_add b index).

Definition Erase (this : ref) (pos : ptr) : M ptr :=
  b <- begin this;;
  e <- end_ this;;
  assert (ptr_le b pos && ptr_lt pos e);;
  cb <- cbegin this;;
  index <- distance cb pos;;
  b <- begin this;;
  e <- end_ this;;
  std_move (ptr_add (ptr_add b index) 1) e (ptr_add b index);;
  v <- get this;;
  set_size this (size_t_pred (size_ v));;
  ret pos.

(** *** Comparison operators *)

Definition operator_eq (lhs rhs : ref) : M bool :=
  n1 <- GetSize lhs;;
  n2 <- GetSize rhs;;
  if n1 =? n2 then
    b1 <- cbegin lhs;;
    e1 <- cend lhs;;
    b2 <- cbegin rhs;;
    e2 <- cend rhs;;
    std_equal b1 e1 b2 e2
  else ret false.

Definition operator_ne (lhs rhs : ref) : M bool :=
  r <- operator_eq lhs rhs;; ret (negb r).

Definition operator_lt (lhs rhs : ref) : M bool :=
  b1 <- cbegin lhs;;
  e1 <- cend lhs;;
  b2 <- cbegin rhs;;
  e2 <- cend rhs;;
  std_lexicographical_compare b1 e1 b2 e2.

Definition operator_le (lhs rhs : ref) : M bool :=
  r <- operator_lt rhs lhs;; ret (negb r).

Definition operator_gt (lhs rhs : ref) : M bool :=
  operator_lt rhs lhs.

Definition operator_ge (lhs rhs : ref) : M bool :=
  r <- operator_gt rhs lhs;; ret (negb r).

End Class.

(** ** Client programs *)

Section Clients.
Context {T : Type}.
Variable Type_default : T.
Variable moved_from : T -> T.

Local Abbreviation M := (exec T).

(** An object of [Type] that the caller holds, a local variable or a
    temporary, constructed from [x]: a block of one element of its own.
    The result is its address. *)
Definition local (x : T) : M ptr :=
  fun m =>
    let l := fresh (dom (heap m)) in
    Ret (Ptr (Some l) 0) (Mem (<[l := [x]]> (heap m)) (objs m)).

(** [PushBack] called once per item, in order; the items are references. *)
Fixpoint push_all (this : ref) (items : list ptr) : M unit :=
  match items with
  | [] => ret tt
  | item :: items' =>
      PushBack Type_default moved_from this item;;
      push_all this items'
  end.

(** One call that changes a vector through its public interface;
    [write i x] is [v[i] = x], and the items and values of [PushBack] and
    [Insert] are references. *)
Inductive mutation :=
| write (index : nat) (x : T)
| call_Clear
| call_Resize (new_size : nat)
| call_Reserve (new_capacity : nat)
| call_PushBack (item : ptr)
| call_PushBack_move (item : ptr)
| call_PopBack
| call_Insert (pos : ptr) (value : ptr)
| call_Insert_move (pos : ptr) (value : ptr)
| call_Erase (pos : ptr).

Definition mutate (this : ref) (μ : mutation) : M unit :=
  match μ with
  | write index x => p <- subscript this index;; store p x
  | call_Clear => Clear this
  | call_Resize new_size => Resize Type_default moved_from this new_size
  | call_Reserve new_capacity =>
      SimpleVector_Reserve Type_default moved_from this new_capacity
  | call_PushBack item => PushBack Type_default moved_from this item
  | call_PushBack_move item => PushBack_move Type_default moved_from this item
  | call_PopBack => PopBack this
  | call_Insert pos value =>
      Insert Type_default moved_from this pos value;; ret tt
  | call_Insert_move pos value =>
      Insert_move Type_default moved_from this pos value;; ret tt
  | call_Erase pos => Erase moved_from this pos;; ret tt
  end.

Fixpoint mutate_all (this : ref) (μs : list mutation) : M unit :=
  match μs with
  | [] => ret tt
  | μ :: μs' => mutate this μ;; mutate_all this μs'
  end.

End Clients.



(** ** What a vector holds *)

Section Model.
Context {T : Type}.

(** The block behind an [ArrayPtr]: [nullptr] owns no element. *)
Definition buffer (m : mem T) (p : option loc) : option (list T) :=
  match p with
  | None => Some []
  | Some l => heap m !! l
  end.

(** The data-model invariant of the class: the block has exactly
    [capacity_] elements, and [size_] of them are live. *)
Definition storage_invariant (m : mem T) (v : SimpleVector) : Prop :=
  ∃ buf, buffer m (arr_ v) = Some buf ∧ length buf = capacity_ v.

Definition well_formed (m : mem T) (v : SimpleVector) : Prop :=
  storage_invariant m v ∧ size_ v ≤ capacity_ v.

(** The number of elements allocated behind the vector at [r]. *)
Definition allocated (m : mem T) (r : ref) : option nat :=
  match objs m !! r with
  | Some v => length <$> buffer m (arr_ v)
  | None => None
  end.

(** [m'] is [m] with the block [q] allocated: every other block is as it
    was, and [q], when it is not null, was not a block of [m]. *)
Definition allocates (m m' : mem T) (q : option loc) : Prop :=
  (∀ l, q ≠ Some l → heap m' !! l = heap m !! l)
  ∧ (∀ l, q = Some l → heap m !! l = None).

(** An assignment [*d = ... *s] that leaves [g x] in its source: [g] is the
    identity for a copy and [moved_from] for a move. *)
Definition assigns (g : T → T) (assign : ptr → ptr → exec T unit) : Prop :=
  ∀ d s m, assign d s m = (x <- load s;; store d x;; store s (g x)) m.

(** The elements [xs] can be read from offset [i] of the block [q]. *)
Definition readable (m : mem T) (q : option loc) (i : nat) (xs : list T)
    : Prop :=
  ∀ k x, xs !! k = Some x → load (Ptr q (i + k)) m = Ret x m.

(** Follows the spec's words: "Ordering is lexicographic element-wise
    comparison".  The first position at which the sequences differ
    decides, and a proper prefix is less; two elements differ when one of
    them is less than the other. *)
Inductive lexicographically_less (Type_lt : T → T → bool)
    : list T → list T → Prop :=
| lex_prefix y ys : lexicographically_less Type_lt [] (y :: ys)
| lex_first x xs y ys :
    Type_lt x y = true → lexicographically_less Type_lt (x :: xs) (y :: ys)
| lex_rest x xs y ys :
    Type_lt x y = false → Type_lt y x = false →
    lexicographically_less Type_lt xs ys →
    lexicographically_less Type_lt (x :: xs) (y :: ys).


(** The vector object at [a] is [va], its block holds [bufa], and no other
    vector object points at that block. *)
Definition owned (a : ref) (va : SimpleVector) (bufa : list T) (m : mem T)
    : Prop :=
  objs m !! a = Some va
  ∧ buffer m (arr_ va) = Some bufa
  ∧ ∀ r v, r ≠ a → objs m !! r = Some v → arr_ v = None ∨ arr_ v ≠ arr_ va.

(** [c], run where [a] owns its block, leaves [a] and the block as they
    are whenever it returns, and returns a value satisfying [Q]. *)
Definition keeps (a : ref) (va : SimpleVector) (bufa : list T) {A}
    (c : exec T A) (Q : A → Prop) : Prop :=
  ∀ m x m', owned a va bufa m → c m = Ret x m' → owned a va bufa m' ∧ Q x.

End Model.

(** ** Blocks, positions and calls *)

(** [p == q] on pointers. *)
#[global] Instance ptr_eq_dec : EqDecision ptr.
Proof. solve_decision. Defined.

(** The blocks of the heap other than the one behind [q]. *)
Definition other_blocks {T} (m : mem T) (q : option loc)
    : gmap loc (list T) :=
  match q with
  | Some l => delete l (heap m)
  | None => heap m
  end.

(** What the call [μ] asserts of the vector [v] it is made on: the index
    of [operator[]] and the position of [Insert] and of [Erase]. *)
Definition admits {T} (v : SimpleVector) (μ : mutation (T := T)) : bool :=
  match μ with
  | write index _ => index <? size_ v
  | call_Insert pos _ | call_Insert_move pos _ =>
      ptr_le (Ptr (arr_ v) 0) pos && ptr_le pos (Ptr (arr_ v) (size_ v))
  | call_Erase pos =>
      ptr_le (Ptr (arr_ v) 0) pos && ptr_lt pos (Ptr (arr_ v) (size_ v))
  | _ => true
  end.

(** The [Type&&] overloads write [Type{}] back through their argument:
    the object the argument of the call [μ] is bound to lies outside the
    block behind [q]. *)
Definition moves_from_outside {T} (q : option loc) (μ : mutation (T := T))
    : Prop :=
  match μ with
  | call_PushBack_move item => base item ≠ q
  | call_Insert_move _ value => base value ≠ q
  | _ => True
  end.

#[global] Instance moves_from_outside_dec {T} q (μ : mutation (T := T)) :
  Decision (moves_from_outside q μ).
Proof. destruct μ; simpl; apply _. Defined.

(** The reference argument of the call [μ], when it has one, is bound to
    an object of [m] that lies outside the block behind [q]. *)
Definition refers_outside {T} (m : mem T) (q : option loc)
    (μ : mutation (T := T)) : Prop :=
  match μ with
  | call_PushBack item | call_PushBack_move item
  | call_Insert _ item | call_Insert_move _ item =>
      is_Some (value_of (load item m)) ∧ base item ≠ q
  | _ => True
  end.

#[global] Instance refers_outside_dec {T} m q (μ : mutation (T := T)) :
  Decision (refers_outside m q μ).
Proof. destruct μ; simpl; apply _. Defined.

(** ** Vectors of [int] *)

(** [SimpleVector<int>]: [Type{}] is [0], and moving an [int] copies it. *)
Definition int_default : Z := 0%Z.
Definition int_moved_from (x : Z) : Z := x.

(** The vector [{1, 2, 3}] alone in memory, as its constructor leaves it. *)
Definition v123 : SimpleVector := mkSimpleVector (Some 1%positive) 3 3.
Definition m123 : mem Z :=
  Mem {[1%positive := [1; 2; 3]%Z]} {[1%positive := v123]}.

(** The vectors [{1, 2, 3}] and [{1, 2, 4}]. *)
Definition v124 : SimpleVector := mkSimpleVector (Some 2%positive) 3 3.
Definition m123_124 : mem Z :=
  Mem {[1%positive := [1; 2; 3]%Z; 2%positive := [1; 2; 4]%Z]}
      {[1%positive := v123; 2%positive := v124]}.

(** A default-constructed vector. *)
Definition m_default : mem Z :=
  Mem ∅ {[1%positive := mkSimpleVector None 0 0]}.

(** The vector [{1, 2}] after [Reserve(4)]. *)
Definition v12_4 : SimpleVector := mkSimpleVector (Some 2%positive) 2 4.
Definition m12_4 : mem Z :=
  Mem {[2%positive := [1; 2; 0; 0]%Z]} {[1%positive := v12_4]}.

(** The vector [{1, 2, 3}] and a default-constructed vector. *)
Definition m123_default : mem Z :=
  Mem {[1%positive := [1; 2; 3]%Z]}
      {[1%positive := v123; 2%positive := mkSimpleVector None 0 0]}.


(** ** Stepping through the monad *)

Section Steps.
Context {T : Type}.
Implicit Types (m : mem T) (p : ptr) (v : SimpleVector).

Lemma bind_Ret {A B} (c : exec T A) (k : A → exec T B) m a m' :
  c m = Ret a m' → bind c k m = k a m'.
Proof. intros H. unfold bind. by rewrite H. Qed.

Lemma load_eq m l buf i x :
  heap m !! l = Some buf → buf !! i = Some x →
  load (Ptr (Some l) i) m = Ret x m.
Proof. intros Hl Hi. unfold load. simpl. by rewrite Hl, Hi. Qed.

Lemma store_eq m l buf i x :
  heap m !! l = Some buf → i < length buf →
  store (Ptr (Some l) i) x m
  = Ret tt (Mem (<[l := <[i := x]> buf]> (heap m)) (objs m)).
Proof.
  intros Hl Hi. unfold store. simpl. rewrite Hl.
  by rewrite decide_True.
Qed.

Lemma get_eq m r v : objs m !! r = Some v → get r m = Ret v m.
Proof. intros H. unfold get. by rewrite H. Qed.

Lemma put_eq m r v v' :
  objs m !! r = Some v →
  put r v' m = Ret tt (Mem (heap m) (<[r := v']> (objs m))).
Proof. intros H. unfold put. by rewrite H. Qed.

Lemma set_arr_eq m r v q :
  objs m !! r = Some v →
  set_arr r q m
  = Ret tt (Mem (heap m)
              (<[r := mkSimpleVector q (size_ v) (capacity_ v)]> (objs m))).
Proof.
  intros H. unfold set_arr. rewrite (bind_Ret _ _ _ _ _ (get_eq _ _ _ H)).
  by apply put_eq with v.
Qed.

Lemma set_size_eq m r v n :
  objs m !! r = Some v →
  set_size r n m
  = Ret tt (Mem (heap m)
              (<[r := mkSimpleVector (arr_ v) n (capacity_ v)]> (objs m))).
Proof.
  intros H. unfold set_size. rewrite (bind_Ret _ _ _ _ _ (get_eq _ _ _ H)).
  by apply put_eq with v.
Qed.

Lemma set_capacity_eq m r v n :
  objs m !! r = Some v →
  set_capacity r n m
  = Ret tt (Mem (heap m)
              (<[r := mkSimpleVector (arr_ v) (size_ v) n]> (objs m))).
Proof.
  intros H. unfold set_capacity.
  rewrite (bind_Ret _ _ _ _ _ (get_eq _ _ _ H)).
  by apply put_eq with v.
Qed.

Lemma fresh_object m : objs m !! fresh (dom (objs m)) = None.
Proof. apply not_elem_of_dom, is_fresh. Qed.

Lemma fresh_block m : heap m !! fresh (dom (heap m)) = None.
Proof. apply not_elem_of_dom, is_fresh. Qed.

Lemma distance_eq m q i j :
  i ≤ j → distance (Ptr q i) (Ptr q j) m = Ret (j - i) m.
Proof.
  intros H. unfold distance, assert, ptr_le. simpl.
  rewrite bool_decide_eq_true_2 by done.
  destruct (i <=? j) eqn:E; [done|].
  apply Nat.leb_gt in E. lia.
Qed.

Lemma fits_le n k : n ≤ k → fits k → fits n.
Proof. unfold fits. lia. Qed.

Lemma fits_1 : fits 1.
Proof. unfold fits, SIZE_MAX. lia. Qed.

Lemma fits_succ_of_double n : fits (2 * n) → fits (n + 1).
Proof.
  intros H. destruct n as [|n]; [exact fits_1|].
  apply (fits_le _ (2 * S n)); [lia|done].
Qed.

Lemma size_t_small n : (n <= SIZE_MAX)%N → size_t n = N.to_nat n.
Proof. intros H. unfold size_t. rewrite N.mod_small; [done|]. lia. Qed.

Lemma size_t_mul_fits a b : fits (a * b) → size_t_mul a b = a * b.
Proof.
  unfold fits, size_t_mul. intros H. rewrite size_t_small by lia. lia.
Qed.

Lemma size_t_succ_fits a : fits (a + 1) → size_t_succ a = a + 1.
Proof.
  unfold fits, size_t_succ. intros H. rewrite size_t_small by lia. lia.
Qed.

Lemma size_t_pred_fits a : 0 < a → fits a → size_t_pred a = a - 1.
Proof.
  unfold fits, size_t_pred, size_t. intros Ha H.
  replace (N.of_nat a + SIZE_MAX)%N
    with (N.of_nat (a - 1) + 1 * (SIZE_MAX + 1))%N by lia.
  rewrite N.Div0.mod_add. rewrite N.mod_small by lia. lia.
Qed.

End Steps.

(** ** The loops *)

Section Loops.
Context {T : Type}.
Implicit Types (m : mem T) (p : ptr) (v : SimpleVector).

Lemma move_assign_assigns (moved_from : T → T) :
  assigns moved_from (move_assign moved_from).
Proof. intros d s m. reflexivity. Qed.

Lemma copy_assign_assigns : assigns id (@copy_assign T).
Proof.
  intros [qd d] [qs s] m. unfold copy_assign, bind.
  destruct (load (Ptr qs s) m) as [x m0| |] eqn:Hload; [|done..].
  unfold load in Hload. simpl in Hload.
  destruct qs as [ls|]; [|done].
  destruct (heap m !! ls) as [src|] eqn:Hs; [|done].
  destruct (src !! s) as [y|] eqn:Hy; [|done].
  injection Hload as <- <-.
  unfold store. simpl.
  destruct qd as [ld|]; [|done].
  destruct (heap m !! ld) as [dst|] eqn:Hd; [|done].
  case_decide as Hlt; [|done]. simpl.
  destruct (decide (ld = ls)) as [->|Hne].
  - rewrite lookup_insert_eq. rewrite length_insert.
    assert (dst = src) as -> by congruence.
    rewrite decide_True by (by eapply lookup_lt_Some).
    rewrite insert_insert_eq. do 3 f_equal.
    symmetry. apply list_insert_id.
    destruct (decide (d = s)) as [->|Hds].
    + by apply list_lookup_insert_eq.
    + by rewrite list_lookup_insert_ne.
  - rewrite lookup_insert_ne by done. rewrite Hs.
    rewrite decide_True by (by eapply lookup_lt_Some).
    rewrite (list_insert_id src s y) by done.
    f_equal. f_equal. symmetry. apply insert_id.
    by rewrite lookup_insert_ne.
Qed.

Lemma assigns_blocks g assign m ls ld src dst i j x :
  assigns g assign → ls ≠ ld →
  heap m !! ls = Some src → heap m !! ld = Some dst →
  src !! i = Some x → j < length dst →
  assign (Ptr (Some ld) j) (Ptr (Some ls) i) m
  = Ret tt (Mem (<[ls := <[i := g x]> src]> (<[ld := <[j := x]> dst]> (heap m)))
              (objs m)).
Proof.
  intros Ha Hne Hs Hd Hx Hj. rewrite Ha.
  rewrite (bind_Ret _ _ _ _ _ (load_eq _ _ _ _ _ Hs Hx)).
  rewrite (bind_Ret _ _ _ _ _ (store_eq _ _ _ _ _ Hd Hj)).
  erewrite store_eq; [done| |by eapply lookup_lt_Some].
  simpl. by rewrite lookup_insert_ne.
Qed.

Lemma assigns_within g assign m l buf i j x :
  assigns g assign →
  heap m !! l = Some buf → buf !! i = Some x → j < length buf → i ≠ j →
  assign (Ptr (Some l) j) (Ptr (Some l) i) m
  = Ret tt (Mem (<[l := <[i := g x]> (<[j := x]> buf)]> (heap m)) (objs m)).
Proof.
  intros Ha Hl Hx Hj Hij. rewrite Ha.
  rewrite (bind_Ret _ _ _ _ _ (load_eq _ _ _ _ _ Hl Hx)).
  rewrite (bind_Ret _ _ _ _ _ (store_eq _ _ _ _ _ Hl Hj)).
  erewrite store_eq.
  - simpl. by rewrite insert_insert_eq.
  - simpl. by rewrite lookup_insert_eq.
  - rewrite length_insert. by eapply lookup_lt_Some.
Qed.


(** Copying or moving [n] elements from one block into another. *)
Lemma forward_loop_blocks g assign n :
  assigns g assign →
  ∀ i j m ls ld src dst,
    ls ≠ ld → heap m !! ls = Some src → heap m !! ld = Some dst →
    i + n ≤ length src → j + n ≤ length dst →
    ∃ src' dst',
      forward_loop assign n (Ptr (Some ls) i) (Ptr (Some ld) j) m
      = Ret (Ptr (Some ld) (j + n))
          (Mem (<[ld := dst']> (<[ls := src']> (heap m))) (objs m))
      ∧ length src' = length src ∧ length dst' = length dst
      ∧ (∀ k, src' !! k
              = if decide (i ≤ k < i + n) then g <$> src !! k else src !! k)
      ∧ (∀ k, dst' !! k
              = if decide (j ≤ k < j + n) then src !! (i + (k - j))
                else dst !! k).
Proof.
  intros Ha. induction n as [|n IH]; intros i j m ls ld src dst Hne Hs Hd Hi Hj.
  - exists src, dst. simpl. unfold ret. rewrite Nat.add_0_r.
    rewrite (insert_id (heap m) ls src) by done.
    rewrite (insert_id (heap m) ld dst) by done.
    destruct m. repeat split; try done.
    + intros k. rewrite decide_False by lia. done.
    + intros k. rewrite decide_False by lia. done.
  - destruct (lookup_lt_is_Some_2 src i) as [x Hx]; [lia|].
    simpl.
    rewrite (bind_Ret _ _ _ _ _
               (assigns_blocks g assign m ls ld src dst i j x Ha Hne Hs Hd Hx
                  ltac:(lia))).
    unfold ptr_add. simpl.
    set (m1 := Mem _ _).
    destruct (IH (i + 1) (j + 1) m1 ls ld (<[i := g x]> src) (<[j := x]> dst))
      as (src' & dst' & Hrun & Hls & Hld & Hsrc & Hdst); try done.
    + subst m1. simpl. by rewrite lookup_insert_eq.
    + subst m1. simpl. rewrite lookup_insert_ne by done.
      by rewrite lookup_insert_eq.
    + rewrite length_insert. lia.
    + rewrite length_insert. lia.
    + exists src', dst'. rewrite Hrun. subst m1. simpl.
      rewrite length_insert in Hls, Hld.
      repeat split; try done.
      * f_equal; [f_equal; lia|]. f_equal.
        rewrite insert_insert_eq.
        rewrite (insert_insert_ne _ ls ld) by done.
        rewrite insert_insert_eq.
        by rewrite (insert_insert_ne _ ld ls) by done.
      * intros k. rewrite Hsrc.
        destruct (decide (k = i)) as [->|Hk].
        -- rewrite decide_False by lia. rewrite decide_True by lia.
           rewrite list_lookup_insert_eq by lia. by rewrite Hx.
        -- rewrite list_lookup_insert_ne by done.
           repeat case_decide; try done; lia.
      * intros k. rewrite Hdst.
        destruct (decide (k = j)) as [->|Hk].
        -- rewrite decide_False by lia. rewrite decide_True by lia.
           rewrite list_lookup_insert_eq by lia.
           replace (i + (j - j)) with i by lia. done.
        -- rewrite (list_lookup_insert_ne _ j k) by done.
           repeat case_decide; try done; try lia.
           rewrite list_lookup_insert_ne by lia. f_equal. lia.
Qed.

(** Moving [[i+1, i+1+n)] one slot toward the beginning of its block. *)
Lemma forward_loop_shift_left g assign n :
  assigns g assign →
  ∀ i m l buf,
    heap m !! l = Some buf → i + 1 + n ≤ length buf →
    ∃ buf',
      forward_loop assign n (Ptr (Some l) (i + 1)) (Ptr (Some l) i) m
      = Ret (Ptr (Some l) (i + n)) (Mem (<[l := buf']> (heap m)) (objs m))
      ∧ length buf' = length buf
      ∧ (∀ k, k < i → buf' !! k = buf !! k)
      ∧ (∀ k, i ≤ k < i + n → buf' !! k = buf !! (k + 1))
      ∧ (∀ k, i + n < k → buf' !! k = buf !! k).
Proof.
  intros Ha. induction n as [|n IH]; intros i m l buf Hl Hlen.
  - exists buf. simpl. unfold ret. rewrite Nat.add_0_r.
    rewrite (insert_id (heap m) l buf) by done.
    destruct m. repeat split; try done. intros; lia.
  - destruct (lookup_lt_is_Some_2 buf (i + 1)) as [x Hx]; [lia|].
    simpl.
    rewrite (bind_Ret _ _ _ _ _
               (assigns_within g assign m l buf (i + 1) i x Ha Hl Hx
                  ltac:(lia) ltac:(lia))).
    unfold ptr_add. simpl.
    set (buf1 := <[i + 1 := g x]> (<[i := x]> buf)).
    set (m1 := Mem _ _).
    destruct (IH (i + 1) m1 l buf1) as (buf' & Hrun & Hlen' & Hlo & Hmid & Hhi).
    + subst m1. simpl. by rewrite lookup_insert_eq.
    + subst buf1. rewrite !length_insert. lia.
    + exists buf'. rewrite Hrun. subst m1 buf1. simpl.
      rewrite !length_insert in Hlen'.
      repeat split; try done.
      * f_equal; [f_equal; lia|]. by rewrite insert_insert_eq.
      * intros k Hk. rewrite Hlo by lia.
        by rewrite !list_lookup_insert_ne by lia.
      * intros k Hk. destruct (decide (k = i)) as [->|Hki].
        -- rewrite Hlo by lia. rewrite list_lookup_insert_ne by lia.
           rewrite list_lookup_insert_eq by lia. done.
        -- rewrite Hmid by lia. by rewrite !list_lookup_insert_ne by lia.
      * intros k Hk. rewrite Hhi by lia.
        by rewrite !list_lookup_insert_ne by lia.
Qed.

(** Copying or moving [[e-n, e)] one slot toward the end of its block. *)
Lemma backward_loop_shift_right g assign n :
  assigns g assign →
  ∀ e m l buf,
    heap m !! l = Some buf → n ≤ e → e < length buf →
    ∃ buf',
      backward_loop assign n (Ptr (Some l) e) (Ptr (Some l) (e + 1)) m
      = Ret (Ptr (Some l) (e + 1 - n)) (Mem (<[l := buf']> (heap m)) (objs m))
      ∧ length buf' = length buf
      ∧ (∀ k, k < e - n → buf' !! k = buf !! k)
      ∧ (∀ k, e - n < k ≤ e → buf' !! k = buf !! (k - 1))
      ∧ (∀ k, e < k → buf' !! k = buf !! k).
Proof.
  intros Ha. induction n as [|n IH]; intros e m l buf Hl Hn He.
  - exists buf. simpl. unfold ret. rewrite Nat.sub_0_r.
    rewrite (insert_id (heap m) l buf) by done.
    destruct m. repeat split; try done. intros; lia.
  - destruct e as [|e]; [lia|].
    destruct (lookup_lt_is_Some_2 buf e) as [x Hx]; [lia|].
    simpl. unfold ptr_pred at 1. simpl. unfold ret at 1. unfold bind at 1.
    replace (e + 1) with (S e) by lia.
    unfold ptr_pred at 1. simpl. unfold ret at 1. unfold bind at 1.
    rewrite (bind_Ret _ _ _ _ _
               (assigns_within g assign m l buf e (S e) x Ha Hl Hx
                  ltac:(lia) ltac:(lia))).
    set (buf1 := <[e := g x]> (<[S e := x]> buf)).
    set (m1 := Mem _ _).
    destruct (IH e m1 l buf1) as (buf' & Hrun & Hlen' & Hlo & Hmid & Hhi).
    + subst m1. simpl. by rewrite lookup_insert_eq.
    + lia.
    + subst buf1. rewrite !length_insert. lia.
    + exists buf'. replace (S e) with (e + 1) by lia.
      rewrite Hrun. subst m1 buf1. simpl.
      rewrite !length_insert in Hlen'.
      repeat split; try done.
      * by rewrite insert_insert_eq.
      * intros k Hk. rewrite Hlo by lia.
        by rewrite !list_lookup_insert_ne by lia.
      * intros k Hk. destruct (decide (k = S e)) as [->|Hke].
        -- rewrite Hhi by lia. rewrite list_lookup_insert_ne by lia.
           rewrite list_lookup_insert_eq by lia.
           replace (S e - 1) with e by lia. done.
        -- rewrite Hmid by lia. by rewrite !list_lookup_insert_ne by lia.
      * intros k Hk. rewrite Hhi by lia.
        by rewrite !list_lookup_insert_ne by lia.
Qed.


Lemma fill_loop_within n :
  ∀ i m l buf x,
    heap m !! l = Some buf → i + n ≤ length buf →
    ∃ buf',
      fill_loop n (Ptr (Some l) i) x m
      = Ret tt (Mem (<[l := buf']> (heap m)) (objs m))
      ∧ length buf' = length buf
      ∧ (∀ k, buf' !! k = if decide (i ≤ k < i + n) then Some x else buf !! k).
Proof.
  induction n as [|n IH]; intros i m l buf x Hl Hlen.
  - exists buf. simpl. unfold ret.
    rewrite (insert_id (heap m) l buf) by done.
    destruct m. repeat split; try done.
    intros k. by rewrite decide_False by lia.
  - simpl.
    rewrite (bind_Ret _ _ _ _ _
               (store_eq m l buf i x Hl ltac:(lia))).
    unfold ptr_add. simpl. set (m1 := Mem _ _).
    destruct (IH (i + 1) m1 l (<[i := x]> buf) x) as (buf' & Hrun & Hlen' & Hk).
    + subst m1. simpl. by rewrite lookup_insert_eq.
    + rewrite length_insert. lia.
    + exists buf'. rewrite Hrun. subst m1. simpl.
      rewrite length_insert in Hlen'. repeat split; try done.
      * by rewrite insert_insert_eq.
      * intros k. rewrite Hk. destruct (decide (k = i)) as [->|Hki].
        -- rewrite decide_False by lia. rewrite decide_True by lia.
           by rewrite list_lookup_insert_eq by lia.
        -- rewrite list_lookup_insert_ne by done.
           repeat case_decide; try done; lia.
Qed.

(** With [Type{}] as its argument, the filling loop of the constructor
    stores [Type{}] everywhere, like [fill_loop]. *)
Lemma fill_move_loop_default (dflt : T) n :
  ∀ it m,
    fill_move_loop dflt n it dflt m = (fill_loop n it dflt;; ret dflt) m.
Proof.
  induction n as [|n IH]; intros it m; [done|].
  simpl. unfold bind.
  destruct (store it dflt m) as [[] m1| |]; try done.
Qed.

End Loops.

(** ** Constructors and reallocation *)

Ltac solve_lookup :=
  cbn [arr_ size_ capacity_ heap objs];
  repeat match goal with
         | H : objs ?m = _ |- context [objs ?m] => rewrite H
         end;
  repeat first
    [ rewrite lookup_insert_eq
    | rewrite lookup_insert_ne by congruence
    | rewrite lookup_delete_ne by congruence ];
  first [eassumption | reflexivity].

Lemma bind_assoc {T A B C} (c : exec T A) (k1 : A → exec T B)
    (k2 : B → exec T C) m :
  bind (bind c k1) k2 m = bind c (λ x, bind (k1 x) k2) m.
Proof. unfold bind. by destruct (c m). Qed.

Lemma bind_ret_l {T A B} (a : A) (k : A → exec T B) m :
  bind (ret a) k m = k a m.
Proof. done. Qed.

Ltac mstep :=
  first
    [ rewrite bind_assoc
    | rewrite bind_ret_l
    | erewrite (bind_Ret (get _)) by (apply get_eq; solve_lookup)
    | erewrite (bind_Ret (put _ _)) by (eapply put_eq; solve_lookup)
    | erewrite (bind_Ret (set_arr _ _)) by (apply set_arr_eq; solve_lookup)
    | erewrite (bind_Ret (set_size _ _)) by (apply set_size_eq; solve_lookup)
    | erewrite (bind_Ret (set_capacity _ _))
        by (apply set_capacity_eq; solve_lookup)
    | erewrite get_eq by solve_lookup
    | erewrite put_eq by solve_lookup
    | erewrite set_arr_eq by solve_lookup
    | erewrite set_size_eq by solve_lookup
    | erewrite set_capacity_eq by solve_lookup ];
  cbn [arr_ size_ capacity_ heap objs].

Ltac map_pointwise :=
  apply map_eq; intros ?;
  repeat first [rewrite lookup_insert | rewrite lookup_delete];
  repeat case_decide; subst; try done; try congruence.

Section Ops.
Context {T : Type}.
Variable Type_default : T.
Variable moved_from : T → T.
Implicit Types (m : mem T) (p : ptr) (v : SimpleVector).

Lemma buffer_frame m m' q :
  (∀ l, q = Some l → heap m' !! l = heap m !! l) →
  buffer m' q = buffer m q.
Proof. destruct q as [l|]; simpl; [|done]. intros H. by apply H. Qed.

Lemma buffer_nonempty m q buf :
  buffer m q = Some buf → 0 < length buf → ∃ l, q = Some l ∧ heap m !! l = Some buf.
Proof.
  destruct q as [l|]; simpl; [eauto|].
  intros [= <-]. simpl. lia.
Qed.

Lemma forward_loop_range g assign n m ps pd src dst :
  assigns g assign →
  buffer m ps = Some src → buffer m pd = Some dst →
  n ≤ length src → n ≤ length dst → (0 < n → ps ≠ pd) →
  ∃ m',
    forward_loop assign n (Ptr ps 0) (Ptr pd 0) m = Ret (Ptr pd n) m'
    ∧ objs m' = objs m
    ∧ buffer m' ps = Some ((g <$> take n src) ++ drop n src)
    ∧ buffer m' pd = Some (take n src ++ drop n dst)
    ∧ (∀ l, ps ≠ Some l → pd ≠ Some l → heap m' !! l = heap m !! l).
Proof.
  intros Ha Hs Hd Hns Hnd Hne.
  destruct n as [|n].
  - exists m. simpl. rewrite !drop_0. done.
  - destruct (buffer_nonempty _ _ _ Hs) as (ls & -> & Hls); [lia|].
    destruct (buffer_nonempty _ _ _ Hd) as (ld & -> & Hld); [lia|].
    assert (ls ≠ ld) as Hneq by (intros ->; apply Hne; [lia|done]).
    destruct (forward_loop_blocks g assign (S n) Ha 0 0 m ls ld src dst)
      as (src' & dst' & Hrun & Hls' & Hld' & Hsrc & Hdst); try done.
    eexists. split; [exact Hrun|]. simpl.
    split; [done|]. split; [|split].
    + rewrite lookup_insert_ne by done. rewrite lookup_insert_eq.
      f_equal. apply list_eq. intros k. rewrite Hsrc.
      case_decide as Hk.
      * rewrite lookup_app_l by (rewrite length_fmap, length_take; lia).
        rewrite list_lookup_fmap. by rewrite lookup_take_lt by lia.
      * rewrite lookup_app_r by (rewrite length_fmap, length_take; lia).
        rewrite length_fmap, length_take, lookup_drop. f_equal. lia.
    + rewrite lookup_insert_eq. f_equal. apply list_eq. intros k. rewrite Hdst.
      case_decide as Hk.
      * rewrite lookup_app_l by (rewrite length_take; lia).
        rewrite lookup_take_lt by lia. f_equal. lia.
      * rewrite lookup_app_r by (rewrite length_take; lia).
        rewrite length_take, lookup_drop. f_equal. lia.
    + intros l H1 H2. rewrite !lookup_insert_ne by congruence. done.
Qed.

Lemma ArrayPtr_new_spec n m :
  ∃ q m',
    ArrayPtr_new Type_default n m = Ret q m'
    ∧ objs m' = objs m
    ∧ buffer m' q = Some (replicate n Type_default)
    ∧ allocates m m' q.
Proof.
  destruct n as [|n].
  - exists None, m. repeat split; done.
  - eexists (Some _), _. split; [reflexivity|]. simpl.
    split; [done|]. split; [by rewrite lookup_insert_eq|]. split.
    + intros l Hl. simpl. rewrite lookup_insert_ne by congruence. done.
    + intros l [= <-]. apply fresh_block.
Qed.

Lemma fill_loop_default_replicate n m q :
  buffer m q = Some (replicate n Type_default) →
  fill_loop n (Ptr q 0) Type_default m = Ret tt m.
Proof.
  intros Hq. destruct n as [|n]; [done|].
  destruct (buffer_nonempty _ _ _ Hq) as (l & -> & Hl);
    [rewrite length_replicate; lia|].
  destruct (fill_loop_within (S n) 0 m l _ Type_default Hl)
    as (buf' & Hrun & Hlen & Hk); [rewrite length_replicate; lia|].
  rewrite Hrun. f_equal. destruct m as [h o]. cbn [heap objs] in *. f_equal.
  apply insert_id. rewrite Hl. f_equal. apply list_eq. intros k.
  rewrite Hk. case_decide; [|done].
  apply lookup_replicate_2. lia.
Qed.

Lemma SimpleVector_sized_spec n m :
  ∃ q m',
    SimpleVector_sized Type_default n m = Ret (fresh (dom (objs m))) m'
    ∧ objs m' = <[fresh (dom (objs m)) := mkSimpleVector q n n]> (objs m)
    ∧ buffer m' q = Some (replicate n Type_default)
    ∧ allocates m m' q.
Proof.
  unfold SimpleVector_sized, SimpleVector_fill_move.
  unfold new_object at 1. unfold bind at 1.
  set (this := fresh (dom (objs m))). set (m0 := Mem _ _).
  destruct (ArrayPtr_new_spec n m0) as (q & m1 & Hnew & Hobjs & Hbuf & Halloc).
  rewrite (bind_Ret _ _ _ _ _ Hnew).
  assert (objs m1 !! this = Some (mkSimpleVector None 0 0)) as Hthis.
  { rewrite Hobjs. subst m0. simpl. by rewrite lookup_insert_eq. }
  rewrite (bind_Ret _ _ _ _ _ (put_eq _ _ _ _ Hthis)).
  set (m2 := Mem _ _).
  assert (buffer m2 q = Some (replicate n Type_default)) as Hbuf2 by done.
  unfold bind at 1. rewrite fill_move_loop_default.
  rewrite (bind_Ret _ _ _ _ _ (fill_loop_default_replicate n m2 q Hbuf2)).
  exists q, m2. split; [done|]. subst m2 m0. simpl in *.
  split; [|done]. rewrite Hobjs. by rewrite insert_insert_eq.
Qed.


Lemma swap_eq m this other a b :
  this ≠ other → objs m !! this = Some a → objs m !! other = Some b →
  swap this other m
  = Ret tt (Mem (heap m) (<[other := a]> (<[this := b]> (objs m)))).
Proof.
  intros Hne Ha Hb. unfold swap, ArrayPtr_swap.
  destruct a as [pa sa ca], b as [pb sb cb].
  repeat mstep. do 2 f_equal. map_pointwise.
Qed.

Lemma swap_rvalue_eq m this other a b :
  this ≠ other → objs m !! this = Some a → objs m !! other = Some b →
  swap_rvalue this other m
  = Ret tt (Mem (heap m)
              (<[other := mkSimpleVector (arr_ a) 0 (capacity_ a)]>
                 (<[this := b]> (objs m)))).
Proof.
  intros Hne Ha Hb. unfold swap_rvalue, Clear.
  rewrite (bind_Ret _ _ _ _ _ (swap_eq _ _ _ _ _ Hne Ha Hb)).
  repeat mstep. do 2 f_equal. map_pointwise.
Qed.

Lemma ArrayPtr_delete_eq m q buf :
  buffer m q = Some buf →
  ∃ m', ArrayPtr_delete q m = Ret tt m'
        ∧ objs m' = objs m
        ∧ (∀ l, q ≠ Some l → heap m' !! l = heap m !! l)
        ∧ (∀ l, q = Some l → heap m' !! l = None).
Proof.
  destruct q as [l|]; simpl.
  - intros Hl. unfold ArrayPtr_delete. rewrite Hl. eexists. split; [done|].
    simpl. repeat split.
    + intros l' Hl'. rewrite lookup_delete_ne by congruence. done.
    + intros l' [= <-]. apply lookup_delete_eq.
  - intros _. exists m. repeat split; done.
Qed.

Lemma ChangeCapacity_spec this n m v buf :
  objs m !! this = Some v → buffer m (arr_ v) = Some buf →
  size_ v ≤ length buf → size_ v ≤ n →
  ∃ q m',
    ChangeCapacity Type_default moved_from this n m = Ret tt m'
    ∧ objs m' = <[this := mkSimpleVector q (size_ v) n]> (objs m)
    ∧ buffer m' q
      = Some (take (size_ v) buf ++ replicate (n - size_ v) Type_default)
    ∧ (∀ l, arr_ v ≠ Some l → q ≠ Some l → heap m' !! l = heap m !! l)
    ∧ (∀ l, q = Some l → heap m !! l = None).
Proof.
  intros Hthis Hbuf Hsize Hn. unfold ChangeCapacity.
  destruct (SimpleVector_sized_spec n m)
    as (q & m1 & Hnew & Hobjs1 & Hbuf1 & Hframe1 & Hfresh1).
  set (r := fresh (dom (objs m))) in *.
  assert (r ≠ this) as Hr.
  { intros Heq. pose proof (fresh_object m) as Hf. fold r in Hf.
    rewrite Heq in Hf. congruence. }
  rewrite (bind_Ret _ _ _ _ _ Hnew).
  assert (objs m1 !! this = Some v) as Hthis1.
  { rewrite Hobjs1. by rewrite lookup_insert_ne. }
  assert (objs m1 !! r = Some (mkSimpleVector q n n)) as Hr1.
  { rewrite Hobjs1. by rewrite lookup_insert_eq. }
  assert (buffer m1 (arr_ v) = Some buf) as Hbufv1.
  { rewrite <- Hbuf. apply buffer_frame. intros l Hl. apply Hframe1.
    intros Hq. apply Hfresh1 in Hq. rewrite Hl in Hbuf. simpl in Hbuf.
    congruence. }
  assert (0 < size_ v → arr_ v ≠ q) as Hdistinct.
  { intros Hpos Heq.
    destruct (buffer_nonempty _ _ _ Hbuf) as (l & Hl & Hheap); [lia|].
    rewrite Heq in Hl. apply Hfresh1 in Hl. congruence. }
  unfold GetSize, begin, end_.
  repeat mstep.
  unfold std_move. rewrite !bind_assoc.
  rewrite (bind_Ret _ _ _ _ _ (distance_eq m1 (arr_ v) 0 (size_ v) ltac:(lia))).
  rewrite Nat.sub_0_r.
  destruct (forward_loop_range moved_from (move_assign moved_from) (size_ v)
              m1 (arr_ v) q buf (replicate n Type_default))
    as (m2 & Hrun2 & Hobjs2 & Hsrc2 & Hdst2 & Hframe2);
    [apply move_assign_assigns|done|done|done
    |by rewrite length_replicate|done|].
  rewrite (bind_Ret _ _ _ _ _ Hrun2).
  rewrite <- Hobjs2 in Hthis1, Hr1.
  rewrite (bind_Ret _ _ _ _ _
             (swap_rvalue_eq m2 this r _ _ ltac:(done) Hthis1 Hr1)).
  unfold destroy.
  repeat mstep.
  set (m3 := Mem _ _).
  destruct (ArrayPtr_delete_eq m3 (arr_ v) _ Hsrc2)
    as (m4 & Hrun4 & Hobjs4 & Hframe4 & Hgone4).
  rewrite (bind_Ret _ _ _ _ _ Hrun4).
  exists q. eexists. split; [reflexivity|]. cbn [heap objs].
  split; [|split; [|split]].
  - rewrite Hobjs4. subst m3. cbn [heap objs]. rewrite Hobjs2, Hobjs1.
    pose proof (fresh_object m) as Hf. fold r in Hf. map_pointwise.
  - rewrite drop_replicate in Hdst2. rewrite <- Hdst2.
    apply buffer_frame. intros l Hl. rewrite Hframe4; [done|].
    intros Hv. destruct (decide (0 < size_ v)) as [Hpos|Hz].
    + apply Hdistinct; [done|congruence].
    + apply Hfresh1 in Hl. rewrite Hv in Hbuf. simpl in Hbuf. congruence.
  - intros l Hv Hq. rewrite Hframe4 by done. subst m3. cbn [heap].
    rewrite Hframe2 by done. by apply Hframe1.
  - done.
Qed.

End Ops.

(** ** The mutators *)

Section Mutators.
Context {T : Type}.
Variable Type_default : T.
Variable moved_from : T → T.
Implicit Types (m : mem T) (p : ptr) (v : SimpleVector).

Lemma ptr_le_same q i j : ptr_le (Ptr q i) (Ptr q j) = (i <=? j).
Proof. unfold ptr_le. simpl. by rewrite bool_decide_eq_true_2. Qed.

Lemma ptr_lt_same q i j : ptr_lt (Ptr q i) (Ptr q j) = (i <? j).
Proof. unfold ptr_lt. simpl. by rewrite bool_decide_eq_true_2. Qed.

Lemma ptr_le_inv p q : ptr_le p q = true → base p = base q ∧ off p ≤ off q.
Proof.
  unfold ptr_le. intros [H1 H2]%andb_true_iff.
  apply bool_decide_eq_true in H1. apply Nat.leb_le in H2. done.
Qed.

Lemma ptr_lt_inv p q : ptr_lt p q = true → base p = base q ∧ off p < off q.
Proof.
  unfold ptr_lt. intros [H1 H2]%andb_true_iff.
  apply bool_decide_eq_true in H1. apply Nat.ltb_lt in H2. done.
Qed.

Lemma assert_true m : assert true m = Ret tt m.
Proof. done. Qed.

Lemma grow_if_full_spec this m v buf :
  objs m !! this = Some v → buffer m (arr_ v) = Some buf →
  length buf = capacity_ v → size_ v ≤ capacity_ v →
  fits (2 * size_ v) →
  ∃ q c buf' m',
    grow_if_full Type_default moved_from this m = Ret tt m'
    ∧ objs m' = <[this := mkSimpleVector q (size_ v) c]> (objs m)
    ∧ buffer m' q = Some buf'
    ∧ length buf' = c
    ∧ take (size_ v) buf' = take (size_ v) buf
    ∧ c = (if size_ v =? capacity_ v
           then if size_ v =? 0 then 1 else 2 * size_ v
           else capacity_ v)
    ∧ size_ v < c
    ∧ (∀ l, arr_ v ≠ Some l → q ≠ Some l → heap m' !! l = heap m !! l)
    ∧ (q = arr_ v ∨ ∀ l, q = Some l → heap m !! l = None).
Proof.
  intros Hthis Hbuf Hlen Hsize Hfits. unfold grow_if_full. mstep.
  rewrite size_t_mul_fits by done.
  destruct (size_ v =? capacity_ v) eqn:Hfull.
  - apply Nat.eqb_eq in Hfull.
    set (c := if size_ v =? 0 then 1 else 2 * size_ v).
    assert (size_ v < c) as Hc by (subst c; destruct (size_ v); simpl; lia).
    destruct (ChangeCapacity_spec Type_default moved_from this c m v buf)
      as (q & m' & Hrun & Hobjs & Hbuf' & Hframe & Hfresh);
      [done|done|lia|lia|].
    exists q, c, (take (size_ v) buf ++ replicate (c - size_ v) Type_default), m'.
    split.
    { subst c. destruct (size_ v =? 0); simpl; exact Hrun. }
    repeat split; try done.
    + rewrite length_app, length_take, length_replicate. lia.
    + rewrite take_app_le by (rewrite length_take; lia).
      rewrite take_take. f_equal. lia.
    + by right.
  - apply Nat.eqb_neq in Hfull.
    exists (arr_ v), (capacity_ v), buf, m.
    repeat split; try done.
    + destruct v. simpl. symmetry. by apply insert_id.
    + lia.
    + by left.
Qed.


Lemma store_buffer m q buf i x :
  buffer m q = Some buf → i < length buf →
  ∃ m',
    store (Ptr q i) x m = Ret tt m'
    ∧ objs m' = objs m
    ∧ buffer m' q = Some (<[i := x]> buf)
    ∧ (∀ l, q ≠ Some l → heap m' !! l = heap m !! l).
Proof.
  intros Hbuf Hi.
  destruct (buffer_nonempty _ _ _ Hbuf) as (l & -> & Hl); [lia|].
  eexists. split; [by apply store_eq|]. simpl.
  split; [done|]. split; [by rewrite lookup_insert_eq|].
  intros l' Hl'. rewrite lookup_insert_ne by congruence. done.
Qed.

Lemma take_insert_snoc (l : list T) n x :
  n < length l → take (n + 1) (<[n := x]> l) = take n l ++ [x].
Proof.
  intros Hn. apply list_eq. intros k.
  destruct (decide (k < n)) as [Hk|Hk].
  - rewrite lookup_take_lt by lia. rewrite list_lookup_insert_ne by lia.
    rewrite lookup_app_l by (rewrite length_take; lia).
    by rewrite lookup_take_lt by lia.
  - rewrite lookup_app_r by (rewrite length_take; lia).
    rewrite length_take. replace (n `min` length l) with n by lia.
    destruct (decide (k = n)) as [->|Hkn].
    + rewrite lookup_take_lt by lia. rewrite list_lookup_insert_eq by lia.
      by replace (n - n) with 0 by lia.
    + rewrite lookup_take_ge by lia.
      destruct (k - n) as [|j] eqn:E; [lia|done].
Qed.

(** *** Reference arguments *)

Lemma load_inv m p x m' :
  load p m = Ret x m' →
  m' = m
  ∧ ∃ l buf, base p = Some l ∧ heap m !! l = Some buf
             ∧ buf !! off p = Some x.
Proof.
  unfold load. destruct (base p) as [l|] eqn:El; [|done].
  destruct (heap m !! l) as [buf|] eqn:Eb; [|done].
  destruct (buf !! off p) as [y|] eqn:E; [|done].
  intros [= <- <-]. split; [done|]. by exists l, buf.
Qed.

Lemma load_frame m m' p x :
  load p m = Ret x m →
  (∀ l, base p = Some l → heap m' !! l = heap m !! l) →
  load p m' = Ret x m'.
Proof.
  intros (_ & l & buf & Hl & Hheap & Hx)%load_inv Hframe.
  unfold load. rewrite Hl, (Hframe l Hl), Hheap, Hx. done.
Qed.

(** A reference that does not point into the block [q] stays readable
    when the vector moves from [q] to a block [q'] that did not exist. *)
Lemma readable_after_growth m m' (q q' : option loc) p x :
  load p m = Ret x m → base p ≠ q →
  (∀ l, q ≠ Some l → q' ≠ Some l → heap m' !! l = heap m !! l) →
  (q' = q ∨ ∀ l, q' = Some l → heap m !! l = None) →
  load p m' = Ret x m' ∧ base p ≠ q'.
Proof.
  intros Hload Hout Hframe Hfresh.
  pose proof Hload as (_ & l & buf & Hl & Hheap & Hx)%load_inv.
  assert (base p ≠ q') as Hout'.
  { destruct Hfresh as [->|Hfresh]; [done|]. intros Heq.
    rewrite Hl in Heq. symmetry in Heq. apply Hfresh in Heq. congruence. }
  split; [|done]. apply load_frame with m; [done|].
  intros l' Hl'. apply Hframe; congruence.
Qed.

Lemma readable_after_growth_all m m' (q q' : option loc) items xs :
  Forall2 (λ p x, load p m = Ret x m ∧ base p ≠ q) items xs →
  (∀ l, q ≠ Some l → q' ≠ Some l → heap m' !! l = heap m !! l) →
  (q' = q ∨ ∀ l, q' = Some l → heap m !! l = None) →
  Forall2 (λ p x, load p m' = Ret x m' ∧ base p ≠ q') items xs.
Proof.
  intros Hall Hframe Hfresh. eapply Forall2_impl; [exact Hall|].
  intros p x [Hload Hout]. by eapply readable_after_growth.
Qed.

(** [*d = *s], and [*d = std::move( *s)], into the slot [i] of the block
    [q] from an object outside that block. *)
Lemma assign_into g assign m q buf i p x :
  assigns g assign →
  buffer m q = Some buf → i < length buf →
  load p m = Ret x m → base p ≠ q →
  ∃ m',
    assign (Ptr q i) p m = Ret tt m'
    ∧ objs m' = objs m
    ∧ buffer m' q = Some (<[i := x]> buf)
    ∧ load p m' = Ret (g x) m'
    ∧ (∀ l, q ≠ Some l → base p ≠ Some l → heap m' !! l = heap m !! l).
Proof.
  intros Ha Hbuf Hi (_ & ls & src & Hls & Hsrc & Hx)%load_inv Hout.
  destruct (buffer_nonempty _ _ _ Hbuf) as (ld & -> & Hdst); [lia|].
  destruct p as [pb j]. cbn [base off] in *. subst pb.
  assert (ls ≠ ld) as Hne by congruence.
  rewrite (assigns_blocks g assign m ls ld src buf j i x) by done.
  eexists. split; [reflexivity|]. cbn [heap objs]. split; [done|].
  split; [cbn [buffer heap];
          by rewrite lookup_insert_ne, lookup_insert_eq|]. split.
  - apply load_eq with (<[j := g x]> src);
      [cbn [heap]; by rewrite lookup_insert_eq|].
    apply list_lookup_insert_eq. by apply lookup_lt_Some in Hx.
  - intros l H1 H2. rewrite !lookup_insert_ne by congruence. done.
Qed.

(** A store through a readable reference that does not point into the
    block [q]. *)
Lemma store_outside m (q : option loc) p x y :
  load p m = Ret x m → base p ≠ q →
  ∃ m',
    store p y m = Ret tt m'
    ∧ objs m' = objs m
    ∧ buffer m' q = buffer m q
    ∧ load p m' = Ret y m'
    ∧ (∀ l, base p ≠ Some l → heap m' !! l = heap m !! l).
Proof.
  intros (_ & l & buf & Hl & Hheap & Hx)%load_inv Hout.
  destruct p as [pb j]. cbn [base off] in *. subst pb.
  rewrite (store_eq m l buf j y) by (by apply lookup_lt_Some in Hx || done).
  eexists. split; [reflexivity|]. cbn [heap objs]. split; [done|]. split.
  { apply buffer_frame. intros l' ->. cbn [heap].
    apply lookup_insert_ne. congruence. }
  split.
  - apply load_eq with (<[j := y]> buf);
      [cbn [heap]; by rewrite lookup_insert_eq|].
    apply list_lookup_insert_eq. by apply lookup_lt_Some in Hx.
  - intros l' Hl'. rewrite lookup_insert_ne by congruence. done.
Qed.

Lemma load_objs m p x (o : gmap ref SimpleVector) :
  load p m = Ret x m → load p (Mem (heap m) o) = Ret x (Mem (heap m) o).
Proof.
  intros (_ & l & buf & Hl & Hheap & Hx)%load_inv.
  unfold load. cbn [heap]. by rewrite Hl, Hheap, Hx.
Qed.

(** *** PushBack *)

Lemma grow_if_full_with_room this m v :
  objs m !! this = Some v → size_ v ≠ capacity_ v →
  grow_if_full Type_default moved_from this m = Ret tt m.
Proof.
  intros Hthis Hne. unfold grow_if_full. mstep.
  by apply Nat.eqb_neq in Hne as ->.
Qed.

Lemma PushBack_spec this item x m v buf :
  objs m !! this = Some v → buffer m (arr_ v) = Some buf →
  length buf = capacity_ v → size_ v ≤ capacity_ v →
  fits (2 * size_ v) →
  load item m = Ret x m → base item ≠ arr_ v →
  ∃ q c buf' m',
    PushBack Type_default moved_from this item m = Ret tt m'
    ∧ objs m' = <[this := mkSimpleVector q (size_ v + 1) c]> (objs m)
    ∧ buffer m' q = Some buf'
    ∧ length buf' = c
    ∧ take (size_ v + 1) buf' = take (size_ v) buf ++ [x]
    ∧ c = (if size_ v =? capacity_ v
           then if size_ v =? 0 then 1 else 2 * size_ v
           else capacity_ v)
    ∧ (∀ l, arr_ v ≠ Some l → q ≠ Some l → heap m' !! l = heap m !! l)
    ∧ (q = arr_ v ∨ ∀ l, q = Some l → heap m !! l = None).
Proof.
  intros Hthis Hbuf Hlen Hsize Hfits Hload Hout.
  destruct (grow_if_full_spec this m v buf Hthis Hbuf Hlen Hsize Hfits)
    as (q & c & buf1 & m1 & Hrun1 & Hobjs1 & Hbuf1 & Hlen1 & Htake1 & Hc
        & Hlt & Hframe1 & Hfresh1).
  destruct (readable_after_growth m m1 (arr_ v) q item x Hload Hout Hframe1
              Hfresh1) as [Hload1 Hout1].
  unfold PushBack, copy_assign.
  rewrite (bind_Ret _ _ _ _ _ Hrun1).
  mstep. rewrite size_t_succ_fits by (by apply fits_succ_of_double).
  rewrite bind_assoc, (bind_Ret _ _ _ _ _ Hload1).
  destruct (store_buffer m1 q buf1 (size_ v) x Hbuf1 ltac:(lia))
    as (m2 & Hrun2 & Hobjs2 & Hbuf2 & Hframe2).
  rewrite (bind_Ret _ _ _ _ _ Hrun2).
  mstep.
  exists q, c, (<[size_ v := x]> buf1). eexists. split; [reflexivity|].
  cbn [heap objs]. repeat split; try done.
  - rewrite Hobjs2, Hobjs1. by rewrite insert_insert_eq.
  - by rewrite length_insert.
  - rewrite take_insert_snoc by lia. by rewrite Htake1.
  - intros l Hv Hq. rewrite Hframe2 by done. by apply Hframe1.
Qed.

Lemma PushBack_move_spec this item x m v buf :
  objs m !! this = Some v → buffer m (arr_ v) = Some buf →
  length buf = capacity_ v → size_ v ≤ capacity_ v →
  fits (2 * size_ v) →
  load item m = Ret x m → base item ≠ arr_ v →
  ∃ q c buf' m',
    PushBack_move Type_default moved_from this item m = Ret tt m'
    ∧ objs m' = <[this := mkSimpleVector q (size_ v + 1) c]> (objs m)
    ∧ buffer m' q = Some buf'
    ∧ length buf' = c
    ∧ take (size_ v + 1) buf' = take (size_ v) buf ++ [x]
    ∧ c = (if size_ v =? capacity_ v
           then if size_ v =? 0 then 1 else 2 * size_ v
           else capacity_ v)
    ∧ load item m' = Ret Type_default m'
    ∧ (∀ l, arr_ v ≠ Some l → q ≠ Some l → base item ≠ Some l →
            heap m' !! l = heap m !! l)
    ∧ (q = arr_ v ∨ ∀ l, q = Some l → heap m !! l = None)
    ∧ (size_ v ≠ capacity_ v → q = arr_ v).
Proof.
  intros Hthis Hbuf Hlen Hsize Hfits Hload Hout.
  destruct (grow_if_full_spec this m v buf Hthis Hbuf Hlen Hsize Hfits)
    as (q & c & buf1 & m1 & Hrun1 & Hobjs1 & Hbuf1 & Hlen1 & Htake1 & Hc
        & Hlt & Hframe1 & Hfresh1).
  destruct (readable_after_growth m m1 (arr_ v) q item x Hload Hout Hframe1
              Hfresh1) as [Hload1 Hout1].
  assert (size_ v ≠ capacity_ v → q = arr_ v) as Hsame.
  { intros Hne.
    rewrite (grow_if_full_with_room this m v Hthis Hne) in Hrun1.
    injection Hrun1 as <-.
    assert (objs m !! this = objs m !! this) as H by done.
    rewrite Hobjs1 in H at 1. rewrite lookup_insert_eq, Hthis in H.
    injection H as <-. done. }
  unfold PushBack_move.
  rewrite (bind_Ret _ _ _ _ _ Hrun1).
  mstep. rewrite size_t_succ_fits by (by apply fits_succ_of_double).
  destruct (assign_into moved_from (move_assign moved_from) m1 q buf1
              (size_ v) item x (move_assign_assigns moved_from) Hbuf1
              ltac:(lia) Hload1 Hout1)
    as (m2 & Hrun2 & Hobjs2 & Hbuf2 & Hload2 & Hframe2).
  rewrite (bind_Ret _ _ _ _ _ Hrun2).
  destruct (store_outside m2 q item _ Type_default Hload2 Hout1)
    as (m3 & Hrun3 & Hobjs3 & Hbuf3 & Hload3 & Hframe3).
  rewrite (bind_Ret _ _ _ _ _ Hrun3).
  mstep.
  exists q, c, (<[size_ v := x]> buf1). eexists. split; [reflexivity|].
  cbn [heap objs]. split; [|split; [|split; [|split; [|split; [|split]]]]].
  - rewrite Hobjs3, Hobjs2, Hobjs1. by rewrite insert_insert_eq.
  - rewrite <- Hbuf2, <- Hbuf3. by apply buffer_frame.
  - by rewrite length_insert.
  - rewrite take_insert_snoc by lia. by rewrite Htake1.
  - done.
  - by apply load_objs.
  - split; [|done]. intros l Hv Hq Hp. cbn [heap].
    rewrite Hframe3, Hframe2 by done. by apply Hframe1.
Qed.

(** A reference to an object that exists stays readable when a block is
    allocated, and does not point into the new block. *)
Lemma readable_after_allocation m m' (q : option loc) p x :
  load p m = Ret x m → allocates m m' q →
  load p m' = Ret x m' ∧ base p ≠ q.
Proof.
  intros Hload [Hframe Hfresh].
  apply (readable_after_growth m m' None q p x Hload).
  - apply load_inv in Hload as (_ & l & buf & -> & _). done.
  - intros l _ Hl. by apply Hframe.
  - by right.
Qed.

Lemma backward_loop_buffer g assign n e m q buf :
  assigns g assign →
  buffer m q = Some buf → n ≤ e → e < length buf →
  ∃ buf' m',
    backward_loop assign n (Ptr q e) (Ptr q (e + 1)) m
    = Ret (Ptr q (e + 1 - n)) m'
    ∧ objs m' = objs m
    ∧ buffer m' q = Some buf'
    ∧ length buf' = length buf
    ∧ (∀ k, k < e - n → buf' !! k = buf !! k)
    ∧ (∀ k, e - n < k ≤ e → buf' !! k = buf !! (k - 1))
    ∧ (∀ l, q ≠ Some l → heap m' !! l = heap m !! l).
Proof.
  intros Ha Hbuf Hn He.
  destruct (buffer_nonempty _ _ _ Hbuf) as (l & -> & Hl); [lia|].
  destruct (backward_loop_shift_right g assign n Ha e m l buf Hl Hn He)
    as (buf' & Hrun & Hlen & Hlo & Hmid & _).
  exists buf'. eexists. split; [exact Hrun|]. simpl.
  repeat split; try done.
  - by rewrite lookup_insert_eq.
  - intros l' Hl'. rewrite lookup_insert_ne by congruence. done.
Qed.

Lemma forward_loop_buffer g assign n i m q buf :
  assigns g assign →
  buffer m q = Some buf → i + 1 + n ≤ length buf →
  ∃ buf' m',
    forward_loop assign n (Ptr q (i + 1)) (Ptr q i) m = Ret (Ptr q (i + n)) m'
    ∧ objs m' = objs m
    ∧ buffer m' q = Some buf'
    ∧ length buf' = length buf
    ∧ (∀ k, k < i → buf' !! k = buf !! k)
    ∧ (∀ k, i ≤ k < i + n → buf' !! k = buf !! (k + 1))
    ∧ (∀ l, q ≠ Some l → heap m' !! l = heap m !! l).
Proof.
  intros Ha Hbuf Hn.
  destruct (buffer_nonempty _ _ _ Hbuf) as (l & -> & Hl); [lia|].
  destruct (forward_loop_shift_left g assign n Ha i m l buf Hl Hn)
    as (buf' & Hrun & Hlen & Hlo & Hmid & _).
  exists buf'. eexists. split; [exact Hrun|]. simpl.
  repeat split; try done.
  - by rewrite lookup_insert_eq.
  - intros l' Hl'. rewrite lookup_insert_ne by congruence. done.
Qed.

(** The live elements after the shift toward the end and the write at
    [i]. *)
Lemma shifted_right_insert (buf buf' : list T) size i x :
  i ≤ size → size < length buf' → size ≤ length buf →
  (∀ k, k < i → buf' !! k = buf !! k) →
  (∀ k, i < k ≤ size → buf' !! k = buf !! (k - 1)) →
  take (size + 1) (<[i := x]> buf')
  = take i (take size buf) ++ x :: drop i (take size buf).
Proof.
  intros Hi Hsize Hlen Hlo Hhi. apply list_eq. intros k.
  assert (length (take i (take size buf)) = i) as Hli
    by (rewrite !length_take; lia).
  destruct (decide (k < i)) as [Hk|Hk].
  - rewrite lookup_take_lt by lia. rewrite list_lookup_insert_ne by lia.
    rewrite lookup_app_l by lia. rewrite !lookup_take_lt by lia.
    by apply Hlo.
  - rewrite lookup_app_r by lia. rewrite Hli.
    destruct (decide (k = i)) as [->|Hki].
    + rewrite lookup_take_lt by lia. rewrite list_lookup_insert_eq by lia.
      by replace (i - i) with 0 by lia.
    + destruct (k - i) as [|j] eqn:E; [lia|]. simpl. rewrite lookup_drop.
      destruct (decide (k ≤ size)) as [Hks|Hks].
      * rewrite lookup_take_lt by lia. rewrite list_lookup_insert_ne by lia.
        rewrite Hhi by lia. rewrite lookup_take_lt by lia. f_equal. lia.
      * rewrite lookup_take_ge by lia. by rewrite lookup_take_ge by lia.
Qed.

(** The live elements after the shift toward the beginning. *)
Lemma shifted_left_take (buf buf' : list T) size i :
  i < size → size ≤ length buf → length buf' = length buf →
  (∀ k, k < i → buf' !! k = buf !! k) →
  (∀ k, i ≤ k < size - 1 → buf' !! k = buf !! (k + 1)) →
  take (size - 1) buf'
  = take i (take size buf) ++ drop (S i) (take size buf).
Proof.
  intros Hi Hsize Hlen Hlo Hhi. apply list_eq. intros k.
  assert (length (take i (take size buf)) = i) as Hli
    by (rewrite !length_take; lia).
  destruct (decide (k < i)) as [Hk|Hk].
  - rewrite lookup_take_lt by lia.
    rewrite lookup_app_l by lia. rewrite !lookup_take_lt by lia.
    by apply Hlo.
  - rewrite lookup_app_r by lia. rewrite Hli. rewrite lookup_drop.
    destruct (decide (k < size - 1)) as [Hks|Hks].
    + rewrite !lookup_take_lt by lia. rewrite Hhi by lia. f_equal. lia.
    + rewrite lookup_take_ge by lia. by rewrite lookup_take_ge by lia.
Qed.


Lemma Insert_spec this pos value x m v buf :
  objs m !! this = Some v → buffer m (arr_ v) = Some buf →
  length buf = capacity_ v → size_ v ≤ capacity_ v →
  fits (2 * size_ v) →
  base pos = arr_ v → off pos ≤ size_ v →
  load value m = Ret x m → base value ≠ arr_ v →
  ∃ q c buf' m',
    Insert Type_default moved_from this pos value m
    = Ret (Ptr q (off pos)) m'
    ∧ objs m' = <[this := mkSimpleVector q (size_ v + 1) c]> (objs m)
    ∧ buffer m' q = Some buf'
    ∧ length buf' = c
    ∧ take (size_ v + 1) buf'
      = take (off pos) (take (size_ v) buf)
        ++ x :: drop (off pos) (take (size_ v) buf)
    ∧ c = (if size_ v =? capacity_ v
           then if size_ v =? 0 then 1 else 2 * size_ v
           else capacity_ v)
    ∧ (∀ l, arr_ v ≠ Some l → q ≠ Some l → heap m' !! l = heap m !! l)
    ∧ (q = arr_ v ∨ ∀ l, q = Some l → heap m !! l = None).
Proof.
  intros Hthis Hbuf Hlen Hsize Hfits Hbase Hoff Hload Hout.
  destruct pos as [pb i]. simpl in Hbase, Hoff. subst pb. cbn [off].
  unfold Insert, cbegin, begin, end_, std_copy_backward.
  repeat mstep.
  rewrite !ptr_le_same.
  replace ((0 <=? i) && (i <=? size_ v)) with true
    by (symmetry; apply andb_true_iff; split; apply Nat.leb_le; lia).
  rewrite (bind_Ret _ _ _ _ _ (assert_true m)). repeat mstep.
  rewrite (bind_Ret _ _ _ _ _ (distance_eq m (arr_ v) 0 i ltac:(lia))).
  rewrite Nat.sub_0_r.
  destruct (grow_if_full_spec this m v buf Hthis Hbuf Hlen Hsize Hfits)
    as (q & c & buf1 & m1 & Hrun1 & Hobjs1 & Hbuf1 & Hlen1 & Htake1 & Hc
        & Hlt & Hframe1 & Hfresh1).
  destruct (readable_after_growth m m1 (arr_ v) q value x Hload Hout Hframe1
              Hfresh1) as [Hload1 Hout1].
  rewrite (bind_Ret _ _ _ _ _ Hrun1).
  repeat mstep. unfold ptr_add. cbn [base off]. rewrite ?bind_assoc.
  rewrite ?Nat.add_0_l.
  rewrite (bind_Ret _ _ _ _ _ (distance_eq m1 q i (size_ v) ltac:(lia))).
  destruct (backward_loop_buffer id copy_assign (size_ v - i) (size_ v)
              m1 q buf1 copy_assign_assigns Hbuf1 ltac:(lia) ltac:(lia))
    as (buf2 & m2 & Hrun2 & Hobjs2 & Hbuf2 & Hlen2 & Hlo2 & Hhi2 & Hframe2).
  rewrite (bind_Ret _ _ _ _ _ Hrun2).
  assert (load value m2 = Ret x m2) as Hload2.
  { apply load_frame with m1; [done|]. intros l Hl. apply Hframe2.
    congruence. }
  mstep. unfold copy_assign.
  rewrite bind_assoc, (bind_Ret _ _ _ _ _ Hload2).
  destruct (store_buffer m2 q buf2 i x Hbuf2 ltac:(lia))
    as (m3 & Hrun3 & Hobjs3 & Hbuf3 & Hframe3).
  rewrite (bind_Ret _ _ _ _ _ Hrun3).
  rewrite size_t_succ_fits by (by apply fits_succ_of_double).
  repeat mstep.
  exists q, c, (<[i := x]> buf2). eexists. split; [reflexivity|].
  cbn [heap objs]. repeat split; try done.
  - rewrite Hobjs3, Hobjs2, Hobjs1. by rewrite insert_insert_eq.
  - rewrite length_insert. lia.
  - apply shifted_right_insert; try lia.
    + intros k Hk. rewrite Hlo2 by lia.
      rewrite <- (lookup_take_lt buf1 (size_ v)) by lia. rewrite Htake1.
      by rewrite lookup_take_lt by lia.
    + intros k Hk. rewrite Hhi2 by lia.
      rewrite <- (lookup_take_lt buf1 (size_ v)) by lia. rewrite Htake1.
      by rewrite lookup_take_lt by lia.
  - intros l Hv Hq. rewrite Hframe3, Hframe2 by done. by apply Hframe1.
Qed.

Lemma Insert_move_spec this pos value x m v buf :
  objs m !! this = Some v → buffer m (arr_ v) = Some buf →
  length buf = capacity_ v → size_ v ≤ capacity_ v →
  fits (2 * size_ v) →
  base pos = arr_ v → off pos ≤ size_ v →
  load value m = Ret x m → base value ≠ arr_ v →
  ∃ q c buf' m',
    Insert_move Type_default moved_from this pos value m
    = Ret (Ptr q (off pos)) m'
    ∧ objs m' = <[this := mkSimpleVector q (size_ v + 1) c]> (objs m)
    ∧ buffer m' q = Some buf'
    ∧ length buf' = c
    ∧ take (size_ v + 1) buf'
      = take (off pos) (take (size_ v) buf)
        ++ x :: drop (off pos) (take (size_ v) buf)
    ∧ c = (if size_ v =? capacity_ v
           then if size_ v =? 0 then 1 else 2 * size_ v
           else capacity_ v)
    ∧ load value m' = Ret Type_default m'
    ∧ (∀ l, arr_ v ≠ Some l → q ≠ Some l → base value ≠ Some l →
            heap m' !! l = heap m !! l)
    ∧ (q = arr_ v ∨ ∀ l, q = Some l → heap m !! l = None).
Proof.
  intros Hthis Hbuf Hlen Hsize Hfits Hbase Hoff Hload Hout.
  destruct pos as [pb i]. simpl in Hbase, Hoff. subst pb. cbn [off].
  unfold Insert_move, cbegin, begin, end_, std_move_backward.
  repeat mstep.
  rewrite !ptr_le_same.
  replace ((0 <=? i) && (i <=? size_ v)) with true
    by (symmetry; apply andb_true_iff; split; apply Nat.leb_le; lia).
  rewrite (bind_Ret _ _ _ _ _ (assert_true m)). repeat mstep.
  rewrite (bind_Ret _ _ _ _ _ (distance_eq m (arr_ v) 0 i ltac:(lia))).
  rewrite Nat.sub_0_r.
  destruct (grow_if_full_spec this m v buf Hthis Hbuf Hlen Hsize Hfits)
    as (q & c & buf1 & m1 & Hrun1 & Hobjs1 & Hbuf1 & Hlen1 & Htake1 & Hc
        & Hlt & Hframe1 & Hfresh1).
  destruct (readable_after_growth m m1 (arr_ v) q value x Hload Hout Hframe1
              Hfresh1) as [Hload1 Hout1].
  rewrite (bind_Ret _ _ _ _ _ Hrun1).
  repeat mstep. unfold ptr_add. cbn [base off]. rewrite ?bind_assoc.
  rewrite ?Nat.add_0_l.
  rewrite (bind_Ret _ _ _ _ _ (distance_eq m1 q i (size_ v) ltac:(lia))).
  destruct (backward_loop_buffer moved_from (move_assign moved_from)
              (size_ v - i) (size_ v) m1 q buf1
              (move_assign_assigns moved_from) Hbuf1 ltac:(lia) ltac:(lia))
    as (buf2 & m2 & Hrun2 & Hobjs2 & Hbuf2 & Hlen2 & Hlo2 & Hhi2 & Hframe2).
  rewrite (bind_Ret _ _ _ _ _ Hrun2).
  assert (load value m2 = Ret x m2) as Hload2.
  { apply load_frame with m1; [done|]. intros l Hl. apply Hframe2.
    congruence. }
  mstep.
  destruct (assign_into moved_from (move_assign moved_from) m2 q buf2
              i value x (move_assign_assigns moved_from) Hbuf2
              ltac:(lia) Hload2 Hout1)
    as (m3 & Hrun3 & Hobjs3 & Hbuf3 & Hload3 & Hframe3).
  rewrite (bind_Ret _ _ _ _ _ Hrun3).
  rewrite size_t_succ_fits by (by apply fits_succ_of_double).
  mstep.
  pose proof (load_objs m3 value _
                (<[this := mkSimpleVector q (size_ v + 1) c]> (objs m3))
                Hload3) as Hload4.
  destruct (store_outside _ q value _ Type_default Hload4 Hout1)
    as (m5 & Hrun5 & Hobjs5 & Hbuf5 & Hload5 & Hframe5).
  cbn [heap objs] in Hobjs5, Hframe5.
  rewrite (bind_Ret _ _ _ _ _ Hrun5).
  exists q, c, (<[i := x]> buf2), m5. split.
  { unfold bind at 1. unfold bind at 1. unfold get.
    rewrite Hobjs5, lookup_insert_eq. unfold ret. cbn [arr_ base off].
    by rewrite Nat.add_0_l. }
  split; [|split; [|split; [|split; [|split; [|split; [|split]]]]]].
  - rewrite Hobjs5, Hobjs3, Hobjs2, Hobjs1. by rewrite insert_insert_eq.
  - rewrite Hbuf5. rewrite <- Hbuf3. by apply buffer_frame.
  - rewrite length_insert. lia.
  - apply shifted_right_insert; try lia.
    + intros k Hk. rewrite Hlo2 by lia.
      rewrite <- (lookup_take_lt buf1 (size_ v)) by lia. rewrite Htake1.
      by rewrite lookup_take_lt by lia.
    + intros k Hk. rewrite Hhi2 by lia.
      rewrite <- (lookup_take_lt buf1 (size_ v)) by lia. rewrite Htake1.
      by rewrite lookup_take_lt by lia.
  - done.
  - done.
  - intros l Hv Hq Hp. rewrite Hframe5, Hframe3, Hframe2 by done.
    by apply Hframe1.
  - done.
Qed.


Lemma Erase_spec this pos m v buf :
  objs m !! this = Some v → buffer m (arr_ v) = Some buf →
  size_ v ≤ length buf → fits (size_ v) →
  base pos = arr_ v → off pos < size_ v →
  ∃ buf' m',
    Erase moved_from this pos m = Ret pos m'
    ∧ objs m'
      = <[this := mkSimpleVector (arr_ v) (size_ v - 1) (capacity_ v)]> (objs m)
    ∧ buffer m' (arr_ v) = Some buf'
    ∧ length buf' = length buf
    ∧ take (size_ v - 1) buf'
      = take (off pos) (take (size_ v) buf)
        ++ drop (S (off pos)) (take (size_ v) buf)
    ∧ (∀ l, arr_ v ≠ Some l → heap m' !! l = heap m !! l).
Proof.
  intros Hthis Hbuf Hsize Hfits Hbase Hoff.
  destruct pos as [pb i]. simpl in Hbase, Hoff. subst pb. cbn [off].
  unfold Erase, cbegin, begin, end_, std_move.
  repeat mstep.
  rewrite ptr_le_same, ptr_lt_same.
  replace ((0 <=? i) && (i <? size_ v)) with true
    by (symmetry; apply andb_true_iff; split;
        [apply Nat.leb_le|apply Nat.ltb_lt]; lia).
  rewrite (bind_Ret _ _ _ _ _ (assert_true m)). repeat mstep.
  rewrite (bind_Ret _ _ _ _ _ (distance_eq m (arr_ v) 0 i ltac:(lia))).
  rewrite Nat.sub_0_r.
  repeat mstep. unfold ptr_add. cbn [base off]. rewrite ?bind_assoc.
  rewrite ?Nat.add_0_l.
  rewrite (bind_Ret _ _ _ _ _
             (distance_eq m (arr_ v) (i + 1) (size_ v) ltac:(lia))).
  destruct (forward_loop_buffer moved_from (move_assign moved_from)
              (size_ v - (i + 1)) i m (arr_ v) buf
              (move_assign_assigns moved_from) Hbuf ltac:(lia))
    as (buf2 & m2 & Hrun2 & Hobjs2 & Hbuf2 & Hlen2 & Hlo2 & Hhi2 & Hframe2).
  rewrite (bind_Ret _ _ _ _ _ Hrun2).
  mstep. rewrite size_t_pred_fits by (done || lia).
  repeat mstep.
  exists buf2. eexists. split; [reflexivity|].
  cbn [heap objs]. repeat split; try done.
  - by rewrite Hobjs2.
  - apply shifted_left_take; try lia; try done.
    intros k Hk. apply Hhi2. lia.
Qed.


Lemma fill_loop_buffer n i m q buf x :
  buffer m q = Some buf → i + n ≤ length buf →
  ∃ buf' m',
    fill_loop n (Ptr q i) x m = Ret tt m'
    ∧ objs m' = objs m
    ∧ buffer m' q = Some buf'
    ∧ length buf' = length buf
    ∧ (∀ k, buf' !! k = if decide (i ≤ k < i + n) then Some x else buf !! k)
    ∧ (∀ l, q ≠ Some l → heap m' !! l = heap m !! l).
Proof.
  intros Hbuf Hn. destruct n as [|n].
  - exists buf, m. repeat split; try done.
    intros k. by rewrite decide_False by lia.
  - destruct (buffer_nonempty _ _ _ Hbuf) as (l & -> & Hl); [lia|].
    destruct (fill_loop_within (S n) i m l buf x Hl Hn)
      as (buf' & Hrun & Hlen & Hk).
    exists buf'. eexists. split; [exact Hrun|]. simpl.
    repeat split; try done.
    + by rewrite lookup_insert_eq.
    + intros l' Hl'. rewrite lookup_insert_ne by congruence. done.
Qed.

Lemma Resize_spec this n m v buf :
  objs m !! this = Some v → buffer m (arr_ v) = Some buf →
  length buf = capacity_ v → size_ v ≤ capacity_ v →
  ∃ q c buf' m',
    Resize Type_default moved_from this n m = Ret tt m'
    ∧ objs m' = <[this := mkSimpleVector q n c]> (objs m)
    ∧ buffer m' q = Some buf'
    ∧ length buf' = c
    ∧ (n ≤ size_ v → q = arr_ v ∧ c = capacity_ v ∧ buf' = buf)
    ∧ (size_ v < n → n ≤ capacity_ v → q = arr_ v ∧ c = capacity_ v)
    ∧ (capacity_ v < n → c = n)
    ∧ take (size_ v) buf' = take (size_ v) buf
    ∧ (∀ k, size_ v ≤ k < n → buf' !! k = Some Type_default).
Proof.
  intros Hthis Hbuf Hlen Hsize. unfold Resize. mstep.
  destruct (n <=? size_ v) eqn:Hshrink.
  { apply Nat.leb_le in Hshrink. mstep.
    exists (arr_ v), (capacity_ v), buf. eexists. split; [reflexivity|].
    cbn [heap objs]. repeat split; try done; try lia. }
  apply Nat.leb_gt in Hshrink.
  destruct (n <=? capacity_ v) eqn:Hfit.
  - apply Nat.leb_le in Hfit. unfold begin. repeat mstep.
    unfold ptr_add. cbn [base off]. rewrite Nat.add_0_l.
    destruct (fill_loop_buffer (n - size_ v) (size_ v) m (arr_ v) buf
                Type_default Hbuf ltac:(lia))
      as (buf1 & m1 & Hrun1 & Hobjs1 & Hbuf1 & Hlen1 & Hk1 & Hframe1).
    rewrite (bind_Ret _ _ _ _ _ Hrun1). mstep.
    exists (arr_ v), (capacity_ v), buf1. eexists. split; [reflexivity|].
    cbn [heap objs]. repeat split; try done; try lia.
    + by rewrite Hobjs1.
    + apply list_eq. intros k. destruct (decide (k < size_ v)).
      * rewrite !lookup_take_lt by lia. rewrite Hk1.
        by rewrite decide_False by lia.
      * by rewrite !lookup_take_ge by lia.
    + intros k Hk. rewrite Hk1. by rewrite decide_True by lia.
  - apply Nat.leb_gt in Hfit.
    destruct (ChangeCapacity_spec Type_default moved_from this n m v buf)
      as (q & m1 & Hrun1 & Hobjs1 & Hbuf1 & Hframe1 & Hfresh1);
      [done|done|lia|lia|].
    rewrite (bind_Ret _ _ _ _ _ Hrun1). mstep.
    exists q, n. eexists. eexists. split; [reflexivity|].
    cbn [heap objs]. split; [|split; [exact Hbuf1|]].
    { rewrite Hobjs1. by rewrite insert_insert_eq. }
    repeat split; try lia.
    + rewrite length_app, length_take, length_replicate. lia.
    + rewrite take_app_le by (rewrite length_take; lia).
      rewrite take_take. f_equal. lia.
    + intros k Hk. rewrite lookup_app_r by (rewrite length_take; lia).
      rewrite length_take. apply lookup_replicate_2. lia.
Qed.

Lemma At_spec this index m v :
  objs m !! this = Some v →
  At this index m
  = if decide (size_ v ≤ index) then Throw out_of_range m
    else Ret (Ptr (arr_ v) index) m.
Proof.
  intros Hthis. unfold At, begin. mstep.
  case_decide as Hi.
  - apply Nat.leb_le in Hi. by rewrite Hi.
  - apply Nat.leb_nle in Hi. rewrite Hi. by repeat mstep.
Qed.

End Mutators.

(** ** Copy and move *)

Section CopyMove.
Context {T : Type}.
Variable Type_default : T.
Variable moved_from : T → T.
Implicit Types (m : mem T) (p : ptr) (v : SimpleVector).

Lemma new_object_spec m :
  ∃ m', new_object m = Ret (fresh (dom (objs m))) m'
        ∧ objs m' = <[fresh (dom (objs m)) := mkSimpleVector None 0 0]> (objs m)
        ∧ heap m' = heap m
        ∧ objs m !! fresh (dom (objs m)) = None.
Proof. eexists. split; [reflexivity|]. repeat split. apply fresh_object. Qed.

Lemma allocates_buffer m m' q (p : option loc) buf :
  allocates m m' q → buffer m p = Some buf →
  buffer m' p = Some buf ∧ (0 < length buf → p ≠ q).
Proof.
  intros [Hframe Hfresh] Hbuf. destruct p as [l|]; simpl in *.
  - assert (q ≠ Some l) as Hq.
    { intros Hq. apply Hfresh in Hq. congruence. }
    split; [by rewrite Hframe|]. intros _ Heq. by apply Hq.
  - injection Hbuf as <-. split; [done|]. simpl. lia.
Qed.

Lemma SimpleVector_copy_spec other m o buf :
  objs m !! other = Some o → buffer m (arr_ o) = Some buf →
  size_ o ≤ length buf →
  ∃ q m',
    SimpleVector_copy Type_default other m = Ret (fresh (dom (objs m))) m'
    ∧ objs m'
      = <[fresh (dom (objs m)) := mkSimpleVector q (size_ o) (capacity_ o)]>
          (objs m)
    ∧ buffer m' q = Some (take (size_ o) buf)
    ∧ allocates m m' q.
Proof.
  intros Hother Hbuf Hsize. unfold SimpleVector_copy.
  destruct (new_object_spec m) as (m0 & Hrun0 & Hobjs0 & Hheap0 & Hfresh).
  set (this := fresh (dom (objs m))) in *.
  rewrite (bind_Ret _ _ _ _ _ Hrun0).
  assert (this ≠ other) as Hne by congruence.
  unfold GetSize, GetCapacity, begin, end_.
  repeat mstep.
  destruct (SimpleVector_sized_spec Type_default (size_ o) m0)
    as (q & m1 & Hrun1 & Hobjs1 & Hbuf1 & Halloc1).
  pose proof (fresh_object m0) as Hfresh0.
  set (tmp := fresh (dom (objs m0))) in *.
  assert (tmp ≠ this ∧ tmp ≠ other) as [Hne1 Hne2].
  { rewrite Hobjs0 in Hfresh0. split; intros Heq; rewrite Heq in Hfresh0.
    - by rewrite lookup_insert_eq in Hfresh0.
    - rewrite lookup_insert_ne in Hfresh0 by done. congruence. }
  rewrite (bind_Ret _ _ _ _ _ Hrun1).
  assert (buffer m0 (arr_ o) = Some buf) as Hbuf0.
  { rewrite <- Hbuf. apply buffer_frame. intros. by rewrite Hheap0. }
  repeat mstep.
  unfold std_copy. rewrite ?bind_assoc.
  rewrite (bind_Ret _ _ _ _ _
             (distance_eq m1 (arr_ o) 0 (size_ o) ltac:(lia))).
  rewrite Nat.sub_0_r.
  destruct (allocates_buffer _ _ _ _ _ Halloc1 Hbuf0) as [Hbufo1 Hdistinct].
  destruct (forward_loop_range id copy_assign (size_ o)
              m1 (arr_ o) q buf (replicate (size_ o) Type_default))
    as (m2 & Hrun2 & Hobjs2 & Hsrc2 & Hdst2 & Hframe2);
    [apply copy_assign_assigns|done|done|done
    |by rewrite length_replicate|intros; apply Hdistinct; lia|].
  rewrite (bind_Ret _ _ _ _ _ Hrun2).
  repeat mstep.
  erewrite (bind_Ret (swap _ _)); cycle 1.
  { apply swap_eq; [|solve_lookup..]. done. }
  unfold destroy. repeat mstep.
  exists q. eexists. split; [reflexivity|]. cbn [heap objs].
  split; [|split].
  - assert (objs m !! tmp = None) as Htmp.
    { rewrite Hobjs0 in Hfresh0. by rewrite lookup_insert_ne in Hfresh0. }
    rewrite Hobjs2, Hobjs1, Hobjs0. map_pointwise.
  - rewrite (buffer_frame m2 _ q) by done. rewrite Hdst2. f_equal.
    rewrite drop_replicate, Nat.sub_diag. simpl. by rewrite app_nil_r.
  - destruct Halloc1 as [Hframe1 Hfresh1]. split.
    + intros l Hl. cbn [heap].
      destruct (decide (arr_ o = Some l)) as [Ho|Ho].
      * rewrite Ho in Hsrc2, Hbuf. simpl in Hsrc2, Hbuf.
        rewrite Hsrc2, Hbuf. f_equal. rewrite list_fmap_id.
        by rewrite take_drop.
      * rewrite Hframe2 by done. rewrite Hframe1 by done. by rewrite Hheap0.
    + intros l Hl. rewrite <- Hheap0. by apply Hfresh1.
Qed.


Lemma SimpleVector_move_spec other m o :
  objs m !! other = Some o →
  ∃ q m',
    SimpleVector_move Type_default other m = Ret (fresh (dom (objs m))) m'
    ∧ objs m'
      = <[other := mkSimpleVector q 0 (capacity_ o)]>
          (<[fresh (dom (objs m)) := o]> (objs m))
    ∧ buffer m' q = Some (replicate (size_ o) Type_default)
    ∧ allocates m m' q.
Proof.
  intros Hother. unfold SimpleVector_move.
  destruct (new_object_spec m) as (m0 & Hrun0 & Hobjs0 & Hheap0 & Hfresh).
  set (this := fresh (dom (objs m))) in *.
  rewrite (bind_Ret _ _ _ _ _ Hrun0).
  assert (this ≠ other) as Hne by congruence.
  mstep.
  destruct (ArrayPtr_new_spec Type_default (size_ o) m0)
    as (q & m1 & Hrun1 & Hobjs1 & Hbuf1 & Hframe1 & Hfresh1).
  rewrite (bind_Ret _ _ _ _ _ Hrun1).
  rewrite decide_True by done.
  unfold ArrayPtr_swap, Clear. repeat mstep.
  exists q. eexists. split; [reflexivity|]. cbn [heap objs].
  split; [|split; [|split]].
  - rewrite Hobjs1, Hobjs0. destruct o as [po so co].
    cbn [arr_ size_ capacity_].
    map_pointwise.
  - by rewrite (buffer_frame m1 _ q).
  - intros l Hl. cbn [heap]. rewrite Hframe1 by done. by rewrite Hheap0.
  - intros l Hl. rewrite <- Hheap0. by apply Hfresh1.
Qed.

Lemma assign_move_eq this rhs m a o :
  this ≠ rhs → objs m !! this = Some a → objs m !! rhs = Some o →
  assign_move this rhs m
  = Ret this
      (Mem (heap m)
         (if size_ o =? 0
          then <[this := mkSimpleVector (arr_ a) 0 (capacity_ a)]> (objs m)
          else <[rhs := mkSimpleVector (arr_ a) 0 (capacity_ a)]>
                 (<[this := o]> (objs m)))).
Proof.
  intros Hne Ha Ho. unfold assign_move, IsEmpty, Clear.
  rewrite decide_True by done. repeat mstep.
  destruct (size_ o =? 0).
  - by repeat mstep.
  - rewrite ?bind_assoc.
    rewrite (bind_Ret _ _ _ _ _ (swap_rvalue_eq m this rhs a o Hne Ha Ho)).
    repeat mstep. do 2 f_equal. map_pointwise.
Qed.

Lemma assign_move_self this m : assign_move this this m = Ret this m.
Proof. unfold assign_move. by rewrite decide_False by (intros H; by apply H). Qed.

Lemma assign_copy_self this m :
  assign_copy Type_default this this m = Ret this m.
Proof. unfold assign_copy. by rewrite decide_False by (intros H; by apply H). Qed.

End CopyMove.

(** ** Comparison *)

Section Compare.
Context {T : Type}.
Variable Type_eq : T → T → bool.
Variable Type_lt : T → T → bool.
Implicit Types (m : mem T) (v : SimpleVector).

Lemma readable_take m q buf n :
  buffer m q = Some buf → readable m q 0 (take n buf).
Proof.
  intros Hbuf k x Hk. apply lookup_take_Some in Hk as [Hk _].
  destruct (buffer_nonempty _ _ _ Hbuf) as (l & -> & Hl).
  { apply lookup_lt_Some in Hk. lia. }
  by apply load_eq with buf.
Qed.

Lemma readable_cons m q i x xs :
  readable m q i (x :: xs) →
  load (Ptr q i) m = Ret x m ∧ readable m q (i + 1) xs.
Proof.
  intros H. split.
  - rewrite <- (Nat.add_0_r i). by apply H.
  - intros k y Hk. replace (i + 1 + k) with (i + S k) by lia. by apply H.
Qed.

Lemma equal_loop_spec m q1 q2 xs :
  ∀ ys i j,
    length xs = length ys → readable m q1 i xs → readable m q2 j ys →
    ∃ r,
      equal_loop Type_eq (length xs) (Ptr q1 i) (Ptr q2 j) m = Ret r m
      ∧ (r = true ↔ Forall2 (λ x y, Type_eq x y = true) xs ys).
Proof.
  induction xs as [|x xs IH]; intros [|y ys] i j Hlen Hxs Hys;
    simpl in Hlen; try lia.
  - exists true. split; [done|]. split; [constructor|done].
  - apply readable_cons in Hxs as [Hx Hxs].
    apply readable_cons in Hys as [Hy Hys].
    simpl. rewrite (bind_Ret _ _ _ _ _ Hx), (bind_Ret _ _ _ _ _ Hy).
    destruct (Type_eq x y) eqn:E; simpl.
    + destruct (IH ys (i + 1) (j + 1)) as (r & Hrun & Hr); [lia|done|done|].
      exists r. split; [exact Hrun|]. rewrite Hr. split.
      * by constructor.
      * by inversion 1.
    + exists false. split; [done|]. split; [done|].
      inversion 1; congruence.
Qed.

Lemma lexicographical_loop_spec m q1 q2 xs :
  ∀ ys i j,
    readable m q1 i xs → readable m q2 j ys →
    ∃ r,
      lexicographical_loop Type_lt (length xs) (length ys)
        (Ptr q1 i) (Ptr q2 j) m = Ret r m
      ∧ (r = true ↔ lexicographically_less Type_lt xs ys).
Proof.
  induction xs as [|x xs IH]; intros [|y ys] i j Hxs Hys; simpl.
  - exists false. split; [done|]. split; [done|inversion 1].
  - exists true. split; [done|]. split; [constructor|done].
  - exists false. split; [done|]. split; [done|inversion 1].
  - apply readable_cons in Hxs as [Hx Hxs].
    apply readable_cons in Hys as [Hy Hys].
    rewrite (bind_Ret _ _ _ _ _ Hx), (bind_Ret _ _ _ _ _ Hy).
    destruct (Type_lt x y) eqn:Exy.
    { exists true. split; [done|]. split; [by constructor|done]. }
    destruct (Type_lt y x) eqn:Eyx.
    { exists false. split; [done|]. split; [done|].
      inversion 1; congruence. }
    destruct (IH ys (i + 1) (j + 1)) as (r & Hrun & Hr); [done|done|].
    exists r. split; [exact Hrun|]. rewrite Hr. split.
    + by constructor.
    + inversion 1; [congruence|done].
Qed.

Lemma operator_eq_spec lhs rhs m a b bufa bufb :
  objs m !! lhs = Some a → buffer m (arr_ a) = Some bufa →
  size_ a ≤ length bufa →
  objs m !! rhs = Some b → buffer m (arr_ b) = Some bufb →
  size_ b ≤ length bufb →
  ∃ r,
    operator_eq Type_eq lhs rhs m = Ret r m
    ∧ (r = true ↔
       size_ a = size_ b
       ∧ Forall2 (λ x y, Type_eq x y = true)
           (take (size_ a) bufa) (take (size_ b) bufb)).
Proof.
  intros Ha Hbufa Hsa Hb Hbufb Hsb.
  unfold operator_eq, GetSize, cbegin, cend, begin, end_, std_equal.
  repeat mstep.
  destruct (size_ a =? size_ b) eqn:E.
  - apply Nat.eqb_eq in E. repeat mstep.
    rewrite (bind_Ret _ _ _ _ _
               (distance_eq m (arr_ a) 0 (size_ a) ltac:(lia))).
    rewrite (bind_Ret _ _ _ _ _
               (distance_eq m (arr_ b) 0 (size_ b) ltac:(lia))).
    rewrite !Nat.sub_0_r. rewrite <- E, Nat.eqb_refl. simpl.
    destruct (equal_loop_spec m (arr_ a) (arr_ b) (take (size_ a) bufa)
                (take (size_ a) bufb) 0 0) as (r & Hrun & Hr).
    { rewrite !length_take. lia. }
    { by apply readable_take. }
    { by apply readable_take. }
    rewrite length_take in Hrun.
    replace (size_ a `min` length bufa) with (size_ a) in Hrun by lia.
    exists r. split; [exact Hrun|]. rewrite Hr.
    split; [done|]. by intros [_ ?].
  - apply Nat.eqb_neq in E. exists false. split; [done|].
    split; [done|]. by intros [? _].
Qed.

Lemma operator_lt_spec lhs rhs m a b bufa bufb :
  objs m !! lhs = Some a → buffer m (arr_ a) = Some bufa →
  size_ a ≤ length bufa →
  objs m !! rhs = Some b → buffer m (arr_ b) = Some bufb →
  size_ b ≤ length bufb →
  ∃ r,
    operator_lt Type_lt lhs rhs m = Ret r m
    ∧ (r = true ↔
       lexicographically_less Type_lt
         (take (size_ a) bufa) (take (size_ b) bufb)).
Proof.
  intros Ha Hbufa Hsa Hb Hbufb Hsb.
  unfold operator_lt, cbegin, cend, begin, end_, std_lexicographical_compare.
  repeat mstep.
  rewrite (bind_Ret _ _ _ _ _
             (distance_eq m (arr_ a) 0 (size_ a) ltac:(lia))).
  rewrite (bind_Ret _ _ _ _ _
             (distance_eq m (arr_ b) 0 (size_ b) ltac:(lia))).
  rewrite !Nat.sub_0_r.
  destruct (lexicographical_loop_spec m (arr_ a) (arr_ b)
              (take (size_ a) bufa) (take (size_ b) bufb) 0 0)
    as (r & Hrun & Hr).
  { by apply readable_take. }
  { by apply readable_take. }
  rewrite !length_take in Hrun.
  replace (size_ a `min` length bufa) with (size_ a) in Hrun by lia.
  replace (size_ b `min` length bufb) with (size_ b) in Hrun by lia.
  by exists r.
Qed.

End Compare.

(** ** What an operation on one vector leaves alone *)

Section Frame.
Context {T : Type}.
Variable Type_default : T.
Variable moved_from : T → T.
Variables (a : ref) (va : SimpleVector) (bufa : list T).
Implicit Types (m : mem T) (p : ptr) (v : SimpleVector) (q : option loc).

Local Abbreviation foreign q := (q = None ∨ q ≠ arr_ va).
Local Abbreviation keeps_a := (keeps a va bufa).
Local Abbreviation owned_a := (owned a va bufa).

Lemma keeps_ret {A} (x : A) (Q : A → Prop) : Q x → keeps_a (ret x) Q.
Proof. intros HQ m y m' Hm [= <- <-]. done. Qed.

Lemma keeps_bind {A B} (c : exec T A) (k : A → exec T B) P Q :
  keeps_a c P → (∀ x, P x → keeps_a (k x) Q) → keeps_a (bind c k) Q.
Proof.
  intros Hc Hk m y m' Hm Hrun. unfold bind in Hrun.
  destruct (c m) as [x m1| |] eqn:E; [|done..].
  destruct (Hc m x m1 Hm E) as [Hm1 HP]. by eapply Hk.
Qed.

Lemma keeps_weaken {A} (c : exec T A) (P Q : A → Prop) :
  keeps_a c P → (∀ x, P x → Q x) → keeps_a c Q.
Proof. intros Hc HPQ m x m' Hm Hrun. destruct (Hc m x m' Hm Hrun). eauto. Qed.

Lemma keeps_pure {A} (c : exec T A) :
  (∀ m x m', c m = Ret x m' → m' = m) → keeps_a c (λ _, True).
Proof. intros Hc m x m' Hm Hrun. by rewrite (Hc m x m' Hrun). Qed.

Lemma keeps_assert b : keeps_a (assert b) (λ _, True).
Proof. apply keeps_pure. intros m x m'. by destruct b; intros [= <-]. Qed.

Lemma keeps_load p : keeps_a (load p) (λ _, True).
Proof.
  apply keeps_pure. intros m x m'. unfold load.
  repeat case_match; try done. by intros [= <- <-].
Qed.

Lemma keeps_distance p1 p2 : keeps_a (distance p1 p2) (λ _, True).
Proof.
  apply keeps_pure. intros m x m'. unfold distance, bind, assert.
  destruct (ptr_le p1 p2); [|done]. by intros [= <- <-].
Qed.

Lemma keeps_ptr_pred p :
  foreign (base p) → keeps_a (ptr_pred p) (λ p', foreign (base p')).
Proof.
  intros Hp m x m' Hm. unfold ptr_pred. destruct (off p); [done|].
  by intros [= <- <-].
Qed.

Lemma keeps_get r : r ≠ a → keeps_a (get r) (λ v, foreign (arr_ v)).
Proof.
  intros Hr m v m' Hm. unfold get.
  destruct (objs m !! r) as [v'|] eqn:E; [|done]. intros [= <- <-].
  split; [done|]. destruct Hm as (_ & _ & Hex). by eapply Hex.
Qed.

Lemma keeps_put r v :
  r ≠ a → foreign (arr_ v) → keeps_a (put r v) (λ _, True).
Proof.
  intros Hr Hv m x m' (Ha & Hbuf & Hex). unfold put.
  destruct (objs m !! r) as [v'|] eqn:E; [|done]. intros [= <- <-].
  split; [|done]. split; [|split]; cbn [objs].
  - by rewrite lookup_insert_ne.
  - done.
  - intros r' v''. destruct (decide (r' = r)) as [->|Hne].
    + rewrite lookup_insert_eq. by intros _ [= <-].
    + rewrite lookup_insert_ne by done. apply Hex.
Qed.

Lemma keeps_store p x : foreign (base p) → keeps_a (store p x) (λ _, True).
Proof.
  intros Hp m y m' (Ha & Hbuf & Hex). unfold store.
  destruct (base p) as [l|] eqn:Hl; [|done].
  destruct (heap m !! l) as [buf|] eqn:E; [|done].
  case_decide; [|done]. intros [= <- <-].
  split; [|done]. split; [done|]. split; [|done].
  destruct (arr_ va) as [la|] eqn:Hla; [|done]. simpl in *.
  rewrite lookup_insert_ne; [done|]. destruct Hp as [?|Hp]; congruence.
Qed.

Lemma keeps_new_object : keeps_a new_object (λ r, r ≠ a).
Proof.
  intros m r m' (Ha & Hbuf & Hex). unfold new_object. intros [= <- <-].
  assert (fresh (dom (objs m)) ≠ a) as Hne.
  { intros Heq. pose proof (fresh_object m) as Hf. rewrite Heq in Hf.
    congruence. }
  split; [|done]. split; [|split]; cbn [objs].
  - by rewrite lookup_insert_ne.
  - done.
  - intros r' v'. destruct (decide (r' = fresh (dom (objs m)))) as [->|Hr'].
    + rewrite lookup_insert_eq. intros _ [= <-]. by left.
    + rewrite lookup_insert_ne by done. apply Hex.
Qed.

Lemma keeps_ArrayPtr_new n :
  keeps_a (ArrayPtr_new Type_default n) (λ q, foreign q).
Proof.
  intros m q m' (Ha & Hbuf & Hex). unfold ArrayPtr_new.
  destruct n as [|n]; intros [= <- <-].
  { split; [done|]. by left. }
  assert (Some (fresh (dom (heap m))) ≠ arr_ va) as Hne.
  { intros Heq. rewrite <- Heq in Hbuf. simpl in Hbuf.
    by rewrite fresh_block in Hbuf. }
  split; [|by right]. split; [done|]. split; [|done].
  destruct (arr_ va) as [la|] eqn:Hla; [|done]. simpl in *.
  rewrite lookup_insert_ne; [done|]. congruence.
Qed.

Lemma keeps_ArrayPtr_delete q :
  foreign q → keeps_a (ArrayPtr_delete q) (λ _, True).
Proof.
  intros Hq m x m' (Ha & Hbuf & Hex). unfold ArrayPtr_delete.
  destruct q as [l|]; [|by intros [= <- <-]].
  destruct (heap m !! l) as [buf|] eqn:E; [|done]. intros [= <- <-].
  split; [|done]. split; [done|]. split; [|done].
  destruct (arr_ va) as [la|] eqn:Hla; [|done]. simpl in *.
  rewrite lookup_delete_ne; [done|]. destruct Hq as [?|Hq]; congruence.
Qed.

Lemma keeps_forget r :
  r ≠ a →
  keeps_a (λ m, Ret tt (Mem (heap m) (delete r (objs m)))) (λ _, True).
Proof.
  intros Hr m x m' (Ha & Hbuf & Hex) [= <- <-].
  split; [|done]. split; [|split]; cbn [objs].
  - by rewrite lookup_delete_ne.
  - done.
  - intros r' v' Hr'. destruct (decide (r' = r)) as [->|Hne].
    + by rewrite lookup_delete_eq.
    + rewrite lookup_delete_ne by done. by apply Hex.
Qed.


Ltac keeps_side :=
  cbn [arr_ size_ capacity_ base off ptr_add] in *;
  first [done | assumption | by left | by right | tauto].

Create HintDb keeps.
#[local] Hint Resolve keeps_get keeps_put keeps_load keeps_store keeps_assert
  keeps_distance keeps_ptr_pred keeps_new_object keeps_ArrayPtr_new
  keeps_ArrayPtr_delete keeps_forget : keeps.
#[local] Hint Extern 2 (_ ∨ _) => keeps_side : keeps.
#[local] Hint Extern 2 (_ ≠ _) => keeps_side : keeps.

Ltac keeps_head := solve [eauto 3 with keeps].

Ltac keeps_go :=
  cbn beta;
  lazymatch goal with
  | |- @keeps _ _ _ _ _ (bind (bind _ _) _) _ =>
      eapply (keeps_bind _ _ (λ _, True)); [keeps_go | intros ? ?; keeps_go]
  | |- @keeps _ _ _ _ _ (bind (if ?b then _ else _) _) _ =>
      destruct b; keeps_go
  | |- @keeps _ _ _ _ _ (bind _ _) _ =>
      eapply keeps_bind;
      [ first [keeps_head | eapply keeps_weaken; [keeps_head | done]]
      | intros ? ?; keeps_go ]
  | |- @keeps _ _ _ _ _ (ret _) _ =>
      apply keeps_ret; keeps_side
  | |- @keeps _ _ _ _ _ (if ?b then _ else _) _ =>
      destruct b; keeps_go
  | |- @keeps _ _ _ _ _ _ _ =>
      first
        [ keeps_head
        | eapply keeps_weaken; [keeps_head | intros; keeps_side] ]
  end.

Lemma keeps_set_arr r q :
  r ≠ a → foreign q → keeps_a (set_arr r q) (λ _, True).
Proof. intros. unfold set_arr. keeps_go. Qed.

Lemma keeps_set_size r n : r ≠ a → keeps_a (set_size r n) (λ _, True).
Proof. intros. unfold set_size. keeps_go. Qed.

Lemma keeps_set_capacity r n : r ≠ a → keeps_a (set_capacity r n) (λ _, True).
Proof. intros. unfold set_capacity. keeps_go. Qed.

Lemma keeps_copy_assign d s :
  foreign (base d) → keeps_a (copy_assign d s) (λ _, True).
Proof. intros. unfold copy_assign. keeps_go. Qed.

Lemma keeps_move_assign d s :
  foreign (base d) → foreign (base s) →
  keeps_a (move_assign moved_from d s) (λ _, True).
Proof. intros. unfold move_assign. keeps_go. Qed.

Lemma keeps_forward_loop assign n :
  (∀ d s, foreign (base d) → foreign (base s) →
          keeps_a (assign d s) (λ _, True)) →
  ∀ first d_first,
    foreign (base first) → foreign (base d_first) →
    keeps_a (forward_loop assign n first d_first) (λ _, True).
Proof.
  intros Hassign. induction n as [|n IH]; intros first d_first Hf Hd; simpl.
  - by apply keeps_ret.
  - eapply keeps_bind; [by apply Hassign|]. intros _ _. by apply IH.
Qed.

Lemma keeps_backward_loop assign n :
  (∀ d s, foreign (base d) → foreign (base s) →
          keeps_a (assign d s) (λ _, True)) →
  ∀ last d_last,
    foreign (base last) → foreign (base d_last) →
    keeps_a (backward_loop assign n last d_last) (λ _, True).
Proof.
  intros Hassign. induction n as [|n IH]; intros last d_last Hl Hd; simpl.
  - by apply keeps_ret.
  - eapply keeps_bind; [by apply keeps_ptr_pred|]. intros last' Hl'.
    eapply keeps_bind; [by apply keeps_ptr_pred|]. intros d_last' Hd'.
    eapply keeps_bind; [by apply Hassign|]. intros _ _. by apply IH.
Qed.

Lemma keeps_fill_loop n x :
  ∀ first, foreign (base first) → keeps_a (fill_loop n first x) (λ _, True).
Proof.
  induction n as [|n IH]; intros first Hf; simpl.
  - by apply keeps_ret.
  - eapply keeps_bind; [by apply keeps_store|]. intros _ _. by apply IH.
Qed.

Lemma keeps_fill_move_loop n :
  ∀ it x, foreign (base it) →
          keeps_a (fill_move_loop Type_default n it x) (λ _, True).
Proof.
  induction n as [|n IH]; intros it x Hf; simpl.
  - by apply keeps_ret.
  - eapply keeps_bind; [by apply keeps_store|]. intros _ _. by apply IH.
Qed.


#[local] Hint Resolve keeps_set_arr keeps_set_size keeps_set_capacity
  keeps_copy_assign keeps_move_assign keeps_forward_loop keeps_backward_loop
  keeps_fill_loop keeps_fill_move_loop : keeps.

Lemma keeps_begin r : r ≠ a → keeps_a (begin r) (λ p, foreign (base p)).
Proof. intros. unfold begin. keeps_go. Qed.

Lemma keeps_end_ r : r ≠ a → keeps_a (end_ r) (λ p, foreign (base p)).
Proof. intros. unfold end_. keeps_go. Qed.

Lemma keeps_GetSize r : r ≠ a → keeps_a (GetSize r) (λ _, True).
Proof. intros. unfold GetSize. keeps_go. Qed.

Lemma keeps_IsEmpty r : r ≠ a → keeps_a (IsEmpty r) (λ _, True).
Proof. intros. unfold IsEmpty. keeps_go. Qed.

Lemma keeps_Clear r : r ≠ a → keeps_a (Clear r) (λ _, True).
Proof. intros. unfold Clear. keeps_go. Qed.

#[local] Hint Resolve keeps_begin keeps_end_ keeps_GetSize keeps_IsEmpty
  keeps_Clear : keeps.

Lemma keeps_swap r1 r2 : r1 ≠ a → r2 ≠ a → keeps_a (swap r1 r2) (λ _, True).
Proof. intros. unfold swap, ArrayPtr_swap. keeps_go. Qed.

#[local] Hint Resolve keeps_swap : keeps.

Lemma keeps_swap_rvalue r1 r2 :
  r1 ≠ a → r2 ≠ a → keeps_a (swap_rvalue r1 r2) (λ _, True).
Proof. intros. unfold swap_rvalue. keeps_go. Qed.

Lemma keeps_destroy r : r ≠ a → keeps_a (destroy r) (λ _, True).
Proof. intros. unfold destroy. keeps_go. Qed.

Lemma keeps_SimpleVector_sized n :
  keeps_a (SimpleVector_sized Type_default n) (λ r, r ≠ a).
Proof. unfold SimpleVector_sized, SimpleVector_fill_move. keeps_go. Qed.

#[local] Hint Resolve keeps_swap_rvalue keeps_destroy keeps_SimpleVector_sized
  : keeps.

Lemma keeps_std_move first last d_first :
  foreign (base first) → foreign (base d_first) →
  keeps_a (std_move moved_from first last d_first) (λ _, True).
Proof. intros. unfold std_move. keeps_go. Qed.

#[local] Hint Resolve keeps_std_move : keeps.

Lemma keeps_ChangeCapacity r n :
  r ≠ a → keeps_a (ChangeCapacity Type_default moved_from r n) (λ _, True).
Proof. intros. unfold ChangeCapacity. keeps_go. Qed.

#[local] Hint Resolve keeps_ChangeCapacity : keeps.

Lemma keeps_grow_if_full r :
  r ≠ a → keeps_a (grow_if_full Type_default moved_from r) (λ _, True).
Proof. intros. unfold grow_if_full. keeps_go. Qed.

#[local] Hint Resolve keeps_grow_if_full : keeps.

Lemma keeps_Resize r n :
  r ≠ a → keeps_a (Resize Type_default moved_from r n) (λ _, True).
Proof. intros. unfold Resize. keeps_go. Qed.

Lemma keeps_Reserve r n :
  r ≠ a →
  keeps_a (SimpleVector_Reserve Type_default moved_from r n) (λ _, True).
Proof. intros. unfold SimpleVector_Reserve. keeps_go. Qed.

Lemma keeps_PushBack r x :
  r ≠ a → keeps_a (PushBack Type_default moved_from r x) (λ _, True).
Proof. intros. unfold PushBack. keeps_go. Qed.

Lemma keeps_PushBack_move r item :
  r ≠ a → foreign (base item) →
  keeps_a (PushBack_move Type_default moved_from r item) (λ _, True).
Proof. intros. unfold PushBack_move. keeps_go. Qed.

Lemma keeps_PopBack r : r ≠ a → keeps_a (PopBack r) (λ _, True).
Proof. intros. unfold PopBack. keeps_go. Qed.

Lemma keeps_Insert r pos x :
  r ≠ a → keeps_a (Insert Type_default moved_from r pos x) (λ _, True).
Proof. intros. unfold Insert, cbegin, std_copy_backward. keeps_go. Qed.

Lemma keeps_Insert_move r pos value :
  r ≠ a → foreign (base value) →
  keeps_a (Insert_move Type_default moved_from r pos value) (λ _, True).
Proof. intros. unfold Insert_move, cbegin, std_move_backward. keeps_go. Qed.

Lemma keeps_Erase r pos :
  r ≠ a → keeps_a (Erase moved_from r pos) (λ _, True).
Proof. intros. unfold Erase, cbegin. keeps_go. Qed.

Lemma keeps_subscript r i :
  r ≠ a → keeps_a (subscript r i) (λ p, foreign (base p)).
Proof. intros. unfold subscript. keeps_go. Qed.

#[local] Hint Resolve keeps_Resize keeps_Reserve keeps_PushBack
  keeps_PushBack_move keeps_PopBack keeps_Insert keeps_Insert_move keeps_Erase
  keeps_subscript : keeps.

Lemma keeps_mutate r μ :
  r ≠ a → moves_from_outside (arr_ va) μ →
  keeps_a (mutate Type_default moved_from r μ) (λ _, True).
Proof.
  intros Hr Hμ. destruct μ; simpl in *; keeps_go.
Qed.

Lemma keeps_mutate_all r μs :
  r ≠ a → Forall (moves_from_outside (arr_ va)) μs →
  keeps_a (mutate_all Type_default moved_from r μs) (λ _, True).
Proof.
  intros Hr. induction 1 as [|μ μs Hμ _ IH]; simpl.
  - by apply keeps_ret.
  - eapply keeps_bind; [by apply keeps_mutate|]. by intros _ _.
Qed.

End Frame.

(** ** Repeated PushBack *)



Section PushAll.
Context {T : Type}.
Variable Type_default : T.
Variable moved_from : T → T.
Implicit Types (m : mem T) (v : SimpleVector).


End PushAll.

(** ** The class invariant *)

Section Invariant.
Context {T : Type}.
Variable Type_default : T.
Variable moved_from : T → T.
Implicit Types (m : mem T) (v : SimpleVector) (pos : ptr).

Lemma well_formed_intro m v buf :
  buffer m (arr_ v) = Some buf → length buf = capacity_ v →
  size_ v ≤ capacity_ v → well_formed m v.
Proof. intros Hbuf Hlen Hsize. split; [by exists buf|done]. Qed.

Lemma default_constructor_invariant m :
  ∃ this m',
    SimpleVector_default m = Ret this m'
    ∧ objs m' !! this = Some (mkSimpleVector None 0 0)
    ∧ well_formed m' (mkSimpleVector None 0 0).
Proof.
  destruct (new_object_spec m) as (m' & Hrun & Hobjs & _).
  exists (fresh (dom (objs m))), m'. split; [done|].
  split; [by rewrite Hobjs, lookup_insert_eq|].
  by apply well_formed_intro with [].
Qed.

Lemma sized_constructor_invariant m n :
  ∃ this m' v,
    SimpleVector_sized Type_default n m = Ret this m'
    ∧ objs m' !! this = Some v
    ∧ size_ v = n ∧ capacity_ v = n
    ∧ buffer m' (arr_ v) = Some (replicate n Type_default)
    ∧ well_formed m' v.
Proof.
  destruct (SimpleVector_sized_spec Type_default n m)
    as (q & m' & Hrun & Hobjs & Hbuf & _).
  exists (fresh (dom (objs m))), m', (mkSimpleVector q n n).
  split; [done|]. split; [by rewrite Hobjs, lookup_insert_eq|].
  split; [done|]. split; [done|]. split; [done|].
  apply well_formed_intro with (replicate n Type_default); [done| |done].
  apply length_replicate.
Qed.

Lemma reserved_constructor_invariant m n :
  ∃ this m' v,
    SimpleVector_reserved Type_default (Reserve n) m = Ret this m'
    ∧ objs m' !! this = Some v
    ∧ size_ v = 0 ∧ capacity_ v = n
    ∧ well_formed m' v.
Proof.
  unfold SimpleVector_reserved, Reserve. cbn [capacity].
  destruct (new_object_spec m) as (m0 & Hrun0 & Hobjs0 & Hheap0 & Hfresh).
  rewrite (bind_Ret _ _ _ _ _ Hrun0).
  destruct (ArrayPtr_new_spec Type_default n m0)
    as (q & m1 & Hrun1 & Hobjs1 & Hbuf1 & _).
  rewrite (bind_Ret _ _ _ _ _ Hrun1).
  repeat mstep.
  eexists _, _, (mkSimpleVector q 0 n). split; [reflexivity|].
  cbn [heap objs arr_ size_ capacity_].
  split; [by rewrite lookup_insert_eq|]. split; [done|]. split; [done|].
  apply well_formed_intro with (replicate n Type_default);
    [by rewrite (buffer_frame m1 _ q)|apply length_replicate|simpl; lia].
Qed.

Lemma Reserve_spec this n m v buf :
  objs m !! this = Some v → buffer m (arr_ v) = Some buf →
  length buf = capacity_ v → size_ v ≤ capacity_ v →
  ∃ q buf' m',
    SimpleVector_Reserve Type_default moved_from this n m = Ret tt m'
    ∧ objs m'
      = <[this := mkSimpleVector q (size_ v) (capacity_ v `max` n)]> (objs m)
    ∧ buffer m' q = Some buf'
    ∧ length buf' = capacity_ v `max` n
    ∧ take (size_ v) buf' = take (size_ v) buf.
Proof.
  intros Hthis Hbuf Hlen Hsize. unfold SimpleVector_Reserve. mstep.
  destruct (capacity_ v <? n) eqn:E.
  - apply Nat.ltb_lt in E.
    destruct (ChangeCapacity_spec Type_default moved_from this n m v buf)
      as (q & m' & Hrun & Hobjs & Hbuf' & _); [done|done|lia|lia|].
    replace (capacity_ v `max` n) with n by lia.
    exists q. eexists. exists m'. split; [done|]. split; [done|].
    split; [done|]. split.
    + rewrite length_app, length_take, length_replicate. lia.
    + rewrite take_app_le by (rewrite length_take; lia).
      rewrite take_take. f_equal. lia.
  - apply Nat.ltb_ge in E.
    replace (capacity_ v `max` n) with (capacity_ v) by lia.
    exists (arr_ v), buf, m. repeat split; try done.
    destruct v. simpl. symmetry. by apply insert_id.
Qed.

(** The mutators keep the class invariant. *)
Lemma mutators_keep_the_class_invariant m this v buf :
  objs m !! this = Some v → buffer m (arr_ v) = Some buf →
  length buf = capacity_ v → size_ v ≤ capacity_ v →
  fits (2 * size_ v) →
  (∀ item x,
     load item m = Ret x m → base item ≠ arr_ v →
     ∃ m' v',
       PushBack Type_default moved_from this item m = Ret tt m'
       ∧ objs m' !! this = Some v' ∧ well_formed m' v')
  ∧ (∀ pos value x,
       base pos = arr_ v → off pos ≤ size_ v →
       load value m = Ret x m → base value ≠ arr_ v →
       ∃ it m' v',
         Insert Type_default moved_from this pos value m = Ret it m'
         ∧ objs m' !! this = Some v' ∧ well_formed m' v')
  ∧ (∀ pos,
       base pos = arr_ v → off pos < size_ v →
       ∃ m' v',
         Erase moved_from this pos m = Ret pos m'
         ∧ objs m' !! this = Some v' ∧ well_formed m' v')
  ∧ (∀ new_size, ∃ m' v',
       Resize Type_default moved_from this new_size m = Ret tt m'
       ∧ objs m' !! this = Some v' ∧ well_formed m' v')
  ∧ (∀ new_capacity, ∃ m' v',
       SimpleVector_Reserve Type_default moved_from this new_capacity m
       = Ret tt m'
       ∧ objs m' !! this = Some v' ∧ well_formed m' v').
Proof.
  intros Hthis Hbuf Hlen Hsize Hfits.
  assert (fits (size_ v)) as Hfits' by (eapply fits_le; [|exact Hfits]; lia).
  assert (∀ c, c = (if size_ v =? capacity_ v
                    then if size_ v =? 0 then 1 else 2 * size_ v
                    else capacity_ v) → size_ v + 1 ≤ c) as Hgrown.
  { intros c ->. destruct (size_ v =? capacity_ v) eqn:E.
    - destruct (size_ v); simpl; lia.
    - apply Nat.eqb_neq in E. lia. }
  split; [|split; [|split; [|split]]].
  - intros item x Hload Hout.
    destruct (PushBack_spec Type_default moved_from this item x m v buf)
      as (q & c & buf' & m' & Hrun & Hobjs & Hbuf' & Hlen' & _ & Hc & _);
      try done.
    eexists m', _. split; [done|].
    split; [by rewrite Hobjs, lookup_insert_eq|].
    apply well_formed_intro with buf'; [done|done|]. by apply Hgrown.
  - intros pos value x Hbase Hoff Hload Hout.
    destruct (Insert_spec Type_default moved_from this pos value x m v buf)
      as (q & c & buf' & m' & Hrun & Hobjs & Hbuf' & Hlen' & _ & Hc & _);
      try done.
    eexists _, m', _. split; [done|].
    split; [by rewrite Hobjs, lookup_insert_eq|].
    apply well_formed_intro with buf'; [done|done|]. by apply Hgrown.
  - intros pos Hbase Hoff.
    destruct (Erase_spec moved_from this pos m v buf)
      as (buf' & m' & Hrun & Hobjs & Hbuf' & Hlen' & _); try done; [lia|].
    eexists m', _. split; [done|].
    split; [by rewrite Hobjs, lookup_insert_eq|].
    apply well_formed_intro with buf'; [done|simpl; lia|simpl; lia].
  - intros new_size.
    destruct (Resize_spec Type_default moved_from this new_size m v buf)
      as (q & c & buf' & m' & Hrun & Hobjs & Hbuf' & Hlen' & Hshrink & Hfit
          & Hgrow & _); try done.
    eexists m', _. split; [done|].
    split; [by rewrite Hobjs, lookup_insert_eq|].
    apply well_formed_intro with buf'; [done|done|]. cbn [size_ capacity_].
    destruct (decide (new_size ≤ size_ v)) as [H1|H1].
    { destruct (Hshrink H1) as (_ & -> & _). lia. }
    destruct (decide (new_size ≤ capacity_ v)) as [H2|H2].
    { destruct (Hfit ltac:(lia) H2) as (_ & ->). lia. }
    rewrite Hgrow by lia. lia.
  - intros new_capacity.
    destruct (Reserve_spec this new_capacity m v buf)
      as (q & buf' & m' & Hrun & Hobjs & Hbuf' & Hlen' & _); try done.
    eexists m', _. split; [done|].
    split; [by rewrite Hobjs, lookup_insert_eq|].
    apply well_formed_intro with buf'; [done|done|simpl; lia].
Qed.

(** The copy constructor keeps the storage invariant only for a source
    that is full: the block of the copy has [size_] elements and its
    [capacity_] is the source's. *)
Lemma copy_constructor_storage m a va bufa :
  objs m !! a = Some va → buffer m (arr_ va) = Some bufa →
  length bufa = capacity_ va → size_ va ≤ capacity_ va →
  ∃ c vc m',
    SimpleVector_copy Type_default a m = Ret c m'
    ∧ objs m' !! c = Some vc
    ∧ capacity_ vc = capacity_ va
    ∧ allocated m' c = Some (size_ va)
    ∧ (storage_invariant m' vc ↔ size_ va = capacity_ va).
Proof.
  intros Ha Hbufa Hlen Hsize.
  destruct (SimpleVector_copy_spec Type_default a m va bufa Ha Hbufa)
    as (q & m' & Hrun & Hobjs & Hbuf & _); [lia|].
  exists (fresh (dom (objs m))), (mkSimpleVector q (size_ va) (capacity_ va)),
    m'.
  split; [done|]. split; [by rewrite Hobjs, lookup_insert_eq|].
  split; [done|]. split.
  - unfold allocated. rewrite Hobjs, lookup_insert_eq. cbn [arr_].
    rewrite Hbuf. simpl. f_equal. rewrite length_take. lia.
  - unfold storage_invariant. cbn [arr_ capacity_]. rewrite Hbuf. split.
    + intros (buf & [= <-] & Hl). rewrite length_take in Hl. lia.
    + intros Heq. eexists. split; [done|]. rewrite length_take. lia.
Qed.

End Invariant.

(** ** A block shorter than the capacity *)

Section Overflow.
Context {T : Type}.
Variable Type_default : T.
Variable moved_from : T → T.
Implicit Types (m : mem T) (v : SimpleVector).

Lemma store_past_the_end m (q : option loc) buf i x :
  buffer m q = Some buf → length buf ≤ i → store (Ptr q i) x m = Undefined.
Proof.
  intros Hbuf Hi. unfold store. cbn [base off].
  destruct q as [l|]; [|done]. simpl in Hbuf. rewrite Hbuf.
  by rewrite decide_False by lia.
Qed.

Lemma assign_past_the_end g assign m (q : option loc) buf i s :
  assigns g assign →
  buffer m q = Some buf → length buf ≤ i → assign (Ptr q i) s m = Undefined.
Proof.
  intros Ha Hbuf Hi. rewrite Ha. unfold bind at 1.
  destruct (load s m) as [x m1|e m1|] eqn:E;
    [|unfold load in E; repeat case_match; done|done].
  apply load_inv in E as [-> _]. unfold bind.
  by rewrite (store_past_the_end m q buf i x).
Qed.

Lemma shift_past_the_end g assign m (q : option loc) buf i :
  assigns g assign →
  buffer m q = Some buf → i < length buf →
  backward_loop assign (length buf - i) (Ptr q (length buf))
    (Ptr q (length buf + 1)) m = Undefined.
Proof.
  intros Ha Hbuf Hi.
  destruct (length buf - i) as [|n] eqn:E; [lia|]. simpl.
  unfold ptr_pred. cbn [off base].
  destruct (length buf) as [|k] eqn:Ek; [lia|].
  rewrite bind_ret_l. rewrite Nat.add_1_r. rewrite bind_ret_l.
  unfold bind.
  by rewrite (assign_past_the_end g assign m q buf (S k) _ Ha Hbuf
                ltac:(lia)).
Qed.

(** On a vector whose block ends at [size_] while [capacity_] says there
    is room, the calls that write [arr_[size_]] leave the block. *)
Lemma short_block_overflows this m v buf :
  objs m !! this = Some v → buffer m (arr_ v) = Some buf →
  length buf = size_ v → size_ v < capacity_ v →
  (∀ item, PushBack Type_default moved_from this item m = Undefined)
  ∧ (∀ item, PushBack_move Type_default moved_from this item m = Undefined)
  ∧ (∀ pos value,
       Insert Type_default moved_from this pos value m = Undefined)
  ∧ (∀ pos value,
       Insert_move Type_default moved_from this pos value m = Undefined)
  ∧ (∀ new_size,
       size_ v < new_size ≤ capacity_ v →
       Resize Type_default moved_from this new_size m = Undefined).
Proof.
  intros Hthis Hbuf Hlen Hroom.
  pose proof (grow_if_full_with_room Type_default moved_from this m v Hthis
                ltac:(lia)) as Hgrow.
  split; [|split; [|split; [|split]]].
  - intros item. unfold PushBack. rewrite (bind_Ret _ _ _ _ _ Hgrow).
    mstep. unfold bind.
    by rewrite (assign_past_the_end id copy_assign m (arr_ v) buf (size_ v)
                  item copy_assign_assigns Hbuf ltac:(lia)).
  - intros item. unfold PushBack_move. rewrite (bind_Ret _ _ _ _ _ Hgrow).
    mstep. unfold bind.
    by rewrite (assign_past_the_end moved_from (move_assign moved_from) m
                  (arr_ v) buf (size_ v) item (move_assign_assigns moved_from)
                  Hbuf ltac:(lia)).
  - intros [pb i] value.
    unfold Insert, cbegin, begin, end_, std_copy_backward. repeat mstep.
    destruct (ptr_le _ _ && ptr_le _ _) eqn:Hpos; [|done].
    apply andb_true_iff in Hpos as [[Hb _]%ptr_le_inv [_ Hi]%ptr_le_inv].
    cbn [base off] in Hb, Hi. subst pb.
    rewrite (bind_Ret _ _ _ _ _ (assert_true m)). repeat mstep.
    rewrite (bind_Ret _ _ _ _ _ (distance_eq m (arr_ v) 0 i ltac:(lia))).
    rewrite Nat.sub_0_r. rewrite (bind_Ret _ _ _ _ _ Hgrow).
    repeat mstep. unfold ptr_add. cbn [base off]. rewrite ?bind_assoc.
    rewrite ?Nat.add_0_l.
    rewrite (bind_Ret _ _ _ _ _ (distance_eq m (arr_ v) i (size_ v)
                                   ltac:(lia))).
    rewrite <- Hlen in *.
    destruct (decide (i < length buf)) as [Hlt|Hge].
    + unfold bind at 1.
      by rewrite (shift_past_the_end id copy_assign m (arr_ v) buf i
                    copy_assign_assigns Hbuf Hlt).
    + replace (length buf - i) with 0 by lia. simpl. rewrite bind_ret_l.
      mstep. unfold bind.
      by rewrite (assign_past_the_end id copy_assign m (arr_ v) buf i
                    value copy_assign_assigns Hbuf ltac:(lia)).
  - intros [pb i] value.
    unfold Insert_move, cbegin, begin, end_, std_move_backward.
    repeat mstep.
    destruct (ptr_le _ _ && ptr_le _ _) eqn:Hpos; [|done].
    apply andb_true_iff in Hpos as [[Hb _]%ptr_le_inv [_ Hi]%ptr_le_inv].
    cbn [base off] in Hb, Hi. subst pb.
    rewrite (bind_Ret _ _ _ _ _ (assert_true m)). repeat mstep.
    rewrite (bind_Ret _ _ _ _ _ (distance_eq m (arr_ v) 0 i ltac:(lia))).
    rewrite Nat.sub_0_r. rewrite (bind_Ret _ _ _ _ _ Hgrow).
    repeat mstep. unfold ptr_add. cbn [base off]. rewrite ?bind_assoc.
    rewrite ?Nat.add_0_l.
    rewrite (bind_Ret _ _ _ _ _ (distance_eq m (arr_ v) i (size_ v)
                                   ltac:(lia))).
    rewrite <- Hlen in *.
    destruct (decide (i < length buf)) as [Hlt|Hge].
    + unfold bind at 1.
      by rewrite (shift_past_the_end moved_from (move_assign moved_from) m
                    (arr_ v) buf i (move_assign_assigns moved_from) Hbuf
                    Hlt).
    + replace (length buf - i) with 0 by lia. simpl. rewrite bind_ret_l.
      mstep. unfold bind.
      by rewrite (assign_past_the_end moved_from (move_assign moved_from) m
                    (arr_ v) buf i value (move_assign_assigns moved_from)
                    Hbuf ltac:(lia)).
  - intros new_size Hn. unfold Resize. mstep.
    replace (new_size <=? size_ v) with false
      by (symmetry; apply Nat.leb_gt; lia).
    replace (new_size <=? capacity_ v) with true
      by (symmetry; apply Nat.leb_le; lia).
    unfold begin. repeat mstep. unfold ptr_add. cbn [base off].
    destruct (new_size - size_ v) as [|n] eqn:E; [lia|]. simpl.
    rewrite ?Nat.add_0_l. unfold bind.
    by rewrite (store_past_the_end m (arr_ v) buf (size_ v) Type_default
                  Hbuf ltac:(lia)).
Qed.
End Overflow.

(** ** The claims *)

Section Claims.
Context {T : Type}.
Variable Type_default : T.
Variable moved_from : T → T.
Variable Type_eq : T → T → bool.
Variable Type_lt : T → T → bool.
Implicit Types (m : mem T) (v : SimpleVector) (pos : ptr).

(** C1, as the code has it.  Move construction gives the new vector the
    source's block, size and capacity, and the source is left with size 0.
    Move assignment from a vector that is not empty into a distinct vector
    [b] gives [b] the source's block, size and capacity; the source is left
    with size 0 and holds [b]'s former block and capacity, which are not
    reset.  Move assignment from an empty vector only clears [b]: [b] keeps
    its own block and capacity and the source is as it was. *)
Theorem move_transfers_the_block m a b va vb bufa :
  objs m !! a = Some va → buffer m (arr_ va) = Some bufa →
  objs m !! b = Some vb → b ≠ a →
  (∃ b' va' m',
     SimpleVector_move Type_default a m = Ret b' m'
     ∧ b' ≠ a
     ∧ objs m' !! b' = Some va
     ∧ buffer m' (arr_ va) = Some bufa
     ∧ objs m' !! a = Some va'
     ∧ size_ va' = 0)
  ∧ (size_ va ≠ 0 →
     ∃ m',
       assign_move b a m = Ret b m'
       ∧ heap m' = heap m
       ∧ objs m' !! b = Some va
       ∧ objs m' !! a = Some (mkSimpleVector (arr_ vb) 0 (capacity_ vb)))
  ∧ (size_ va = 0 →
     ∃ m',
       assign_move b a m = Ret b m'
       ∧ heap m' = heap m
       ∧ objs m' !! b = Some (mkSimpleVector (arr_ vb) 0 (capacity_ vb))
       ∧ objs m' !! a = Some va).
Proof.
  intros Ha Hbufa Hb Hne. split; [|split].
  - destruct (SimpleVector_move_spec Type_default a m va Ha)
      as (q & m' & Hrun & Hobjs & Hbuf & Halloc).
    pose proof (fresh_object m) as Hfresh.
    assert (fresh (dom (objs m)) ≠ a) as Hne' by congruence.
    exists (fresh (dom (objs m))), (mkSimpleVector q 0 (capacity_ va)), m'.
    split; [done|]. split; [done|]. rewrite Hobjs.
    split; [by rewrite lookup_insert_ne, lookup_insert_eq|].
    split; [by apply (allocates_buffer m m' q)|].
    split; [by rewrite lookup_insert_eq|done].
  - intros Hsize. eexists.
    split; [by apply (assign_move_eq b a m vb va)|]. cbn [heap objs].
    apply Nat.eqb_neq in Hsize. rewrite Hsize.
    split; [done|]. split.
    + by rewrite lookup_insert_ne, lookup_insert_eq.
    + by rewrite lookup_insert_eq.
  - intros Hsize. eexists.
    split; [by apply (assign_move_eq b a m vb va)|]. cbn [heap objs].
    rewrite Hsize. simpl. split; [done|]. split.
    + by rewrite lookup_insert_eq.
    + by rewrite lookup_insert_ne.
Qed.


(** C4 fails on the code.  Copy construction from a vector that owns its
    block gives a new object with the source's size, the source's capacity
    as its reported capacity and the source's elements in order, in a block
    of its own, and leaves the source as it was; but that block holds
    [size_] elements only.  When the source has room
    ([size_ < capacity_]), every [PushBack] and every [Insert] on the copy,
    in either overload, and every [Resize] to a size within the capacity
    writes past the end of the copy's block: the mutation is undefined, and
    with it what is left of the source. *)
Theorem copy_with_room_overflows_its_block m a va bufa :
  owned a va bufa m → length bufa = capacity_ va →
  size_ va < capacity_ va →
  ∃ c vc m',
    SimpleVector_copy Type_default a m = Ret c m'
    ∧ c ≠ a
    ∧ objs m' !! c = Some vc
    ∧ size_ vc = size_ va
    ∧ GetCapacity c m' = Ret (capacity_ va) m'
    ∧ buffer m' (arr_ vc) = Some (take (size_ va) bufa)
    ∧ (arr_ vc = None ∨ arr_ vc ≠ arr_ va)
    ∧ owned a va bufa m'
    ∧ allocated m' c = Some (size_ va)
    ∧ (∀ item, PushBack Type_default moved_from c item m' = Undefined)
    ∧ (∀ item, PushBack_move Type_default moved_from c item m' = Undefined)
    ∧ (∀ pos value,
         Insert Type_default moved_from c pos value m' = Undefined)
    ∧ (∀ pos value,
         Insert_move Type_default moved_from c pos value m' = Undefined)
    ∧ (∀ new_size,
         size_ va < new_size ≤ capacity_ va →
         Resize Type_default moved_from c new_size m' = Undefined).
Proof.
  intros (Ha & Hbufa & Hex) Hlen Hroom.
  destruct (SimpleVector_copy_spec Type_default a m va bufa Ha Hbufa)
    as (q & m' & Hrun & Hobjs & Hbuf & Halloc); [lia|].
  pose proof (fresh_object m) as Hfresh.
  set (c := fresh (dom (objs m))) in *.
  assert (c ≠ a) as Hne by congruence.
  assert (q = None ∨ q ≠ arr_ va) as Hq.
  { destruct q as [l|]; [right|by left]. intros Heq.
    destruct Halloc as [_ Hnew]. specialize (Hnew l eq_refl).
    rewrite <- Heq in Hbufa. simpl in Hbufa. congruence. }
  assert (owned a va bufa m') as Hown.
  { split; [|split].
    - by rewrite Hobjs, lookup_insert_ne.
    - by apply (allocates_buffer m m' q).
    - intros r v Hr. rewrite Hobjs.
      destruct (decide (r = c)) as [->|Hrc].
      + rewrite lookup_insert_eq. by intros [= <-].
      + rewrite lookup_insert_ne by done. by apply Hex. }
  set (vc := mkSimpleVector q (size_ va) (capacity_ va)).
  assert (objs m' !! c = Some vc) as Hc
    by (by rewrite Hobjs, lookup_insert_eq).
  assert (length (take (size_ va) bufa) = size_ va) as Hshort
    by (rewrite length_take; lia).
  destruct (short_block_overflows Type_default moved_from c m' vc
              (take (size_ va) bufa) Hc Hbuf Hshort Hroom)
    as (Hpush & Hpush' & Hins & Hins' & Hres).
  exists c, vc, m'. cbn [arr_ size_ capacity_].
  split; [done|]. split; [done|]. split; [done|]. split; [done|]. split.
  { unfold GetCapacity.
    erewrite (bind_Ret (get _)) by (by apply get_eq). done. }
  split; [done|]. split; [done|]. split; [done|]. split.
  { unfold allocated. rewrite Hc. unfold vc. cbn [arr_]. rewrite Hbuf.
    simpl.
    by rewrite Hshort. }
  done.
Qed.

(** C5.  [Resize(new_size)] on a vector that satisfies the class invariant:
    when [new_size <= size_] only the size changes (same block, same
    capacity, every element as it was); when
    [size_ < new_size <= capacity_] the block and the capacity stay, the
    elements [[size_, new_size)] become [Type{}] and the first [size_] are
    kept; otherwise the capacity becomes exactly [new_size] and the first
    [size_] elements are kept in order.  The size is [new_size] in all
    cases. *)
Theorem Resize_by_cases m this v buf new_size :
  objs m !! this = Some v → buffer m (arr_ v) = Some buf →
  length buf = capacity_ v → size_ v ≤ capacity_ v →
  ∃ v' buf' m',
    Resize Type_default moved_from this new_size m = Ret tt m'
    ∧ objs m' !! this = Some v'
    ∧ buffer m' (arr_ v') = Some buf'
    ∧ length buf' = capacity_ v'
    ∧ size_ v' = new_size
    ∧ (new_size ≤ size_ v →
       arr_ v' = arr_ v ∧ capacity_ v' = capacity_ v ∧ buf' = buf)
    ∧ (size_ v < new_size → new_size ≤ capacity_ v →
       arr_ v' = arr_ v ∧ capacity_ v' = capacity_ v
       ∧ take (size_ v) buf' = take (size_ v) buf
       ∧ ∀ k, size_ v ≤ k < new_size → buf' !! k = Some Type_default)
    ∧ (capacity_ v < new_size →
       capacity_ v' = new_size
       ∧ take (size_ v) buf' = take (size_ v) buf).
Proof.
  intros Hthis Hbuf Hlen Hsize.
  destruct (Resize_spec Type_default moved_from this new_size m v buf
              Hthis Hbuf Hlen Hsize)
    as (q & c & buf' & m' & Hrun & Hobjs & Hbuf' & Hlen' & Hshrink & Hfit
        & Hgrow & Htake & Hfill).
  exists (mkSimpleVector q new_size c), buf', m'. cbn [arr_ size_ capacity_].
  split; [done|]. split; [by rewrite Hobjs, lookup_insert_eq|].
  repeat split; try done; try (by apply Hshrink); try (by apply Hfit).
  by apply Hgrow.
Qed.

Lemma inserted_read m' q (buf' xs : list T) n i value :
  buffer m' q = Some buf' → length xs = n → i ≤ n →
  take (n + 1) buf' = take i xs ++ value :: drop i xs →
  load (Ptr q i) m' = Ret value m'
  ∧ (i = 0 → take (n + 1) buf' = value :: xs)
  ∧ (i = n → take (n + 1) buf' = xs ++ [value]).
Proof.
  intros Hbuf' Hxs Hi Htake.
  assert (n + 1 ≤ length buf') as Hlen.
  { apply (f_equal length) in Htake.
    rewrite length_take, length_app, length_take in Htake. simpl in Htake.
    rewrite length_drop in Htake. lia. }
  split; [|split].
  - destruct (buffer_nonempty _ _ _ Hbuf') as (l & -> & Hl); [lia|].
    apply load_eq with buf'; [done|].
    rewrite <- (lookup_take_lt buf' (n + 1)) by lia.
    rewrite Htake. apply list_lookup_middle.
    rewrite length_take. lia.
  - intros ->. rewrite Htake. by rewrite take_0, drop_0.
  - intros ->. rewrite Htake. rewrite take_ge, drop_ge by lia. done.
Qed.

(** C6, as the code has it.  [Insert] takes [value] by reference and
    reads it after the growth and the shift, so [value] has to be bound to
    an object outside the vector's block, holding [x].  For a vector that
    satisfies the class invariant, such a [value] and a position
    [begin() <= pos <= end()], with [i = pos - begin()]: both overloads of
    [Insert] leave the elements before [i] where they are, put [x] at
    index [i] and the old elements from [i] on after it in their order,
    make the size one more, and return [begin() + i] in the new block,
    through which [x] is read.  At [begin()] the result is [x] followed by
    the old elements, at [end()] the old elements followed by [x].  The
    [Type&&] overload leaves [Type{}] in the object [value] is bound
    to. *)
Theorem Insert_shifts_and_writes m this v buf pos value x :
  objs m !! this = Some v → buffer m (arr_ v) = Some buf →
  length buf = capacity_ v → size_ v ≤ capacity_ v →
  fits (2 * size_ v) →
  ptr_le (Ptr (arr_ v) 0) pos = true →
  ptr_le pos (Ptr (arr_ v) (size_ v)) = true →
  load value m = Ret x m → base value ≠ arr_ v →
  (∃ v' buf' m',
     Insert Type_default moved_from this pos value m
     = Ret (Ptr (arr_ v') (off pos)) m'
     ∧ objs m' !! this = Some v'
     ∧ buffer m' (arr_ v') = Some buf'
     ∧ size_ v' = size_ v + 1
     ∧ take (size_ v') buf'
       = take (off pos) (take (size_ v) buf)
         ++ x :: drop (off pos) (take (size_ v) buf)
     ∧ load (Ptr (arr_ v') (off pos)) m' = Ret x m'
     ∧ (off pos = 0 → take (size_ v') buf' = x :: take (size_ v) buf)
     ∧ (off pos = size_ v →
        take (size_ v') buf' = take (size_ v) buf ++ [x]))
  ∧ (∃ v' buf' m',
       Insert_move Type_default moved_from this pos value m
       = Ret (Ptr (arr_ v') (off pos)) m'
       ∧ objs m' !! this = Some v'
       ∧ buffer m' (arr_ v') = Some buf'
       ∧ size_ v' = size_ v + 1
       ∧ take (size_ v') buf'
         = take (off pos) (take (size_ v) buf)
           ++ x :: drop (off pos) (take (size_ v) buf)
       ∧ load (Ptr (arr_ v') (off pos)) m' = Ret x m'
       ∧ (off pos = 0 → take (size_ v') buf' = x :: take (size_ v) buf)
       ∧ (off pos = size_ v →
          take (size_ v') buf' = take (size_ v) buf ++ [x])
       ∧ load value m' = Ret Type_default m').
Proof.
  intros Hthis Hbuf Hlen Hsize Hfits [Hbase _]%ptr_le_inv
    [_ Hoff]%ptr_le_inv Hload Hout.
  cbn [base off] in Hbase, Hoff. symmetry in Hbase.
  assert (length (take (size_ v) buf) = size_ v) as Hxs
    by (rewrite length_take; lia).
  split.
  - destruct (Insert_spec Type_default moved_from this pos value x m v buf)
      as (q & c & buf' & m' & Hrun & Hobjs & Hbuf' & Hlen' & Htake & _);
      try done.
    exists (mkSimpleVector q (size_ v + 1) c), buf', m'.
    cbn [arr_ size_ capacity_].
    split; [done|]. split; [by rewrite Hobjs, lookup_insert_eq|].
    split; [done|]. split; [done|]. split; [done|].
    by apply inserted_read.
  - destruct (Insert_move_spec Type_default moved_from this pos value x m v
                buf)
      as (q & c & buf' & m' & Hrun & Hobjs & Hbuf' & Hlen' & Htake & _
          & Hreset & _);
      try done.
    exists (mkSimpleVector q (size_ v + 1) c), buf', m'.
    cbn [arr_ size_ capacity_].
    split; [done|]. split; [by rewrite Hobjs, lookup_insert_eq|].
    split; [done|]. split; [done|]. split; [done|].
    destruct (inserted_read m' q buf' (take (size_ v) buf) (size_ v)
                (off pos) x Hbuf' Hxs Hoff Htake) as (H1 & H2 & H3).
    done.
Qed.

(** C7.  [At(index)] throws [std::out_of_range] exactly when
    [index >= size_], and the memory it throws from is the memory it was
    called in; for [index < size_] it returns the pointer [begin() + index],
    through which the element at that index is read. *)
Theorem At_checks_the_index m this v index :
  objs m !! this = Some v →
  (At this index m = Throw out_of_range m ↔ size_ v ≤ index)
  ∧ (∀ e m', At this index m = Throw e m' → m' = m ∧ size_ v ≤ index)
  ∧ (index < size_ v →
     At this index m = Ret (Ptr (arr_ v) index) m
     ∧ ∀ buf x,
         buffer m (arr_ v) = Some buf → buf !! index = Some x →
         load (Ptr (arr_ v) index) m = Ret x m).
Proof.
  intros Hthis. rewrite (At_spec this index m v Hthis).
  case_decide as Hi.
  - split; [done|]. split; [intros e m' H; by inversion H|]. lia.
  - split; [split; [done|lia]|]. split; [done|]. intros _.
    split; [done|]. intros buf x Hbuf Hx.
    destruct (buffer_nonempty _ _ _ Hbuf) as (l & Hl & Hheap).
    { apply lookup_lt_Some in Hx. lia. }
    rewrite Hl. by apply load_eq with buf.
Qed.

(** C8.  For a vector whose live elements lie in its block and a position
    [begin() <= pos < end()], with [i = pos - begin()]: [Erase] leaves the
    elements before [i] where they are, moves each later element one slot
    toward the beginning in order, makes the size one less, and returns
    [pos] itself, which then addresses the element that followed the erased
    one, or is [end()] when the last element was erased. *)
Theorem Erase_shifts_back m this v buf pos :
  objs m !! this = Some v → buffer m (arr_ v) = Some buf →
  size_ v ≤ length buf → fits (size_ v) →
  ptr_le (Ptr (arr_ v) 0) pos = true →
  ptr_lt pos (Ptr (arr_ v) (size_ v)) = true →
  ∃ v' buf' m',
    Erase moved_from this pos m = Ret pos m'
    ∧ objs m' !! this = Some v'
    ∧ buffer m' (arr_ v') = Some buf'
    ∧ arr_ v' = arr_ v ∧ capacity_ v' = capacity_ v
    ∧ size_ v' + 1 = size_ v
    ∧ take (size_ v') buf'
      = take (off pos) (take (size_ v) buf)
        ++ drop (S (off pos)) (take (size_ v) buf)
    ∧ (∀ next, take (size_ v) buf !! S (off pos) = Some next →
               load pos m' = Ret next m')
    ∧ (S (off pos) = size_ v → pos = Ptr (arr_ v') (size_ v')).
Proof.
  intros Hthis Hbuf Hsize Hfits [Hbase _]%ptr_le_inv [_ Hoff]%ptr_lt_inv.
  cbn [base off] in Hbase, Hoff. symmetry in Hbase.
  destruct (Erase_spec moved_from this pos m v buf)
    as (buf' & m' & Hrun & Hobjs & Hbuf' & Hlen' & Htake & _); try done.
  exists (mkSimpleVector (arr_ v) (size_ v - 1) (capacity_ v)), buf', m'.
  cbn [arr_ size_ capacity_].
  split; [done|]. split; [by rewrite Hobjs, lookup_insert_eq|].
  split; [done|]. split; [done|]. split; [done|]. split; [lia|].
  split; [done|]. split.
  - intros next Hnext.
    assert (S (off pos) < size_ v) as Hlt.
    { apply lookup_lt_Some in Hnext. rewrite length_take in Hnext. lia. }
    destruct pos as [pb i]. cbn [base off] in *. subst pb.
    destruct (buffer_nonempty _ _ _ Hbuf') as (l & -> & Hl); [lia|].
    apply load_eq with buf'; [done|].
    rewrite <- (lookup_take_lt buf' (size_ v - 1)) by lia.
    rewrite Htake.
    rewrite lookup_app_r by (rewrite !length_take; lia).
    rewrite !length_take, lookup_drop. rewrite <- Hnext. f_equal. lia.
  - intros Hlast. destruct pos as [pb i]. cbn [base off] in *. subst pb.
    f_equal. lia.
Qed.

(** C9.  [a == b] is true exactly when the sizes agree and the elements are
    pairwise equal in order; [a < b] is true exactly when [a]'s elements are
    lexicographically less than [b]'s; and [!=], [<=], [>], [>=] are
    [!(a == b)], [!(b < a)], [b < a] and [!(a < b)]. *)
Theorem comparison_operators m a b va vb bufa bufb :
  objs m !! a = Some va → buffer m (arr_ va) = Some bufa →
  size_ va ≤ length bufa →
  objs m !! b = Some vb → buffer m (arr_ vb) = Some bufb →
  size_ vb ≤ length bufb →
  ∃ eq_ab lt_ab lt_ba,
    operator_eq Type_eq a b m = Ret eq_ab m
    ∧ operator_lt Type_lt a b m = Ret lt_ab m
    ∧ operator_lt Type_lt b a m = Ret lt_ba m
    ∧ (eq_ab = true ↔
       size_ va = size_ vb
       ∧ Forall2 (λ x y, Type_eq x y = true)
           (take (size_ va) bufa) (take (size_ vb) bufb))
    ∧ (lt_ab = true ↔
       lexicographically_less Type_lt
         (take (size_ va) bufa) (take (size_ vb) bufb))
    ∧ operator_ne Type_eq a b m = Ret (negb eq_ab) m
    ∧ operator_le Type_lt a b m = Ret (negb lt_ba) m
    ∧ operator_gt Type_lt a b m = Ret lt_ba m
    ∧ operator_ge Type_lt a b m = Ret (negb lt_ab) m.
Proof.
  intros Ha Hbufa Hsa Hb Hbufb Hsb.
  destruct (operator_eq_spec Type_eq a b m va vb bufa bufb)
    as (eq_ab & Heq & Heq_iff); try done.
  destruct (operator_lt_spec Type_lt a b m va vb bufa bufb)
    as (lt_ab & Hlt & Hlt_iff); try done.
  destruct (operator_lt_spec Type_lt b a m vb va bufb bufa)
    as (lt_ba & Hlt' & _); try done.
  exists eq_ab, lt_ab, lt_ba.
  unfold operator_ne, operator_le, operator_ge, operator_gt.
  rewrite (bind_Ret _ _ _ _ _ Heq), (bind_Ret _ _ _ _ _ Hlt').
  rewrite (bind_Ret _ _ _ _ _ Hlt). done.
Qed.

(** C10.  Assigning a vector to itself, by copy or by move, returns with
    the memory untouched: the vector keeps its size, capacity and
    elements. *)
Theorem self_assignment_is_a_no_op m this :
  assign_copy Type_default this this m = Ret this m
  ∧ assign_move this this m = Ret this m.
Proof. split; [apply assign_copy_self|apply assign_move_self]. Qed.

End Claims.

(** ** The claims on vectors of [int] *)

Lemma m123_constructed :
  SimpleVector_init int_default [1; 2; 3]%Z empty_mem = Ret 1%positive m123.
Proof. vm_compute. reflexivity. Qed.

Lemma m123_124_constructed :
  (a <- SimpleVector_init int_default [1; 2; 3]%Z;;
   SimpleVector_init int_default [1; 2; 4]%Z) empty_mem
  = Ret 2%positive m123_124.
Proof. vm_compute. reflexivity. Qed.

Lemma m_default_constructed :
  SimpleVector_default (T := Z) empty_mem = Ret 1%positive m_default.
Proof. vm_compute. reflexivity. Qed.

Lemma m123_owned : owned 1%positive v123 [1; 2; 3]%Z m123.
Proof.
  split; [reflexivity|]. split; [reflexivity|].
  intros r v Hr Hv. unfold m123 in Hv. cbn [objs] in Hv.
  rewrite lookup_singleton_ne in Hv by done. done.
Qed.

(** C1, a move-assignment from [{1, 2, 3}] into [{1, 2, 4}]: the target
    takes over the source's block, size and capacity, and the source is
    left with size 0 and the target's former block and capacity. *)
Lemma move_transfers_the_block_witness :
  ∃ m',
    assign_move 2%positive 1%positive m123_124 = Ret 2%positive m'
    ∧ heap m' = heap m123_124
    ∧ objs m' !! 2%positive = Some v123
    ∧ objs m' !! 1%positive = Some (mkSimpleVector (Some 2%positive) 0 3).
Proof.
  destruct (move_transfers_the_block int_default m123_124 1%positive
              2%positive v123 v124 [1; 2; 3]%Z)
    as (_ & Hassign & _); [reflexivity|reflexivity|reflexivity|done|].
  apply Hassign. simpl. lia.
Defined.

(** C1 as stated fails: after [b = std::move(a)] with [a = {1, 2, 3}] and
    [b = {7}] the source [a] has capacity 1, and after
    [SimpleVector b(std::move(a))] it has capacity 3; the claim says 0 in
    both cases. *)
Lemma move_leaves_a_capacity_counterexample :
  value_of
    ((a <- SimpleVector_init int_default [1; 2; 3]%Z;;
      b <- SimpleVector_init int_default [7]%Z;;
      assign_move b a;;
      GetCapacity a) empty_mem) = Some 1
  ∧ value_of
      ((a <- SimpleVector_init int_default [1; 2; 3]%Z;;
        b <- SimpleVector_move int_default a;;
        GetCapacity a) empty_mem) = Some 3.
Proof. split; vm_compute; reflexivity. Qed.

(** C2 fails on the code.  The copy of a vector made with [Reserve(2)]
    reports capacity 2 over a block of no element, and [PushBack] on that
    copy writes outside the block; the source of a move construction from a
    vector of size 1 and capacity 2 is left with capacity 2 over a block of
    one element, and the second [PushBack] on it writes outside the
    block. *)
Theorem copy_and_move_break_the_storage_invariant :
  value_of
    ((a <- SimpleVector_reserved int_default (Reserve 2);;
      b <- SimpleVector_copy int_default a;;
      c <- GetCapacity b;;
      fun m => Ret (c, allocated m b) m) empty_mem)
  = Some (2, Some 0)
  ∧ (a <- SimpleVector_reserved int_default (Reserve 2);;
     b <- SimpleVector_copy int_default a;;
     x <- local 5%Z;;
     PushBack int_default int_moved_from b x) empty_mem
    = Undefined
  ∧ value_of
      ((a <- SimpleVector_reserved int_default (Reserve 2);;
        x <- local 1%Z;;
        PushBack int_default int_moved_from a x;;
        b <- SimpleVector_move int_default a;;
        c <- GetCapacity a;;
        fun m => Ret (c, allocated m a) m) empty_mem)
    = Some (2, Some 1)
  ∧ (a <- SimpleVector_reserved int_default (Reserve 2);;
     x <- local 1%Z;;
     PushBack int_default int_moved_from a x;;
     b <- SimpleVector_move int_default a;;
     y <- local 2%Z;;
     PushBack int_default int_moved_from a y;;
     z <- local 3%Z;;
     PushBack int_default int_moved_from a z) empty_mem
    = Undefined.
Proof. repeat split; vm_compute; reflexivity. Qed.



Lemma m12_4_owned : owned 1%positive v12_4 [1; 2; 0; 0]%Z m12_4.
Proof.
  split; [reflexivity|]. split; [reflexivity|].
  intros r v Hr Hv. unfold m12_4 in Hv. cbn [objs] in Hv.
  rewrite lookup_singleton_ne in Hv by done. done.
Qed.

(** C4 on [{1, 2}] with capacity 4: the copy reports capacity 4 over a
    block of two elements, and [PushBack], [Insert] and [Resize(3)] on it
    are undefined. *)
Lemma copy_with_room_overflows_its_block_witness :
  ∃ c vc m',
    SimpleVector_copy int_default 1%positive m12_4 = Ret c m'
    ∧ c ≠ 1%positive
    ∧ objs m' !! c = Some vc
    ∧ size_ vc = 2
    ∧ GetCapacity c m' = Ret 4 m'
    ∧ buffer m' (arr_ vc) = Some [1; 2]%Z
    ∧ allocated m' c = Some 2
    ∧ (∀ item, PushBack int_default int_moved_from c item m' = Undefined)
    ∧ (∀ pos value,
         Insert int_default int_moved_from c pos value m' = Undefined)
    ∧ Resize int_default int_moved_from c 3 m' = Undefined.
Proof.
  destruct (copy_with_room_overflows_its_block int_default int_moved_from
              m12_4 1%positive v12_4 [1; 2; 0; 0]%Z)
    as (c & vc & m' & Hrun & Hne & Hobj & Hsize & Hcap & Hbuf & _ & _
        & Halloc & Hpush & _ & Hins & _ & Hres);
    [exact m12_4_owned|reflexivity|simpl; lia|].
  exists c, vc, m'. repeat split; try assumption.
  apply Hres. simpl. lia.
Defined.

(** C5 on [{1, 2, 3}]: [Resize(5)] grows the capacity to 5 and keeps the
    three elements. *)
Lemma Resize_by_cases_witness :
  ∃ v' buf' m',
    Resize int_default int_moved_from 1%positive 5 m123 = Ret tt m'
    ∧ objs m' !! 1%positive = Some v'
    ∧ buffer m' (arr_ v') = Some buf'
    ∧ size_ v' = 5
    ∧ capacity_ v' = 5
    ∧ take 3 buf' = [1; 2; 3]%Z.
Proof.
  destruct (Resize_by_cases int_default int_moved_from m123 1%positive v123
              [1; 2; 3]%Z 5)
    as (v' & buf' & m' & Hrun & Hobj & Hbuf & _ & Hsize & _ & _ & Hgrow);
    [reflexivity|reflexivity|reflexivity|simpl; lia|].
  destruct Hgrow as [Hcap Htake]; [simpl; lia|].
  exists v', buf', m'. repeat split; assumption.
Defined.

(** C6 on [{1, 2, 3}], with the last element of [{1, 2, 4}] as the value:
    [Insert(begin(), 4)] gives [{4, 1, 2, 3}] and [Insert(end(), 4)] gives
    [{1, 2, 3, 4}]. *)
Lemma Insert_shifts_and_writes_witness :
  (∃ v' buf' m',
     Insert int_default int_moved_from 1%positive (Ptr (Some 1%positive) 0)
       (Ptr (Some 2%positive) 2) m123_124 = Ret (Ptr (arr_ v') 0) m'
     ∧ objs m' !! 1%positive = Some v'
     ∧ buffer m' (arr_ v') = Some buf'
     ∧ size_ v' = 4
     ∧ take (size_ v') buf' = [4; 1; 2; 3]%Z
     ∧ load (Ptr (arr_ v') 0) m' = Ret 4%Z m')
  ∧ (∃ v' buf' m',
       Insert int_default int_moved_from 1%positive (Ptr (Some 1%positive) 3)
         (Ptr (Some 2%positive) 2) m123_124 = Ret (Ptr (arr_ v') 3) m'
       ∧ objs m' !! 1%positive = Some v'
       ∧ buffer m' (arr_ v') = Some buf'
       ∧ size_ v' = 4
       ∧ take (size_ v') buf' = [1; 2; 3; 4]%Z
       ∧ load (Ptr (arr_ v') 3) m' = Ret 4%Z m').
Proof.
  split.
  - destruct (Insert_shifts_and_writes int_default int_moved_from m123_124
                1%positive v123 [1; 2; 3]%Z (Ptr (Some 1%positive) 0)
                (Ptr (Some 2%positive) 2) 4%Z)
      as [(v' & buf' & m' & Hrun & Hobj & Hbuf & Hsize & Htake & Hload & _) _];
      [first [reflexivity | by vm_compute]..|].
    exists v', buf', m'. repeat split; assumption.
  - destruct (Insert_shifts_and_writes int_default int_moved_from m123_124
                1%positive v123 [1; 2; 3]%Z (Ptr (Some 1%positive) 3)
                (Ptr (Some 2%positive) 2) 4%Z)
      as [(v' & buf' & m' & Hrun & Hobj & Hbuf & Hsize & Htake & Hload & _) _];
      [first [reflexivity | by vm_compute]..|].
    exists v', buf', m'. repeat split; assumption.
Defined.

(** C6 as stated fails for a value that is an element of the vector
    itself.  On [{1, 2}] with capacity 4, [a[1]] is 2, and
    [a.Insert(a.begin(), a[1])] gives [{1, 1, 2}] and an iterator through
    which 1 is read: the shift has overwritten [a[1]] before it is read.
    The [Type&&] overload gives [{1, 0, 2}].  On the full [{1, 2, 3}] the
    growth releases the block [value] points into, and the call is
    undefined. *)
Lemma Insert_of_an_own_element_counterexample :
  value_of ((value <- subscript 1%positive 1;; load value) m12_4)
  = Some 2%Z
  ∧ value_of
      ((value <- subscript 1%positive 1;;
        pos <- begin 1%positive;;
        it <- Insert int_default int_moved_from 1%positive pos value;;
        x <- load it;;
        fun m => Ret (x, buffer m (Some 2%positive)) m) m12_4)
    = Some (1%Z, Some [1; 1; 2; 0]%Z)
  ∧ value_of
      ((value <- subscript 1%positive 1;;
        pos <- begin 1%positive;;
        it <- Insert_move int_default int_moved_from 1%positive pos value;;
        x <- load it;;
        fun m => Ret (x, buffer m (Some 2%positive)) m) m12_4)
    = Some (1%Z, Some [1; 0; 2; 0]%Z)
  ∧ (value <- subscript 1%positive 1;;
     pos <- begin 1%positive;;
     Insert int_default int_moved_from 1%positive pos value) m123
    = Undefined.
Proof. repeat split; vm_compute; reflexivity. Qed.

(** C7 on [{1, 2, 3}] and on a default-constructed vector: [At(3)] and
    [At(0)] throw. *)
Lemma At_checks_the_index_witness :
  At 1%positive 3 m123 = Throw out_of_range m123
  ∧ At 1%positive 0 m_default = Throw out_of_range m_default
  ∧ At 1%positive 2 m123 = Ret (Ptr (Some 1%positive) 2) m123.
Proof.
  split; [|split].
  - apply (At_checks_the_index m123 1%positive v123 3); [reflexivity|].
    simpl. lia.
  - apply (At_checks_the_index m_default 1%positive (mkSimpleVector None 0 0) 0);
      [reflexivity|]. simpl. lia.
  - apply (At_checks_the_index m123 1%positive v123 2); [reflexivity|].
    simpl. lia.
Defined.

(** C8 on [{1, 2, 3}]: [Erase(begin())] gives [{2, 3}] and returns
    [begin()], through which 2 is read. *)
Lemma Erase_shifts_back_witness :
  ∃ v' buf' m',
    Erase int_moved_from 1%positive (Ptr (Some 1%positive) 0) m123
    = Ret (Ptr (Some 1%positive) 0) m'
    ∧ objs m' !! 1%positive = Some v'
    ∧ buffer m' (arr_ v') = Some buf'
    ∧ size_ v' + 1 = 3
    ∧ take (size_ v') buf' = [2; 3]%Z
    ∧ load (Ptr (Some 1%positive) 0) m' = Ret 2%Z m'.
Proof.
  destruct (Erase_shifts_back int_moved_from m123 1%positive v123
              [1; 2; 3]%Z (Ptr (Some 1%positive) 0))
    as (v' & buf' & m' & Hrun & Hobj & Hbuf & _ & _ & Hsize & Htake & Hnext
        & _);
    [reflexivity|reflexivity|simpl; lia|by vm_compute|reflexivity
    |reflexivity|].
  exists v', buf', m'. repeat split; try assumption.
  by apply Hnext.
Defined.

(** C9 on [{1, 2, 3}] and [{1, 2, 4}]. *)
Lemma comparison_operators_witness :
  ∃ eq_ab lt_ab lt_ba,
    operator_eq Z.eqb 1%positive 2%positive m123_124 = Ret eq_ab m123_124
    ∧ operator_lt Z.ltb 1%positive 2%positive m123_124 = Ret lt_ab m123_124
    ∧ operator_lt Z.ltb 2%positive 1%positive m123_124 = Ret lt_ba m123_124
    ∧ (eq_ab = true ↔
       3 = 3 ∧ Forall2 (λ x y, (x =? y)%Z = true) [1; 2; 3]%Z [1; 2; 4]%Z)
    ∧ (lt_ab = true ↔
       lexicographically_less Z.ltb [1; 2; 3]%Z [1; 2; 4]%Z)
    ∧ operator_ne Z.eqb 1%positive 2%positive m123_124
      = Ret (negb eq_ab) m123_124
    ∧ operator_le Z.ltb 1%positive 2%positive m123_124
      = Ret (negb lt_ba) m123_124
    ∧ operator_gt Z.ltb 1%positive 2%positive m123_124 = Ret lt_ba m123_124
    ∧ operator_ge Z.ltb 1%positive 2%positive m123_124
      = Ret (negb lt_ab) m123_124.
Proof.
  apply (comparison_operators Z.eqb Z.ltb m123_124 1%positive 2%positive
           v123 v124 [1; 2; 3]%Z [1; 2; 4]%Z);
    first [reflexivity | simpl; lia].
Defined.

(** ** Further lemmas *)

Section Blocks.
Context {T : Type}.
Variable Type_default : T.
Variable moved_from : T → T.
Implicit Types (m : mem T) (v : SimpleVector).

Lemma other_blocks_eq m m' q q' :
  (∀ l, q ≠ Some l → q' ≠ Some l → heap m' !! l = heap m !! l) →
  (∀ l, q = Some l → q' ≠ Some l → heap m' !! l = None) →
  (∀ l, q' = Some l → q ≠ Some l → heap m !! l = None) →
  other_blocks m' q' = other_blocks m q.
Proof.
  intros Hframe Hgone Hfresh. apply map_eq. intros l.
  destruct q as [lq|], q' as [lq'|]; simpl.
  - destruct (decide (l = lq')) as [H1|H1], (decide (l = lq)) as [H2|H2];
      subst.
    + by rewrite !lookup_delete_eq.
    + rewrite lookup_delete_eq, lookup_delete_ne by done.
      symmetry. apply Hfresh; congruence.
    + rewrite lookup_delete_eq, lookup_delete_ne by done.
      apply Hgone; congruence.
    + rewrite !lookup_delete_ne by done. apply Hframe; congruence.
  - destruct (decide (l = lq)) as [->|H2].
    + rewrite lookup_delete_eq. by apply Hgone.
    + rewrite lookup_delete_ne by done. apply Hframe; congruence.
  - destruct (decide (l = lq')) as [->|H1].
    + rewrite lookup_delete_eq. symmetry. by apply Hfresh.
    + rewrite lookup_delete_ne by done. apply Hframe; congruence.
  - by apply Hframe.
Qed.

Lemma other_blocks_store m m' q :
  (∀ l, q ≠ Some l → heap m' !! l = heap m !! l) →
  other_blocks m' q = other_blocks m q.
Proof.
  intros Hframe. destruct q as [l|]; simpl.
  - apply map_eq. intros l'. destruct (decide (l' = l)) as [->|Hl'].
    + by rewrite !lookup_delete_eq.
    + rewrite !lookup_delete_ne by done. apply Hframe. congruence.
  - apply map_eq. intros l'. by apply Hframe.
Qed.

Lemma load_other_blocks m m' (q q' : option loc) p x :
  load p m = Ret x m → base p ≠ q →
  other_blocks m' q' = other_blocks m q →
  load p m' = Ret x m' ∧ base p ≠ q'.
Proof.
  intros (_ & l & src & Hl & Hsrc & Hx)%load_inv Hout Heq.
  assert (other_blocks m q !! l = Some src) as Hm.
  { destruct q as [lq|]; simpl; [|done].
    rewrite lookup_delete_ne by congruence. done. }
  rewrite <- Heq in Hm.
  assert (heap m' !! l = Some src ∧ q' ≠ Some l) as [Hsrc' Hq'].
  { destruct q' as [lq'|]; simpl in Hm; [|done].
    apply lookup_delete_Some in Hm as [Hne Hm]. split; [done|congruence]. }
  split; [|congruence].
  destruct p as [pb i]. cbn [base off] in *. subst pb.
  by apply load_eq with src.
Qed.

Lemma buffer_other_blocks m (o : gmap ref SimpleVector) p q :
  (p = None ∨ p ≠ q) →
  buffer (Mem (other_blocks m p) o) q = buffer m q.
Proof.
  intros Hpq. destruct q as [l|]; [|done]. destruct p as [lp|]; [|done].
  simpl. apply lookup_delete_ne. destruct Hpq; congruence.
Qed.

Lemma destroy_eq this m v buf :
  objs m !! this = Some v → buffer m (arr_ v) = Some buf →
  destroy this m
  = Ret tt (Mem (other_blocks m (arr_ v)) (delete this (objs m))).
Proof.
  intros Hthis Hbuf. unfold destroy. mstep.
  destruct (arr_ v) as [l|]; simpl in *.
  - unfold bind. by rewrite Hbuf.
  - done.
Qed.

Lemma ChangeCapacity_blocks this n m v buf :
  objs m !! this = Some v → buffer m (arr_ v) = Some buf →
  size_ v ≤ length buf → size_ v ≤ n →
  ∃ q m',
    ChangeCapacity Type_default moved_from this n m = Ret tt m'
    ∧ objs m' = <[this := mkSimpleVector q (size_ v) n]> (objs m)
    ∧ (∀ l, arr_ v = Some l → heap m' !! l = None)
    ∧ other_blocks m' q = other_blocks m (arr_ v).
Proof.
  intros Hthis Hbuf Hsize Hn.
  destruct (ChangeCapacity_spec Type_default moved_from this n m v buf
              Hthis Hbuf Hsize Hn)
    as (q0 & m0 & Hrun0 & Hobjs0 & Hbuf0 & Hframe0 & Hfresh0).
  assert (∀ l, arr_ v = Some l → heap m0 !! l = None) as Hgone.
  { revert Hrun0. unfold ChangeCapacity.
    destruct (SimpleVector_sized_spec Type_default n m)
      as (q & m1 & Hnew & Hobjs1 & Hbuf1 & Hframe1 & Hfresh1).
    set (r := fresh (dom (objs m))) in *.
    assert (r ≠ this) as Hr.
    { intros Heq. pose proof (fresh_object m) as Hf. fold r in Hf.
      rewrite Heq in Hf. congruence. }
    rewrite (bind_Ret _ _ _ _ _ Hnew).
    assert (objs m1 !! this = Some v) as Hthis1.
    { rewrite Hobjs1. by rewrite lookup_insert_ne. }
    assert (objs m1 !! r = Some (mkSimpleVector q n n)) as Hr1.
    { rewrite Hobjs1. by rewrite lookup_insert_eq. }
    assert (buffer m1 (arr_ v) = Some buf) as Hbufv1.
    { rewrite <- Hbuf. apply buffer_frame. intros l Hl. apply Hframe1.
      intros Hq. apply Hfresh1 in Hq. rewrite Hl in Hbuf. simpl in Hbuf.
      congruence. }
    assert (0 < size_ v → arr_ v ≠ q) as Hdistinct.
    { intros Hpos Heq.
      destruct (buffer_nonempty _ _ _ Hbuf) as (l & Hl & Hheap); [lia|].
      rewrite Heq in Hl. apply Hfresh1 in Hl. congruence. }
    unfold GetSize, begin, end_.
    repeat mstep.
    unfold std_move. rewrite !bind_assoc.
    rewrite (bind_Ret _ _ _ _ _
               (distance_eq m1 (arr_ v) 0 (size_ v) ltac:(lia))).
    rewrite Nat.sub_0_r.
    destruct (forward_loop_range moved_from (move_assign moved_from) (size_ v)
                m1 (arr_ v) q buf (replicate n Type_default))
      as (m2 & Hrun2 & Hobjs2 & Hsrc2 & Hdst2 & Hframe2);
      [apply move_assign_assigns|done|done|done
      |by rewrite length_replicate|done|].
    rewrite (bind_Ret _ _ _ _ _ Hrun2).
    rewrite <- Hobjs2 in Hthis1, Hr1.
    rewrite (bind_Ret _ _ _ _ _
               (swap_rvalue_eq m2 this r _ _ ltac:(done) Hthis1 Hr1)).
    unfold destroy.
    repeat mstep.
    set (m3 := Mem _ _).
    destruct (ArrayPtr_delete_eq m3 (arr_ v) _ Hsrc2)
      as (m4 & Hrun4 & Hobjs4 & Hframe4 & Hgone4).
    rewrite (bind_Ret _ _ _ _ _ Hrun4).
    intros [= <-]. cbn [heap]. exact Hgone4. }
  exists q0, m0. split; [done|]. split; [done|]. split; [done|].
  apply other_blocks_eq.
  - intros l H1 H2. by apply Hframe0.
  - intros l H1 _. by apply Hgone.
  - intros l H1 _. by apply Hfresh0.
Qed.

End Blocks.

Section Pushes.
Context {T : Type}.
Variable Type_default : T.
Variable moved_from : T → T.
Implicit Types (m : mem T) (v : SimpleVector).

Lemma PushBack_not_full this item x m v buf :
  objs m !! this = Some v → buffer m (arr_ v) = Some buf →
  size_ v < length buf → size_ v ≠ capacity_ v → fits (size_ v + 1) →
  load item m = Ret x m →
  ∃ m',
    PushBack Type_default moved_from this item m = Ret tt m'
    ∧ objs m'
      = <[this := mkSimpleVector (arr_ v) (size_ v + 1) (capacity_ v)]> (objs m)
    ∧ buffer m' (arr_ v) = Some (<[size_ v := x]> buf)
    ∧ (∀ l, arr_ v ≠ Some l → heap m' !! l = heap m !! l).
Proof.
  intros Hthis Hbuf Hlt Hne Hfits Hload. unfold PushBack, copy_assign.
  rewrite (bind_Ret _ _ _ _ _
             (grow_if_full_with_room Type_default moved_from this m v Hthis
                Hne)).
  mstep. rewrite size_t_succ_fits by done.
  rewrite bind_assoc, (bind_Ret _ _ _ _ _ Hload).
  destruct (store_buffer m (arr_ v) buf (size_ v) x Hbuf Hlt)
    as (m2 & Hrun2 & Hobjs2 & Hbuf2 & Hframe2).
  rewrite (bind_Ret _ _ _ _ _ Hrun2). mstep.
  eexists. split; [reflexivity|]. cbn [heap objs].
  split; [by rewrite Hobjs2|]. split; done.
Qed.

Lemma grow_if_full_blocks this m v buf :
  objs m !! this = Some v → buffer m (arr_ v) = Some buf →
  length buf = capacity_ v → size_ v = capacity_ v →
  fits (2 * size_ v) →
  ∃ q c buf' m',
    grow_if_full Type_default moved_from this m = Ret tt m'
    ∧ objs m' = <[this := mkSimpleVector q (size_ v) c]> (objs m)
    ∧ buffer m' q = Some buf'
    ∧ size_ v < length buf'
    ∧ (∀ l, arr_ v = Some l → heap m' !! l = None)
    ∧ other_blocks m' q = other_blocks m (arr_ v).
Proof.
  intros Hthis Hbuf Hlen Hfull Hfits. unfold grow_if_full. mstep.
  rewrite size_t_mul_fits by done.
  apply Nat.eqb_eq in Hfull as Hfull'. rewrite Hfull'.
  set (c := if size_ v =? 0 then 1 else 2 * size_ v).
  assert (size_ v < c) as Hc by (subst c; destruct (size_ v); simpl; lia).
  destruct (ChangeCapacity_spec Type_default moved_from this c m v buf)
    as (q & m1 & Hrun1 & Hobjs1 & Hbuf1 & _); [done|done|lia|lia|].
  destruct (ChangeCapacity_blocks Type_default moved_from this c m v buf)
    as (q' & m1' & Hrun1' & Hobjs1' & Hgone1 & Hrest1); [done|done|lia|lia|].
  rewrite Hrun1 in Hrun1'. injection Hrun1' as <-.
  assert (q' = q) as ->.
  { assert (objs m1 !! this = objs m1 !! this) as H by done.
    rewrite Hobjs1 in H at 1. rewrite Hobjs1' in H.
    rewrite !lookup_insert_eq in H. by injection H. }
  exists q, c. eexists. exists m1. split.
  { subst c. destruct (size_ v =? 0); simpl; exact Hrun1. }
  split; [done|]. split; [done|]. split; [|done].
  rewrite length_app, length_take, length_replicate. lia.
Qed.

Lemma PushBack_blocks this item x m v buf :
  objs m !! this = Some v → buffer m (arr_ v) = Some buf →
  length buf = capacity_ v → size_ v ≤ capacity_ v →
  fits (2 * size_ v) →
  load item m = Ret x m → base item ≠ arr_ v →
  ∃ q c m',
    PushBack Type_default moved_from this item m = Ret tt m'
    ∧ objs m' = <[this := mkSimpleVector q (size_ v + 1) c]> (objs m)
    ∧ other_blocks m' q = other_blocks m (arr_ v)
    ∧ (size_ v = capacity_ v → ∀ l, arr_ v = Some l → heap m' !! l = None)
    ∧ (size_ v ≠ capacity_ v → q = arr_ v ∧ c = capacity_ v).
Proof.
  intros Hthis Hbuf Hlen Hsize Hfits Hload Hout.
  assert (fits (size_ v + 1)) as Hfits1 by (by apply fits_succ_of_double).
  destruct (decide (size_ v = capacity_ v)) as [Hfull|Hfull].
  - destruct (grow_if_full_blocks this m v buf)
      as (q & c & buf1 & m1 & Hrun1 & Hobjs1 & Hbuf1 & Hlt1 & Hgone1 & Hrest1);
      try done.
    destruct (load_other_blocks m m1 (arr_ v) q item x Hload Hout Hrest1)
      as [Hload1 Hout1].
    unfold PushBack, copy_assign. rewrite (bind_Ret _ _ _ _ _ Hrun1). mstep.
    rewrite size_t_succ_fits by done.
    rewrite bind_assoc, (bind_Ret _ _ _ _ _ Hload1).
    destruct (store_buffer m1 q _ (size_ v) x Hbuf1 Hlt1)
      as (m2 & Hrun2 & Hobjs2 & Hbuf2 & Hframe2).
    rewrite (bind_Ret _ _ _ _ _ Hrun2). mstep.
    assert (∀ l, arr_ v = Some l → q ≠ Some l) as Hold.
    { intros l Hl Hq. specialize (Hgone1 l Hl).
      rewrite Hq in Hbuf1. simpl in Hbuf1. congruence. }
    exists q, c. eexists. split; [reflexivity|]. cbn [heap objs].
    split; [|split; [|split]].
    + rewrite Hobjs2, Hobjs1. by rewrite insert_insert_eq.
    + rewrite <- Hrest1. by apply (other_blocks_store m1 (Mem (heap m2) _)).
    + intros _ l Hl. rewrite Hframe2; [by apply Hgone1|]. by apply Hold.
    + done.
  - destruct (PushBack_not_full this item x m v buf)
      as (m' & Hrun & Hobjs & Hbuf' & Hframe); try done; [lia|].
    exists (arr_ v), (capacity_ v), m'.
    split; [done|]. split; [done|]. split; [|done].
    by apply other_blocks_store.
Qed.

Lemma push_all_blocks this items xs :
  ∀ m v buf,
    objs m !! this = Some v → buffer m (arr_ v) = Some buf →
    length buf = capacity_ v → size_ v ≤ capacity_ v →
    fits (2 * (size_ v + length items)) →
    Forall2 (λ p x, load p m = Ret x m ∧ base p ≠ arr_ v) items xs →
    ∃ v' buf' m',
      push_all Type_default moved_from this items m = Ret tt m'
      ∧ objs m' = <[this := v']> (objs m)
      ∧ buffer m' (arr_ v') = Some buf'
      ∧ other_blocks m' (arr_ v') = other_blocks m (arr_ v).
Proof.
  revert xs. induction items as [|p items IH];
    intros xs m v buf Hthis Hbuf Hlen Hsize Hfits Hall.
  - exists v, buf, m. simpl. repeat split; try done.
    symmetry. by apply insert_id.
  - apply Forall2_cons_inv_l in Hall
      as (x & xs' & [Hload Hout] & Hall & ->).
    simpl in Hfits.
    assert (fits (2 * size_ v)) as Hfits0
      by (eapply fits_le; [|exact Hfits]; lia).
    destruct (PushBack_spec Type_default moved_from this p x m v buf
                Hthis Hbuf Hlen Hsize Hfits0 Hload Hout)
      as (q1 & c1 & buf1 & m1 & Hrun1 & Hobjs1 & Hbuf1 & Hlen1 & Htake1 & Hc1
          & Hframe1 & Hfresh1).
    destruct (PushBack_blocks this p x m v buf Hthis Hbuf Hlen Hsize Hfits0
                Hload Hout)
      as (q1' & c1' & m1' & Hrun1' & Hobjs1' & Hrest1 & _).
    rewrite Hrun1 in Hrun1'. injection Hrun1' as <-.
    assert (q1' = q1) as ->.
    { assert (objs m1 !! this = objs m1 !! this) as H by done.
      rewrite Hobjs1 in H at 1. rewrite Hobjs1' in H.
      rewrite !lookup_insert_eq in H. by injection H. }
    assert (size_ v + 1 ≤ c1) as Hsize1.
    { rewrite Hc1. destruct (size_ v =? capacity_ v) eqn:E.
      - destruct (size_ v); simpl; lia.
      - apply Nat.eqb_neq in E. lia. }
    set (v1 := mkSimpleVector q1 (size_ v + 1) c1).
    destruct (IH xs' m1 v1 buf1)
      as (v' & buf' & m' & Hrun & Hobjs & Hbuf' & Hrest);
      [by rewrite Hobjs1, lookup_insert_eq|done|done|done| | |].
    { subst v1. cbn [size_]. eapply fits_le; [|exact Hfits]. lia. }
    { subst v1. cbn [arr_].
      by apply (readable_after_growth_all m m1 (arr_ v) q1). }
    exists v', buf', m'. simpl.
    rewrite (bind_Ret _ _ _ _ _ Hrun1).
    split; [done|]. split; [|split; [done|]].
    + rewrite Hobjs, Hobjs1. by rewrite insert_insert_eq.
    + rewrite Hrest. subst v1. cbn [arr_]. done.
Qed.

End Pushes.

Section Calls.
Context {T : Type}.
Variable Type_default : T.
Variable moved_from : T → T.
Implicit Types (m : mem T) (v : SimpleVector).

Lemma same_object m this v v' (o : gmap ref SimpleVector) :
  objs m = <[this := v]> o → objs m = <[this := v']> o → v = v'.
Proof.
  intros H1 H2. assert (objs m !! this = objs m !! this) as H by done.
  rewrite H1 in H at 1. rewrite H2 in H. rewrite !lookup_insert_eq in H.
  by injection H.
Qed.

(** Without growth [PushBack] reads its argument before it writes, and
    it writes [arr_[size_]]: an argument that is an element of the vector
    itself is read as it is, and stays as it is. *)
Lemma push_all_within this items xs :
  ∀ m v buf,
    objs m !! this = Some v → buffer m (arr_ v) = Some buf →
    size_ v + length items ≤ length buf →
    length buf = capacity_ v → fits (capacity_ v) →
    Forall2 (λ p x, load p m = Ret x m
                    ∧ (base p = arr_ v → off p < size_ v)) items xs →
    ∃ buf' m',
      push_all Type_default moved_from this items m = Ret tt m'
      ∧ objs m'
        = <[this := mkSimpleVector (arr_ v) (size_ v + length items)
                      (capacity_ v)]> (objs m)
      ∧ buffer m' (arr_ v) = Some buf'
      ∧ length buf' = length buf
      ∧ take (size_ v + length items) buf' = take (size_ v) buf ++ xs
      ∧ (∀ l, arr_ v ≠ Some l → heap m' !! l = heap m !! l).
Proof.
  revert xs. induction items as [|p items IH];
    intros xs m v buf Hthis Hbuf Hroom Hlen Hfits Hall.
  - apply Forall2_nil_inv_l in Hall as ->.
    exists buf, m. simpl. rewrite Nat.add_0_r. repeat split; try done.
    + destruct v. simpl. symmetry. by apply insert_id.
    + by rewrite app_nil_r.
  - apply Forall2_cons_inv_l in Hall
      as (x & xs' & [Hload Hin] & Hall & ->).
    simpl in Hroom.
    destruct (PushBack_not_full Type_default moved_from this p x m v buf)
      as (m1 & Hrun1 & Hobjs1 & Hbuf1 & Hframe1); try done; try lia.
    { eapply fits_le; [|exact Hfits]. lia. }
    set (v1 := mkSimpleVector (arr_ v) (size_ v + 1) (capacity_ v)) in *.
    destruct (IH xs' m1 v1 (<[size_ v := x]> buf))
      as (buf' & m' & Hrun & Hobjs & Hbuf' & Hlen' & Htake & Hframe);
      [by rewrite Hobjs1, lookup_insert_eq|done
      |rewrite length_insert; subst v1; cbn [size_]; lia
      |by rewrite length_insert|done| |].
    { eapply Forall2_impl; [exact Hall|]. intros p' x' [Hload' Hin'].
      subst v1. cbn [arr_ size_]. split; [|intros Hb; apply Hin' in Hb; lia].
      pose proof Hload' as (_ & l & src & Hl & Hsrc & Hx')%load_inv.
      destruct p' as [pb i]. cbn [base off] in *. subst pb.
      destruct (decide (arr_ v = Some l)) as [Hown|Hother].
      - specialize (Hin' (eq_sym Hown)).
        rewrite Hown in Hbuf, Hbuf1. simpl in Hbuf, Hbuf1.
        assert (src = buf) as -> by congruence.
        apply load_eq with (<[size_ v := x]> buf); [done|].
        rewrite list_lookup_insert_ne by lia. done.
      - apply load_eq with src; [|done]. rewrite Hframe1 by done. done. }
    subst v1. cbn [arr_ size_ capacity_] in *.
    exists buf', m'. simpl. rewrite (bind_Ret _ _ _ _ _ Hrun1).
    replace (size_ v + S (length items)) with (size_ v + 1 + length items)
      by lia.
    split; [done|]. split; [|split; [done|split; [|split]]].
    + rewrite Hobjs, Hobjs1. by rewrite insert_insert_eq.
    + by rewrite Hlen', length_insert.
    + rewrite Htake. rewrite take_insert_snoc by lia.
      by rewrite <- app_assoc.
    + intros l Hl. rewrite Hframe by done. by apply Hframe1.
Qed.

Lemma bind_ext {A B} (c : exec T A) (k1 k2 : A → exec T B) m :
  (∀ a m', k1 a m' = k2 a m') → bind c k1 m = bind c k2 m.
Proof. intros H. unfold bind. destruct (c m); [apply H|done..]. Qed.

(** [++size_] and a store through a pointer commute. *)
Lemma set_size_store_comm {A} this n p y (k : exec T A) m :
  (set_size this n;; store p y;; k) m = (store p y;; set_size this n;; k) m.
Proof.
  destruct (objs m !! this) as [v|] eqn:Hv.
  - rewrite (bind_Ret _ _ _ _ _ (set_size_eq m this v n Hv)).
    unfold bind at 1 2. unfold store. cbn [heap objs].
    destruct (base p) as [l|]; [|done].
    destruct (heap m !! l) as [buf|]; [|done].
    destruct (decide (off p < length buf)); [|done].
    by rewrite (bind_Ret _ _ _ _ _ (set_size_eq (Mem _ (objs m)) this v n Hv)).
  - assert (∀ (k' : exec T A) h,
              (set_size this n;; k') (Mem h (objs m)) = Undefined) as Hno.
    { intros k' h. unfold set_size, get, bind. cbn [objs]. by rewrite Hv. }
    transitivity (@Undefined T A).
    + destruct m as [h o]. apply Hno.
    + unfold bind at 1. unfold store.
      destruct (base p) as [l|]; [|done].
      destruct (heap m !! l) as [buf|]; [|done].
      destruct (decide (off p < length buf)); [|done].
      by rewrite Hno.
Qed.

Lemma readable_value m p :
  is_Some (value_of (load p m)) → ∃ x, load p m = Ret x m.
Proof.
  intros [x Hx]. destruct (load p m) as [y m'| |] eqn:E; [|done..].
  injection Hx as ->. apply load_inv in E as Hm. destruct Hm as [-> _].
  by exists x.
Qed.

Lemma PopBack_eq this m v :
  objs m !! this = Some v → fits (size_ v) →
  PopBack this m
  = Ret tt (Mem (heap m)
              (<[this := mkSimpleVector (arr_ v) (size_ v - 1) (capacity_ v)]>
                 (objs m))).
Proof.
  intros Hthis Hfits. unfold PopBack, IsEmpty. repeat mstep.
  destruct (size_ v =? 0) eqn:E.
  - apply Nat.eqb_eq in E. unfold ret.
    destruct m as [h o]. cbn [heap objs] in *. do 2 f_equal.
    symmetry. apply insert_id. rewrite Hthis. f_equal.
    destruct v as [q s c]. cbn [arr_ size_ capacity_] in *. by subst s.
  - apply Nat.eqb_neq in E. repeat mstep.
    rewrite size_t_pred_fits by (done || lia). done.
Qed.

Lemma subscript_eq this index m v :
  objs m !! this = Some v → index < size_ v →
  subscript this index m = Ret (Ptr (arr_ v) index) m.
Proof.
  intros Hthis Hlt. unfold subscript, begin. mstep.
  apply Nat.ltb_lt in Hlt. rewrite Hlt.
  rewrite (bind_Ret _ _ _ _ _ (assert_true m)). by repeat mstep.
Qed.

Lemma swap_self this m v :
  objs m !! this = Some v → swap this this m = Ret tt m.
Proof.
  intros Hthis. unfold swap, ArrayPtr_swap. destruct v as [q s c].
  repeat mstep. f_equal. destruct m as [h o]. cbn [heap objs] in *. f_equal.
  rewrite !insert_insert_eq. by apply insert_id.
Qed.

Lemma grown_capacity size cap c :
  size ≤ cap →
  c = (if size =? cap then if size =? 0 then 1 else 2 * size else cap) →
  size + 1 ≤ c ∧ cap ≤ c.
Proof.
  intros Hle ->. destruct (size =? cap) eqn:E.
  - apply Nat.eqb_eq in E. destruct size; simpl; lia.
  - apply Nat.eqb_neq in E. lia.
Qed.

Lemma assign_copy_empty this rhs m a o :
  this ≠ rhs → objs m !! this = Some a → objs m !! rhs = Some o →
  size_ o = 0 →
  assign_copy Type_default this rhs m
  = Ret this
      (Mem (heap m)
         (<[this := mkSimpleVector (arr_ a) 0 (capacity_ a)]> (objs m))).
Proof.
  intros Hne Ha Ho Hz. unfold assign_copy, IsEmpty, Clear.
  rewrite decide_True by done. repeat mstep. rewrite Hz. simpl.
  by repeat mstep.
Qed.

Lemma put_same m this v :
  objs m !! this = Some v → Mem (heap m) (<[this := v]> (objs m)) = m.
Proof.
  intros Hthis. destruct m as [h o]. cbn [heap objs] in *. f_equal.
  by apply insert_id.
Qed.

End Calls.

Section Constructors.
Context {T : Type}.
Variable Type_default : T.
Variable moved_from : T → T.
Implicit Types (m : mem T) (v : SimpleVector).

Lemma write_list_buffer init :
  ∀ i m q buf,
    buffer m q = Some buf → i + length init ≤ length buf →
    ∃ buf' m',
      write_list (Ptr q i) init m = Ret (Ptr q (i + length init)) m'
      ∧ objs m' = objs m
      ∧ buffer m' q = Some buf'
      ∧ length buf' = length buf
      ∧ (∀ k, buf' !! k
              = if decide (i ≤ k < i + length init) then init !! (k - i)
                else buf !! k)
      ∧ (∀ l, q ≠ Some l → heap m' !! l = heap m !! l).
Proof.
  induction init as [|x init IH]; intros i m q buf Hbuf Hlen.
  - exists buf, m. simpl. rewrite Nat.add_0_r. repeat split; try done.
    intros k. by rewrite decide_False by lia.
  - simpl in Hlen.
    destruct (store_buffer m q buf i x Hbuf ltac:(lia))
      as (m1 & Hrun1 & Hobjs1 & Hbuf1 & Hframe1).
    destruct (IH (i + 1) m1 q (<[i := x]> buf) Hbuf1)
      as (buf' & m' & Hrun & Hobjs & Hbuf' & Hlen' & Hk & Hframe).
    { rewrite length_insert. lia. }
    exists buf', m'. cbn [write_list length].
    rewrite (bind_Ret _ _ _ _ _ Hrun1). unfold ptr_add. cbn [base off].
    rewrite Hrun. replace (i + 1 + length init) with (i + S (length init))
      by lia.
    split; [done|]. split; [congruence|]. split; [done|].
    split; [by rewrite Hlen', length_insert|]. split.
    + intros k. rewrite Hk.
      destruct (decide (k = i)) as [->|Hki].
      * rewrite decide_False by lia. rewrite decide_True by lia.
        rewrite list_lookup_insert_eq by lia.
        by replace (i - i) with 0 by lia.
      * rewrite list_lookup_insert_ne by done.
        destruct (decide (i + 1 ≤ k < i + 1 + length init)) as [H1|H1].
        -- rewrite decide_True by lia.
           replace (k - i) with (S (k - (i + 1))) by lia. done.
        -- by rewrite decide_False by lia.
    + intros l Hl. rewrite Hframe by done. by apply Hframe1.
Qed.

Lemma construct_with {A} (k : ref → option loc → exec T A) n m :
  ∃ q m1,
    (this <- new_object;;
     p <- ArrayPtr_new Type_default n;;
     put this (mkSimpleVector p n n);;
     k this p) m = k (fresh (dom (objs m))) q m1
    ∧ objs m1 = <[fresh (dom (objs m)) := mkSimpleVector q n n]> (objs m)
    ∧ objs m !! fresh (dom (objs m)) = None
    ∧ buffer m1 q = Some (replicate n Type_default)
    ∧ allocates m m1 q.
Proof.
  destruct (new_object_spec m) as (m0 & Hrun0 & Hobjs0 & Hheap0 & Hfresh).
  rewrite (bind_Ret _ _ _ _ _ Hrun0).
  destruct (ArrayPtr_new_spec Type_default n m0)
    as (q & m1 & Hrun1 & Hobjs1 & Hbuf1 & Hframe1 & Hfresh1).
  rewrite (bind_Ret _ _ _ _ _ Hrun1).
  repeat mstep.
  exists q. eexists. split; [reflexivity|]. cbn [heap objs].
  split; [by rewrite Hobjs1, Hobjs0, insert_insert_eq|]. split; [done|].
  split; [by rewrite (buffer_frame m1 _ q)|]. split.
  - intros l Hl. cbn [heap]. rewrite Hframe1 by done. by rewrite Hheap0.
  - intros l Hl. rewrite <- Hheap0. by apply Hfresh1.
Qed.

Lemma fill_move_loop_buffer n m q buf x :
  buffer m q = Some buf → n ≤ length buf →
  ∃ buf' m',
    fill_move_loop Type_default n (Ptr q 0) x m
    = Ret (match n with O => x | S _ => Type_default end) m'
    ∧ objs m' = objs m
    ∧ buffer m' q = Some buf'
    ∧ length buf' = length buf
    ∧ take n buf'
      = match n with O => [] | S n' => x :: replicate n' Type_default end
    ∧ (∀ l, q ≠ Some l → heap m' !! l = heap m !! l).
Proof.
  intros Hbuf Hn. destruct n as [|n].
  - exists buf, m. repeat split; try done.
  - cbn [fill_move_loop].
    destruct (store_buffer m q buf 0 x Hbuf ltac:(lia))
      as (m1 & Hrun1 & Hobjs1 & Hbuf1 & Hframe1).
    rewrite (bind_Ret _ _ _ _ _ Hrun1).
    rewrite fill_move_loop_default. unfold ptr_add. cbn [base off].
    destruct (fill_loop_buffer n 1 m1 q (<[0 := x]> buf) Type_default Hbuf1)
      as (buf' & m' & Hrun & Hobjs & Hbuf' & Hlen' & Hk & Hframe).
    { rewrite length_insert. lia. }
    rewrite (bind_Ret _ _ _ _ _ Hrun).
    exists buf', m'. split; [done|]. split; [congruence|]. split; [done|].
    split; [by rewrite Hlen', length_insert|]. split.
    + apply list_eq. intros k. destruct (decide (k < S n)) as [Hlt|Hge].
      * rewrite lookup_take_lt by done. rewrite Hk.
        destruct k as [|k].
        -- rewrite decide_False by lia.
           rewrite list_lookup_insert_eq by lia. done.
        -- rewrite decide_True by lia. simpl. symmetry.
           apply lookup_replicate_2. lia.
      * rewrite lookup_take_ge by lia. symmetry.
        apply lookup_ge_None_2. simpl. rewrite length_replicate. lia.
    + intros l Hl. rewrite Hframe by done. by apply Hframe1.
Qed.

End Constructors.

Section Orders.
Context {T : Type}.
Variable Type_lt : T → T → bool.

Lemma lexicographically_less_irrefl (xs : list T) :
  (∀ x, Type_lt x x = false) → ¬ lexicographically_less Type_lt xs xs.
Proof.
  intros Hirr. induction xs as [|x xs IH]; intros H; inversion H; subst.
  - specialize (Hirr x). congruence.
  - by apply IH.
Qed.

Lemma lexicographically_less_asym (xs ys : list T) :
  (∀ x y, Type_lt x y = true → Type_lt y x = false) →
  lexicographically_less Type_lt xs ys →
  ¬ lexicographically_less Type_lt ys xs.
Proof.
  intros Hasym H. induction H as [y ys|x xs y ys Hxy|x xs y ys Hxy Hyx H IH];
    intros H'; inversion H'; subst; try congruence.
  apply Hasym in Hxy. congruence.
Qed.

End Orders.

(** ** Further properties of the class *)

Section Properties.
Context {T : Type}.
Variable Type_default : T.
Variable moved_from : T → T.
Variable Type_eq : T → T → bool.
Variable Type_lt : T → T → bool.
Implicit Types (m : mem T) (v : SimpleVector) (pos : ptr).

(** X1.  [SimpleVector(size, value)] with a [const Type&] gives a new vector
    of [size] copies of [value], and [SimpleVector(size)] one of [size]
    elements [Type{}]; in both the size and the capacity are [size] and
    the class invariant holds. *)
Theorem fill_constructors_fill m size value :
  (∃ this v m',
     SimpleVector_fill Type_default size value m = Ret this m'
     ∧ objs m !! this = None
     ∧ objs m' !! this = Some v
     ∧ size_ v = size
     ∧ capacity_ v = size
     ∧ buffer m' (arr_ v) = Some (replicate size value)
     ∧ well_formed m' v)
  ∧ (∃ this v m',
       SimpleVector_sized Type_default size m = Ret this m'
       ∧ objs m !! this = None
       ∧ objs m' !! this = Some v
       ∧ size_ v = size
       ∧ capacity_ v = size
       ∧ buffer m' (arr_ v) = Some (replicate size Type_default)
       ∧ well_formed m' v).
Proof.
  split.
  - unfold SimpleVector_fill.
    destruct (construct_with Type_default
                (λ this p,
                   b <- begin this;;
                   e <- end_ this;;
                   std_fill b e value;;
                   ret this)
                size m)
      as (q & m1 & Hrun1 & Hobjs1 & Hfresh & Hbuf1 & _).
    rewrite Hrun1. unfold begin, end_, std_fill. repeat mstep.
    rewrite (bind_Ret _ _ _ _ _ (distance_eq m1 q 0 size ltac:(lia))).
    rewrite Nat.sub_0_r.
    destruct (fill_loop_buffer size 0 m1 q _ value Hbuf1)
      as (buf' & m' & Hrun & Hobjs & Hbuf' & Hlen' & Hk & _).
    { by rewrite length_replicate. }
    rewrite (bind_Ret _ _ _ _ _ Hrun).
    rewrite length_replicate in Hlen'.
    assert (buf' = replicate size value) as ->.
    { apply list_eq. intros k. rewrite Hk.
      destruct (decide (k < size)) as [Hlt|Hge].
      - rewrite decide_True by lia. symmetry. by apply lookup_replicate_2.
      - rewrite decide_False by lia.
        rewrite !lookup_ge_None_2 by (rewrite length_replicate; lia).
        done. }
    exists (fresh (dom (objs m))), (mkSimpleVector q size size), m'.
    split; [done|]. split; [done|].
    split; [by rewrite Hobjs, Hobjs1, lookup_insert_eq|].
    cbn [arr_ size_ capacity_]. split; [done|]. split; [done|].
    split; [done|]. by eapply well_formed_intro.
  - destruct (SimpleVector_sized_spec Type_default size m)
      as (q & m' & Hrun & Hobjs & Hbuf & _).
    exists (fresh (dom (objs m))), (mkSimpleVector q size size), m'.
    split; [done|]. split; [apply fresh_object|].
    split; [by rewrite Hobjs, lookup_insert_eq|].
    cbn [arr_ size_ capacity_]. split; [done|]. split; [done|].
    split; [done|].
    eapply well_formed_intro; [done|apply length_replicate|done].
Qed.

(** X2.  [SimpleVector(size, Type&& value)] gives a new vector of size
    and capacity [size] whose first element is [value] and whose other
    elements are [Type{}]: its loop resets [value] to [Type{}] after the
    first assignment. *)
Theorem rvalue_fill_constructor_moves_once m size value :
  ∃ this v m',
    SimpleVector_fill_move Type_default size value m = Ret this m'
    ∧ objs m !! this = None
    ∧ objs m' !! this = Some v
    ∧ size_ v = size
    ∧ capacity_ v = size
    ∧ buffer m' (arr_ v)
      = Some (match size with
              | O => []
              | S n => value :: replicate n Type_default
              end)
    ∧ well_formed m' v.
Proof.
  unfold SimpleVector_fill_move.
  destruct (construct_with Type_default
              (λ this p,
                 fill_move_loop Type_default size (Ptr p 0) value;; ret this)
              size m)
    as (q & m1 & Hrun1 & Hobjs1 & Hfresh & Hbuf1 & _).
  rewrite Hrun1.
  destruct (fill_move_loop_buffer Type_default size m1 q _ value Hbuf1)
    as (buf' & m' & Hrun & Hobjs & Hbuf' & Hlen' & Htake & _).
  { by rewrite length_replicate. }
  rewrite (bind_Ret _ _ _ _ _ Hrun).
  rewrite length_replicate in Hlen'.
  rewrite take_ge in Htake by lia. subst buf'.
  exists (fresh (dom (objs m))), (mkSimpleVector q size size), m'.
  split; [done|]. split; [done|].
  split; [by rewrite Hobjs, Hobjs1, lookup_insert_eq|].
  cbn [arr_ size_ capacity_]. split; [done|]. split; [done|].
  split; [done|]. by eapply well_formed_intro.
Qed.

(** X3.  [SimpleVector(std::initializer_list)] gives a new vector that
    holds the elements of the list in order, with size and capacity the
    length of the list. *)
Theorem initializer_list_constructor_copies_the_list m init :
  ∃ this v m',
    SimpleVector_init Type_default init m = Ret this m'
    ∧ objs m !! this = None
    ∧ objs m' !! this = Some v
    ∧ size_ v = length init
    ∧ capacity_ v = length init
    ∧ buffer m' (arr_ v) = Some init
    ∧ well_formed m' v.
Proof.
  unfold SimpleVector_init.
  destruct (construct_with Type_default
              (λ this p, write_list (Ptr p 0) init;; ret this)
              (length init) m)
    as (q & m1 & Hrun1 & Hobjs1 & Hfresh & Hbuf1 & _).
  rewrite Hrun1.
  destruct (write_list_buffer init 0 m1 q _ Hbuf1)
    as (buf' & m' & Hrun & Hobjs & Hbuf' & Hlen' & Hk & _).
  { by rewrite length_replicate. }
  rewrite (bind_Ret _ _ _ _ _ Hrun).
  rewrite length_replicate in Hlen'.
  assert (buf' = init) as ->.
  { apply list_eq. intros k. rewrite Hk.
    destruct (decide (k < length init)) as [Hlt|Hge].
    - rewrite decide_True by lia. by rewrite Nat.sub_0_r.
    - rewrite decide_False by lia.
      rewrite lookup_ge_None_2 by (rewrite length_replicate; lia).
      symmetry. apply lookup_ge_None_2. lia. }
  exists (fresh (dom (objs m))),
    (mkSimpleVector q (length init) (length init)), m'.
  split; [done|]. split; [done|].
  split; [by rewrite Hobjs, Hobjs1, lookup_insert_eq|].
  cbn [arr_ size_ capacity_]. split; [done|]. split; [done|].
  split; [done|]. by eapply well_formed_intro.
Qed.

(** X4.  [SimpleVector(Reserve(n))] followed by at most [n] calls of
    [PushBack], on objects that exist when the vector is constructed,
    gives a vector that holds the pushed values in order, in a block of
    [n] elements and with capacity [n]: the pushes never reallocate. *)
Theorem reserving_constructor_leaves_room m n items xs :
  Forall2 (λ p x, load p m = Ret x m) items xs →
  length items ≤ n → fits n →
  ∃ this v buf m',
    (this <- SimpleVector_reserved Type_default (Reserve n);;
     push_all Type_default moved_from this items;;
     ret this) m = Ret this m'
    ∧ objs m' !! this = Some v
    ∧ size_ v = length items
    ∧ capacity_ v = n
    ∧ buffer m' (arr_ v) = Some buf
    ∧ length buf = n
    ∧ take (size_ v) buf = xs.
Proof.
  intros Hall Hroom Hfits. unfold SimpleVector_reserved, Reserve.
  cbn [capacity].
  destruct (new_object_spec m) as (m0 & Hrun0 & Hobjs0 & Hheap0 & Hfresh).
  set (this := fresh (dom (objs m))) in *.
  rewrite !bind_assoc. rewrite (bind_Ret _ _ _ _ _ Hrun0).
  rewrite !bind_assoc.
  destruct (ArrayPtr_new_spec Type_default n m0)
    as (q & m1 & Hrun1 & Hobjs1 & Hbuf1 & Halloc).
  rewrite (bind_Ret _ _ _ _ _ Hrun1).
  repeat mstep.
  set (m2 := Mem _ _).
  destruct (push_all_within Type_default moved_from this items xs m2
              (mkSimpleVector q 0 n) (replicate n Type_default))
    as (buf' & m' & Hrun & Hobjs & Hbuf' & Hlen' & Htake & _).
  { subst m2. cbn [objs]. by rewrite lookup_insert_eq. }
  { by rewrite (buffer_frame m1 _ q). }
  { rewrite length_replicate. simpl. lia. }
  { apply length_replicate. }
  { done. }
  { eapply Forall2_impl; [exact Hall|]. intros p x Hload. cbn [arr_ size_].
    assert (load p m0 = Ret x m0) as Hload0.
    { apply load_frame with m; [done|]. intros l _. by rewrite Hheap0. }
    destruct (readable_after_allocation m0 m1 q p x Hload0 Halloc)
      as [Hload1 Hout1].
    split; [|done]. subst m2. by apply (load_objs m1). }
  cbn [arr_ size_ capacity_] in *.
  rewrite (bind_Ret _ _ _ _ _ Hrun).
  exists this, (mkSimpleVector q (0 + length items) n), buf', m'.
  split; [done|]. split; [by rewrite Hobjs, lookup_insert_eq|].
  cbn [arr_ size_ capacity_]. split; [done|]. split; [done|].
  split; [done|]. split; [by rewrite Hlen', length_replicate|].
  by rewrite Htake.
Qed.

(** X5.  For a vector whose live elements lie in its block,
    [end() - begin()] and [cend() - cbegin()] are the size, [begin() + i]
    and [operator[](i)] address the element at index [i < size_], and
    [begin() == end()] exactly when [IsEmpty()]. *)
Theorem iterators_span_the_elements m this v buf :
  objs m !! this = Some v → buffer m (arr_ v) = Some buf →
  size_ v ≤ length buf →
  (b <- begin this;; e <- end_ this;; distance b e) m = Ret (size_ v) m
  ∧ (b <- cbegin this;; e <- cend this;; distance b e) m = Ret (size_ v) m
  ∧ (∀ i x, i < size_ v → buf !! i = Some x →
            (b <- begin this;; load (ptr_add b i)) m = Ret x m
            ∧ (p <- subscript this i;; load p) m = Ret x m)
  ∧ (b <- begin this;; e <- end_ this;; ret (bool_decide (b = e))) m
    = (IsEmpty this) m.
Proof.
  intros Hthis Hbuf Hsize. unfold cbegin, cend, begin, end_, IsEmpty.
  repeat mstep. rewrite !(distance_eq m (arr_ v) 0 (size_ v)) by lia.
  rewrite Nat.sub_0_r. split; [done|]. split; [done|]. split.
  - intros i x Hi Hx.
    rewrite (bind_Ret _ _ _ _ _ (subscript_eq _ _ _ _ Hthis Hi)).
    repeat mstep. unfold ptr_add. cbn [base off]. rewrite Nat.add_0_l.
    destruct (buffer_nonempty _ _ _ Hbuf) as (l & -> & Hl); [lia|].
    by rewrite (load_eq m l buf i x).
  - unfold ret. f_equal. destruct (size_ v) as [|n]; simpl.
    + by rewrite bool_decide_eq_true_2.
    + by rewrite bool_decide_eq_false_2.
Qed.

(** X6.  [operator[](index)] and [At(index)] return the same pointer,
    [begin() + index], for [index < size_] and leave the memory as it is;
    for [index >= size_] the assertion of [operator[]] fails, where [At]
    throws [std::out_of_range]. *)
Theorem subscript_asserts_the_index m this v index :
  objs m !! this = Some v →
  (index < size_ v →
   subscript this index m = Ret (Ptr (arr_ v) index) m
   ∧ At this index m = Ret (Ptr (arr_ v) index) m)
  ∧ (size_ v ≤ index →
     subscript this index m = Undefined
     ∧ At this index m = Throw out_of_range m).
Proof.
  intros Hthis. rewrite (At_spec this index m v Hthis).
  split.
  - intros Hlt. rewrite decide_False by lia.
    by rewrite (subscript_eq this index m v Hthis Hlt).
  - intros Hge. unfold subscript. mstep. rewrite decide_True by done.
    apply Nat.ltb_ge in Hge. by rewrite Hge.
Qed.

(** X7.  After [v[i] = x] the vector object is unchanged, only the
    element at [i] of its block has changed, and reading [v[j]] gives [x]
    for [j = i] and the former element for every other [j < size_]. *)
Theorem subscript_write_then_read m this v buf i j x y :
  objs m !! this = Some v → buffer m (arr_ v) = Some buf →
  size_ v ≤ length buf → i < size_ v → j < size_ v → buf !! j = Some y →
  ∃ m',
    (p <- subscript this i;; store p x) m = Ret tt m'
    ∧ objs m' = objs m
    ∧ buffer m' (arr_ v) = Some (<[i := x]> buf)
    ∧ (∀ l, arr_ v ≠ Some l → heap m' !! l = heap m !! l)
    ∧ (p <- subscript this j;; load p) m'
      = Ret (if decide (j = i) then x else y) m'.
Proof.
  intros Hthis Hbuf Hsize Hi Hj Hy.
  rewrite (bind_Ret _ _ _ _ _ (subscript_eq this i m v Hthis Hi)).
  destruct (store_buffer m (arr_ v) buf i x Hbuf ltac:(lia))
    as (m' & Hrun & Hobjs & Hbuf' & Hframe).
  exists m'. split; [done|]. split; [done|]. split; [done|].
  split; [done|].
  assert (objs m' !! this = Some v) as Hthis' by (by rewrite Hobjs).
  rewrite (bind_Ret _ _ _ _ _ (subscript_eq this j m' v Hthis' Hj)).
  destruct (buffer_nonempty _ _ _ Hbuf') as (l & Hl & Hheap).
  { rewrite length_insert. lia. }
  rewrite Hl. apply load_eq with (<[i := x]> buf); [done|].
  case_decide as Hji.
  - subst j. apply list_lookup_insert_eq. lia.
  - by rewrite list_lookup_insert_ne.
Qed.

(** X8.  On a vector that satisfies the class invariant, both overloads
    of [PushBack], called on an object outside the vector's block that
    holds [x], return, leave every other vector object as it is, make the
    size one more and the elements the former ones followed by [x]; the
    class invariant holds afterwards, and when the vector was not full its
    block and its capacity are the same.  The [const Type&] overload
    leaves [x] in its argument and the [Type&&] overload [Type{}]. *)
Theorem PushBack_appends m this v buf item x :
  objs m !! this = Some v → buffer m (arr_ v) = Some buf →
  length buf = capacity_ v → size_ v ≤ capacity_ v →
  fits (2 * size_ v) →
  load item m = Ret x m → base item ≠ arr_ v →
  (∃ v' buf' m',
     PushBack Type_default moved_from this item m = Ret tt m'
     ∧ objs m' !! this = Some v'
     ∧ (∀ r, r ≠ this → objs m' !! r = objs m !! r)
     ∧ buffer m' (arr_ v') = Some buf'
     ∧ length buf' = capacity_ v'
     ∧ size_ v' = size_ v + 1
     ∧ take (size_ v') buf' = take (size_ v) buf ++ [x]
     ∧ load item m' = Ret x m'
     ∧ (size_ v < capacity_ v →
        arr_ v' = arr_ v ∧ capacity_ v' = capacity_ v))
  ∧ (∃ v' buf' m',
       PushBack_move Type_default moved_from this item m = Ret tt m'
       ∧ objs m' !! this = Some v'
       ∧ (∀ r, r ≠ this → objs m' !! r = objs m !! r)
       ∧ buffer m' (arr_ v') = Some buf'
       ∧ length buf' = capacity_ v'
       ∧ size_ v' = size_ v + 1
       ∧ take (size_ v') buf' = take (size_ v) buf ++ [x]
       ∧ load item m' = Ret Type_default m'
       ∧ (size_ v < capacity_ v →
          arr_ v' = arr_ v ∧ capacity_ v' = capacity_ v)).
Proof.
  intros Hthis Hbuf Hlen Hsize Hfits Hload Hout. split.
  - destruct (PushBack_spec Type_default moved_from this item x m v buf)
      as (q & c & buf' & m' & Hrun & Hobjs & Hbuf' & Hlen' & Htake & _
          & Hframe & Hfresh);
      try done.
    destruct (PushBack_blocks Type_default moved_from this item x m v buf)
      as (q' & c' & m'' & Hrun' & Hobjs' & _ & _ & Hsame); try done.
    rewrite Hrun in Hrun'. injection Hrun' as <-.
    pose proof (same_object _ _ _ _ _ Hobjs Hobjs') as [= <- <-].
    destruct (readable_after_growth m m' (arr_ v) q item x Hload Hout Hframe
                Hfresh) as [Hload' _].
    exists (mkSimpleVector q (size_ v + 1) c), buf', m'.
    cbn [arr_ size_ capacity_].
    split; [done|].
    split; [by rewrite Hobjs, lookup_insert_eq|].
    split; [intros r Hr; by rewrite Hobjs, lookup_insert_ne|].
    repeat split; try done; apply Hsame; lia.
  - destruct (PushBack_move_spec Type_default moved_from this item x m v buf)
      as (q & c & buf' & m' & Hrun & Hobjs & Hbuf' & Hlen' & Htake & Hc
          & Hreset & _ & _ & Hsame);
      try done.
    exists (mkSimpleVector q (size_ v + 1) c), buf', m'.
    cbn [arr_ size_ capacity_].
    split; [done|].
    split; [by rewrite Hobjs, lookup_insert_eq|].
    split; [intros r Hr; by rewrite Hobjs, lookup_insert_ne|].
    repeat split; try done; [apply Hsame; lia|].
    rewrite Hc. replace (size_ v =? capacity_ v) with false; [done|].
    symmetry. apply Nat.eqb_neq. lia.
Qed.

(** X9.  Calls of [PushBack] that do not exceed the capacity, each on an
    object that is an element of the vector or lies outside its block,
    keep the vector in its block, with the same capacity, append the
    values of the objects in order and leave every other block of the
    heap untouched. *)
Theorem pushes_within_capacity_keep_the_block m this v buf items xs :
  objs m !! this = Some v → buffer m (arr_ v) = Some buf →
  length buf = capacity_ v → size_ v + length items ≤ capacity_ v →
  fits (capacity_ v) →
  Forall2 (λ p x, load p m = Ret x m
                  ∧ (base p = arr_ v → off p < size_ v)) items xs →
  ∃ v' buf' m',
    push_all Type_default moved_from this items m = Ret tt m'
    ∧ objs m' !! this = Some v'
    ∧ arr_ v' = arr_ v
    ∧ capacity_ v' = capacity_ v
    ∧ size_ v' = size_ v + length items
    ∧ buffer m' (arr_ v) = Some buf'
    ∧ take (size_ v') buf' = take (size_ v) buf ++ xs
    ∧ (∀ l, arr_ v ≠ Some l → heap m' !! l = heap m !! l).
Proof.
  intros Hthis Hbuf Hlen Hroom Hfits Hall.
  destruct (push_all_within Type_default moved_from this items xs m v buf)
    as (buf' & m' & Hrun & Hobjs & Hbuf' & _ & Htake & Hframe);
    try done; [lia|].
  eexists _, buf', m'. split; [done|].
  split; [by rewrite Hobjs, lookup_insert_eq|]. done.
Qed.

(** X10.  [PushBack] on a full vector that is not empty moves the vector to
    another block and releases the former one.  Called on an object
    outside the vector's block it returns, and then a pointer into the
    former block can no longer be read or written through, and the former
    elements are read through the new [begin()].  Called on an element of
    the vector itself it is undefined: the element is read after its block
    has been released. *)
Theorem growth_invalidates_the_iterators m this v buf item x i :
  objs m !! this = Some v → buffer m (arr_ v) = Some buf →
  length buf = capacity_ v → size_ v = capacity_ v → 0 < size_ v →
  fits (2 * size_ v) →
  load item m = Ret x m → base item ≠ arr_ v →
  (∃ v' m',
     PushBack Type_default moved_from this item m = Ret tt m'
     ∧ objs m' !! this = Some v'
     ∧ arr_ v' ≠ arr_ v
     ∧ load (Ptr (arr_ v) i) m' = Undefined
     ∧ (∀ y, store (Ptr (arr_ v) i) y m' = Undefined)
     ∧ (∀ y, take (size_ v) buf !! i = Some y →
             load (Ptr (arr_ v') i) m' = Ret y m'))
  ∧ PushBack Type_default moved_from this (Ptr (arr_ v) i) m = Undefined.
Proof.
  intros Hthis Hbuf Hlen Hfull Hpos Hfits Hload Hout.
  destruct (buffer_nonempty _ _ _ Hbuf) as (l & Hl & Hheap); [lia|].
  split.
  - destruct (PushBack_spec Type_default moved_from this item x m v buf)
      as (q & c & buf' & m' & Hrun & Hobjs & Hbuf' & Hlen' & Htake & _);
      try done; [lia|].
    destruct (PushBack_blocks Type_default moved_from this item x m v buf)
      as (q' & c' & m'' & Hrun' & Hobjs' & _ & Hgone & _);
      try done; [lia|].
    rewrite Hrun in Hrun'. injection Hrun' as <-.
    pose proof (same_object _ _ _ _ _ Hobjs Hobjs') as [= <- <-].
    specialize (Hgone Hfull l Hl).
    exists (mkSimpleVector q (size_ v + 1) c), m'. cbn [arr_].
    split; [done|]. split; [by rewrite Hobjs, lookup_insert_eq|].
    split.
    { intros Heq. rewrite Heq, Hl in Hbuf'. simpl in Hbuf'. congruence. }
    rewrite Hl. unfold load, store. cbn [base]. rewrite Hgone.
    split; [done|]. split; [done|].
    intros y Hy.
    assert (i < size_ v) as Hi.
    { apply lookup_lt_Some in Hy. rewrite length_take in Hy. lia. }
    assert (size_ v + 1 ≤ length buf') as Hlen1.
    { apply (f_equal length) in Htake.
      rewrite length_take, length_app, length_take in Htake. simpl in Htake.
      lia. }
    destruct (buffer_nonempty _ _ _ Hbuf') as (l' & -> & Hheap'); [lia|].
    apply load_eq with buf'; [done|].
    rewrite <- (lookup_take_lt buf' (size_ v + 1)) by lia. rewrite Htake.
    by rewrite lookup_app_l by (rewrite length_take; lia).
  - destruct (grow_if_full_blocks Type_default moved_from this m v buf)
      as (q & c & buf1 & m1 & Hrun1 & Hobjs1 & Hbuf1 & Hlt1 & Hgone1 & _);
      try done.
    unfold PushBack, copy_assign. rewrite (bind_Ret _ _ _ _ _ Hrun1).
    mstep. unfold bind, load. cbn [base]. rewrite Hl.
    by rewrite (Hgone1 l Hl).
Qed.

(** X11.  [PopBack] on an empty vector returns with the memory untouched;
    on any vector it leaves the heap, the block pointer, the capacity and
    every other vector object as they are and makes the size one less, or
    leaves it 0. *)
Theorem PopBack_drops_the_last m this v :
  objs m !! this = Some v → fits (size_ v) →
  (size_ v = 0 → PopBack this m = Ret tt m)
  ∧ ∃ m',
      PopBack this m = Ret tt m'
      ∧ heap m' = heap m
      ∧ objs m' !! this
        = Some (mkSimpleVector (arr_ v) (size_ v - 1) (capacity_ v))
      ∧ ∀ r, r ≠ this → objs m' !! r = objs m !! r.
Proof.
  intros Hthis Hfits. rewrite (PopBack_eq this m v Hthis Hfits). split.
  - intros Hz. f_equal. destruct m as [h o]. cbn [heap objs] in *. f_equal.
    apply insert_id. rewrite Hthis. f_equal.
    destruct v as [q s c]. cbn [arr_ size_ capacity_] in *. by subst s.
  - eexists. split; [done|]. cbn [heap objs]. split; [done|].
    split; [by rewrite lookup_insert_eq|].
    intros r Hr. by rewrite lookup_insert_ne.
Qed.

(** X12.  [PushBack(item)], on an object outside the vector's block,
    followed by [PopBack()] gives back the size and the elements the
    vector had; the capacity is at least what it was. *)
Theorem PopBack_undoes_PushBack m this v buf item x :
  objs m !! this = Some v → buffer m (arr_ v) = Some buf →
  length buf = capacity_ v → size_ v ≤ capacity_ v →
  fits (2 * size_ v) →
  load item m = Ret x m → base item ≠ arr_ v →
  ∃ v' buf' m',
    (PushBack Type_default moved_from this item;; PopBack this) m = Ret tt m'
    ∧ objs m' !! this = Some v'
    ∧ buffer m' (arr_ v') = Some buf'
    ∧ size_ v' = size_ v
    ∧ take (size_ v') buf' = take (size_ v) buf
    ∧ capacity_ v ≤ capacity_ v'.
Proof.
  intros Hthis Hbuf Hlen Hsize Hfits Hload Hout.
  destruct (PushBack_spec Type_default moved_from this item x m v buf)
    as (q & c & buf' & m1 & Hrun & Hobjs & Hbuf' & Hlen' & Htake & Hc & _);
    try done.
  rewrite (bind_Ret _ _ _ _ _ Hrun).
  rewrite (PopBack_eq this m1 (mkSimpleVector q (size_ v + 1) c));
    [|by rewrite Hobjs, lookup_insert_eq
     |by apply fits_succ_of_double].
  cbn [arr_ size_ capacity_].
  eexists _, buf', _. split; [done|]. cbn [heap objs].
  split; [by rewrite lookup_insert_eq|]. cbn [arr_ size_ capacity_].
  split; [done|]. split; [lia|]. split.
  - replace (size_ v + 1 - 1) with (size_ v) by lia.
    apply (f_equal (take (size_ v))) in Htake.
    rewrite take_take in Htake.
    replace (size_ v `min` (size_ v + 1)) with (size_ v) in Htake by lia.
    rewrite Htake. rewrite take_app_le by (rewrite length_take; lia).
    rewrite take_take. f_equal. lia.
  - rewrite Hc. destruct (size_ v =? capacity_ v) eqn:E; [|done].
    apply Nat.eqb_eq in E. destruct (size_ v); simpl; lia.
Qed.

(** X13.  [ChangeCapacity(new_size)] with [size_ <= new_size] gives the
    vector a block of exactly [new_size] elements that did not exist
    before, holding the former [size_] elements in order followed by
    [Type{}]; the size is kept, the capacity is [new_size], the former
    block is released, and every other block and vector object is
    untouched. *)
Theorem ChangeCapacity_moves_and_releases m this v buf new_size :
  objs m !! this = Some v → buffer m (arr_ v) = Some buf →
  size_ v ≤ length buf → size_ v ≤ new_size →
  ∃ v' m',
    ChangeCapacity Type_default moved_from this new_size m = Ret tt m'
    ∧ objs m' !! this = Some v'
    ∧ (∀ r, r ≠ this → objs m' !! r = objs m !! r)
    ∧ size_ v' = size_ v
    ∧ capacity_ v' = new_size
    ∧ buffer m' (arr_ v')
      = Some (take (size_ v) buf
              ++ replicate (new_size - size_ v) Type_default)
    ∧ (∀ l, arr_ v = Some l → heap m' !! l = None)
    ∧ (∀ l, arr_ v' = Some l → heap m !! l = None)
    ∧ (∀ l, arr_ v ≠ Some l → arr_ v' ≠ Some l →
            heap m' !! l = heap m !! l).
Proof.
  intros Hthis Hbuf Hsize Hn.
  destruct (ChangeCapacity_spec Type_default moved_from this new_size m v buf)
    as (q & m' & Hrun & Hobjs & Hbuf' & Hframe & Hfresh); try done.
  destruct (ChangeCapacity_blocks Type_default moved_from this new_size m v
              buf)
    as (q' & m'' & Hrun' & _ & Hgone & _); try done.
  rewrite Hrun in Hrun'. injection Hrun' as <-.
  exists (mkSimpleVector q (size_ v) new_size), m'.
  cbn [arr_ size_ capacity_].
  split; [done|]. split; [by rewrite Hobjs, lookup_insert_eq|].
  split; [intros r Hr; by rewrite Hobjs, lookup_insert_ne|].
  done.
Qed.

(** X14.  [Reserve(new_capacity)] returns with the memory untouched when
    [new_capacity <= capacity_]; in every case the capacity afterwards is
    the larger of the two, the size and the elements are kept, and the
    class invariant holds. *)
Theorem Reserve_grows_only m this v buf new_capacity :
  objs m !! this = Some v → buffer m (arr_ v) = Some buf →
  length buf = capacity_ v → size_ v ≤ capacity_ v →
  (new_capacity ≤ capacity_ v →
   SimpleVector_Reserve Type_default moved_from this new_capacity m
   = Ret tt m)
  ∧ ∃ v' buf' m',
      SimpleVector_Reserve Type_default moved_from this new_capacity m
      = Ret tt m'
      ∧ objs m' !! this = Some v'
      ∧ buffer m' (arr_ v') = Some buf'
      ∧ length buf' = capacity_ v'
      ∧ capacity_ v' = capacity_ v `max` new_capacity
      ∧ size_ v' = size_ v
      ∧ take (size_ v) buf' = take (size_ v) buf.
Proof.
  intros Hthis Hbuf Hlen Hsize. split.
  - intros Hle. unfold SimpleVector_Reserve. mstep.
    apply Nat.ltb_ge in Hle. by rewrite Hle.
  - destruct (Reserve_spec Type_default moved_from this new_capacity m v buf)
      as (q & buf' & m' & Hrun & Hobjs & Hbuf' & Hlen' & Htake); try done.
    eexists _, buf', m'. split; [done|].
    split; [by rewrite Hobjs, lookup_insert_eq|]. done.
Qed.

(** X15.  [Clear()] followed by [Resize(new_size)] gives [new_size]
    elements [Type{}], whatever the vector held, with the capacity the
    larger of the former capacity and [new_size]. *)
Theorem Resize_after_Clear_gives_defaults m this v buf new_size :
  objs m !! this = Some v → buffer m (arr_ v) = Some buf →
  length buf = capacity_ v →
  ∃ v' buf' m',
    (Clear this;; Resize Type_default moved_from this new_size) m = Ret tt m'
    ∧ objs m' !! this = Some v'
    ∧ buffer m' (arr_ v') = Some buf'
    ∧ size_ v' = new_size
    ∧ capacity_ v' = capacity_ v `max` new_size
    ∧ take (size_ v') buf' = replicate new_size Type_default.
Proof.
  intros Hthis Hbuf Hlen. unfold Clear. mstep.
  set (m0 := Mem _ _).
  destruct (Resize_spec Type_default moved_from this new_size m0
              (mkSimpleVector (arr_ v) 0 (capacity_ v)) buf)
    as (q & c & buf' & m' & Hrun & Hobjs & Hbuf' & Hlen' & Hshrink & Hfit
        & Hgrow & _ & Hfill);
    [by subst m0; cbn [objs]; rewrite lookup_insert_eq|done|done
    |simpl; lia|].
  cbn [arr_ size_ capacity_] in *.
  exists (mkSimpleVector q new_size c), buf', m'. cbn [arr_ size_ capacity_].
  split; [done|]. split; [by rewrite Hobjs, lookup_insert_eq|].
  split; [done|]. split; [done|].
  assert (c = capacity_ v `max` new_size) as Hc.
  { destruct (decide (new_size ≤ 0)) as [H0|H0].
    { destruct (Hshrink H0) as (_ & -> & _). lia. }
    destruct (decide (new_size ≤ capacity_ v)) as [H1|H1].
    { destruct (Hfit ltac:(lia) H1) as (_ & ->). lia. }
    rewrite Hgrow by lia. lia. }
  split; [done|].
  apply list_eq. intros k. destruct (decide (k < new_size)) as [Hk|Hk].
  - rewrite lookup_take_lt by done. rewrite Hfill by lia.
    symmetry. by apply lookup_replicate_2.
  - rewrite lookup_take_ge by lia. symmetry.
    apply lookup_replicate_None. lia.
Qed.

(** X16.  A second [Resize(n)], a second [Reserve(n)] and a second [Clear()]
    change nothing: each returns in the memory the first call left. *)
Theorem Resize_Reserve_and_Clear_are_idempotent m this v buf n :
  objs m !! this = Some v → buffer m (arr_ v) = Some buf →
  length buf = capacity_ v → size_ v ≤ capacity_ v →
  (∃ m',
     Resize Type_default moved_from this n m = Ret tt m'
     ∧ Resize Type_default moved_from this n m' = Ret tt m')
  ∧ (∃ m',
       SimpleVector_Reserve Type_default moved_from this n m = Ret tt m'
       ∧ SimpleVector_Reserve Type_default moved_from this n m' = Ret tt m')
  ∧ (∃ m', Clear this m = Ret tt m' ∧ Clear this m' = Ret tt m').
Proof.
  intros Hthis Hbuf Hlen Hsize. split; [|split].
  - destruct (Resize_spec Type_default moved_from this n m v buf)
      as (q & c & buf' & m' & Hrun & Hobjs & _); try done.
    exists m'. split; [done|].
    assert (objs m' !! this = Some (mkSimpleVector q n c)) as Hthis'
      by (by rewrite Hobjs, lookup_insert_eq).
    unfold Resize. mstep. rewrite Nat.leb_refl. mstep.
    f_equal. by apply put_same.
  - destruct (Reserve_spec Type_default moved_from this n m v buf)
      as (q & buf' & m' & Hrun & Hobjs & _); try done.
    exists m'. split; [done|].
    assert (objs m' !! this
            = Some (mkSimpleVector q (size_ v) (capacity_ v `max` n)))
      as Hthis' by (by rewrite Hobjs, lookup_insert_eq).
    unfold SimpleVector_Reserve. mstep.
    replace (capacity_ v `max` n <? n) with false; [done|].
    symmetry. apply Nat.ltb_ge. lia.
  - unfold Clear. eexists. split; [by apply set_size_eq|].
    erewrite set_size_eq by (cbn [objs]; apply lookup_insert_eq).
    cbn [heap objs arr_ size_ capacity_]. by rewrite insert_insert_eq.
Qed.

(** X17.  [Insert], in both overloads, fails its assertion for a position
    outside [[begin(), end()]], and [Erase] for a position outside
    [[begin(), end())]: in particular [Erase(end())] fails, and so does
    every [Erase] on an empty vector. *)
Theorem positions_outside_the_vector_fail_the_assertion m this v pos value :
  objs m !! this = Some v →
  (ptr_le (Ptr (arr_ v) 0) pos && ptr_le pos (Ptr (arr_ v) (size_ v))
   = false →
   Insert Type_default moved_from this pos value m = Undefined
   ∧ Insert_move Type_default moved_from this pos value m = Undefined)
  ∧ (ptr_le (Ptr (arr_ v) 0) pos && ptr_lt pos (Ptr (arr_ v) (size_ v))
     = false →
     Erase moved_from this pos m = Undefined)
  ∧ Erase moved_from this (Ptr (arr_ v) (size_ v)) m = Undefined
  ∧ (size_ v = 0 → Erase moved_from this pos m = Undefined).
Proof.
  intros Hthis.
  assert (∀ p, ptr_le (Ptr (arr_ v) 0) p && ptr_lt p (Ptr (arr_ v) (size_ v))
               = false →
               Erase moved_from this p m = Undefined) as Herase.
  { intros p Hout. unfold Erase, begin, end_. repeat mstep. by rewrite Hout. }
  split; [|split; [apply Herase|split]].
  - intros Hout. unfold Insert, Insert_move, begin, end_. repeat mstep.
    by rewrite Hout.
  - apply Herase. rewrite ptr_lt_same, Nat.ltb_irrefl. apply andb_false_r.
  - intros Hz. apply Herase. apply andb_false_iff.
    destruct (ptr_le (Ptr (arr_ v) 0) pos) eqn:Hle; [right|by left].
    destruct (ptr_lt pos (Ptr (arr_ v) (size_ v))) eqn:Hlt; [|done].
    apply ptr_lt_inv in Hlt as [_ Hlt]. cbn [off] in Hlt. lia.
Qed.

(** X18.  [Erase(Insert(pos, value))], for a [value] bound to an object
    outside the vector's block, gives back the size and the elements the
    vector had and returns the position of the removed element in the
    block the vector has then; the capacity is at least what it was. *)
Theorem Erase_undoes_Insert m this v buf pos value x :
  objs m !! this = Some v → buffer m (arr_ v) = Some buf →
  length buf = capacity_ v → size_ v ≤ capacity_ v →
  fits (2 * size_ v) →
  ptr_le (Ptr (arr_ v) 0) pos = true →
  ptr_le pos (Ptr (arr_ v) (size_ v)) = true →
  load value m = Ret x m → base value ≠ arr_ v →
  ∃ v' buf' m',
    (it <- Insert Type_default moved_from this pos value;;
     Erase moved_from this it) m = Ret (Ptr (arr_ v') (off pos)) m'
    ∧ objs m' !! this = Some v'
    ∧ buffer m' (arr_ v') = Some buf'
    ∧ size_ v' = size_ v
    ∧ take (size_ v') buf' = take (size_ v) buf
    ∧ capacity_ v ≤ capacity_ v'.
Proof.
  intros Hthis Hbuf Hlen Hsize Hfits [Hbase _]%ptr_le_inv
    [_ Hoff]%ptr_le_inv Hload Hout.
  cbn [base off] in Hbase, Hoff. symmetry in Hbase.
  destruct (Insert_spec Type_default moved_from this pos value x m v buf)
    as (q & c & buf1 & m1 & Hrun1 & Hobjs1 & Hbuf1 & Hlen1 & Htake1 & Hc & _);
    try done.
  destruct (grown_capacity _ _ _ Hsize Hc) as [Hc1 Hc2].
  rewrite (bind_Ret _ _ _ _ _ Hrun1).
  destruct (Erase_spec moved_from this (Ptr q (off pos)) m1
              (mkSimpleVector q (size_ v + 1) c) buf1)
    as (buf2 & m2 & Hrun2 & Hobjs2 & Hbuf2 & Hlen2 & Htake2 & _);
    [by rewrite Hobjs1, lookup_insert_eq|done|simpl; lia
    |by apply fits_succ_of_double|done|simpl; lia|].
  cbn [arr_ size_ capacity_ off] in *.
  exists (mkSimpleVector q (size_ v + 1 - 1) c), buf2, m2.
  cbn [arr_ size_ capacity_].
  split; [done|]. split; [by rewrite Hobjs2, lookup_insert_eq|].
  split; [done|]. split; [lia|]. split; [|done].
  rewrite Htake2, Htake1.
  assert (length (take (off pos) (take (size_ v) buf)) = off pos) as Hpre.
  { rewrite !length_take. lia. }
  rewrite take_app_length' by done.
  rewrite cons_middle, app_assoc.
  rewrite drop_app_length' by (rewrite length_app; simpl; lia).
  apply take_drop.
Qed.

(** X19.  [Insert(end(), item)] has the outcome of [PushBack(item)]
    followed by [begin() + size], the position of the new last element,
    and so has the [Type&&] overload of each, for every argument, an
    element of the vector itself included; [Erase(end() - 1)] on a vector
    that is not empty ends in the same memory as [PopBack()]. *)
Theorem operations_at_the_end_agree m this v buf :
  objs m !! this = Some v → buffer m (arr_ v) = Some buf →
  length buf = capacity_ v → size_ v ≤ capacity_ v →
  fits (2 * size_ v) →
  (∀ item,
     Insert Type_default moved_from this (Ptr (arr_ v) (size_ v)) item m
     = (PushBack Type_default moved_from this item;;
        b <- begin this;;
        ret (ptr_add b (size_ v))) m)
  ∧ (∀ item,
       Insert_move Type_default moved_from this (Ptr (arr_ v) (size_ v))
         item m
       = (PushBack_move Type_default moved_from this item;;
          b <- begin this;;
          ret (ptr_add b (size_ v))) m)
  ∧ (0 < size_ v →
     ∃ m',
       PopBack this m = Ret tt m'
       ∧ Erase moved_from this (Ptr (arr_ v) (size_ v - 1)) m
         = Ret (Ptr (arr_ v) (size_ v - 1)) m').
Proof.
  intros Hthis Hbuf Hlen Hsize Hfits.
  assert (fits (size_ v)) as Hfits' by (eapply fits_le; [|exact Hfits]; lia).
  destruct (grow_if_full_spec Type_default moved_from this m v buf
              Hthis Hbuf Hlen Hsize Hfits)
    as (q & c & buf1 & m1 & Hrun1 & Hobjs1 & Hbuf1 & Hlen1 & _ & _ & Hlt & _).
  split; [|split].
  - intros item.
    unfold Insert, PushBack, cbegin, begin, end_, std_copy_backward.
    repeat mstep. rewrite !ptr_le_same.
    replace ((0 <=? size_ v) && (size_ v <=? size_ v)) with true
      by (symmetry; apply andb_true_iff; split; apply Nat.leb_le; lia).
    rewrite (bind_Ret _ _ _ _ _ (assert_true m)). repeat mstep.
    rewrite (bind_Ret _ _ _ _ _
               (distance_eq m (arr_ v) 0 (size_ v) ltac:(lia))).
    rewrite Nat.sub_0_r.
    rewrite !(bind_Ret _ _ _ _ _ Hrun1).
    repeat mstep. unfold ptr_add. cbn [base off]. rewrite ?bind_assoc.
    rewrite ?Nat.add_0_l.
    rewrite (bind_Ret _ _ _ _ _
               (distance_eq m1 q (size_ v) (size_ v) ltac:(lia))).
    rewrite Nat.sub_diag. cbn [backward_loop]. repeat mstep.
    reflexivity.
  - intros item.
    unfold Insert_move, PushBack_move, cbegin, begin, end_,
      std_move_backward.
    repeat mstep. rewrite !ptr_le_same.
    replace ((0 <=? size_ v) && (size_ v <=? size_ v)) with true
      by (symmetry; apply andb_true_iff; split; apply Nat.leb_le; lia).
    rewrite (bind_Ret _ _ _ _ _ (assert_true m)). repeat mstep.
    rewrite (bind_Ret _ _ _ _ _
               (distance_eq m (arr_ v) 0 (size_ v) ltac:(lia))).
    rewrite Nat.sub_0_r.
    rewrite !(bind_Ret _ _ _ _ _ Hrun1).
    repeat mstep. unfold ptr_add. cbn [base off]. rewrite ?bind_assoc.
    rewrite ?Nat.add_0_l.
    rewrite (bind_Ret _ _ _ _ _
               (distance_eq m1 q (size_ v) (size_ v) ltac:(lia))).
    rewrite Nat.sub_diag. cbn [backward_loop]. repeat mstep.
    apply bind_ext. intros _ m2. rewrite bind_assoc.
    apply set_size_store_comm.
  - intros Hpos. eexists. split; [by apply PopBack_eq|].
    unfold Erase, cbegin, begin, end_, std_move.
    repeat mstep. rewrite ptr_le_same, ptr_lt_same.
    replace ((0 <=? size_ v - 1) && (size_ v - 1 <? size_ v)) with true
      by (symmetry; apply andb_true_iff; split;
          [apply Nat.leb_le|apply Nat.ltb_lt]; lia).
    rewrite (bind_Ret _ _ _ _ _ (assert_true m)). repeat mstep.
    rewrite (bind_Ret _ _ _ _ _
               (distance_eq m (arr_ v) 0 (size_ v - 1) ltac:(lia))).
    rewrite Nat.sub_0_r.
    repeat mstep. unfold ptr_add. cbn [base off]. rewrite ?bind_assoc.
    rewrite ?Nat.add_0_l.
    rewrite (bind_Ret _ _ _ _ _
               (distance_eq m (arr_ v) (size_ v - 1 + 1) (size_ v)
                  ltac:(lia))).
    replace (size_ v - (size_ v - 1 + 1)) with 0 by lia.
    cbn [forward_loop]. repeat mstep.
    rewrite size_t_pred_fits by (done || lia). done.
Qed.


(** X20.  [a.swap(b)] on two distinct vectors exchanges their block
    pointers, sizes and capacities without touching the heap or any other
    vector object, ends in the same memory as [b.swap(a)], and a second
    [a.swap(b)] restores the memory; [a.swap(a)] changes nothing. *)
Theorem swap_exchanges_the_vectors m a b va vb :
  objs m !! a = Some va → objs m !! b = Some vb →
  (a ≠ b →
   ∃ m',
     swap a b m = Ret tt m'
     ∧ swap b a m = Ret tt m'
     ∧ heap m' = heap m
     ∧ objs m' !! a = Some vb
     ∧ objs m' !! b = Some va
     ∧ (∀ r, r ≠ a → r ≠ b → objs m' !! r = objs m !! r)
     ∧ swap a b m' = Ret tt m)
  ∧ swap a a m = Ret tt m.
Proof.
  intros Ha Hb. split; [|by apply swap_self with va].
  intros Hne. eexists. split; [by apply swap_eq|].
  split.
  { rewrite (swap_eq m b a vb va) by done. do 2 f_equal.
    by apply insert_insert_ne. }
  cbn [heap objs]. split; [done|].
  split; [by rewrite lookup_insert_ne, lookup_insert_eq|].
  split; [by rewrite lookup_insert_eq|].
  split; [intros r H1 H2; by rewrite !lookup_insert_ne|].
  rewrite (swap_eq _ a b vb va); cbn [heap objs];
    [|done|by rewrite lookup_insert_ne, lookup_insert_eq
     |by rewrite lookup_insert_eq].
  f_equal. destruct m as [h o]. cbn [heap objs] in *. f_equal.
  map_pointwise.
Qed.

(** X21.  Copy assignment from a distinct vector that is not empty gives the
    target the source's size, capacity and elements in a block that is
    not the source's, releases the block the target had, and leaves the
    source, its block and every other vector object as they were. *)
Theorem copy_assignment_copies m this rhs a o bufa bufo :
  objs m !! this = Some a → buffer m (arr_ a) = Some bufa →
  objs m !! rhs = Some o → buffer m (arr_ o) = Some bufo →
  size_ o ≤ length bufo →
  this ≠ rhs → (arr_ a = None ∨ arr_ a ≠ arr_ o) → size_ o ≠ 0 →
  ∃ v' m',
    assign_copy Type_default this rhs m = Ret this m'
    ∧ objs m' !! this = Some v'
    ∧ size_ v' = size_ o
    ∧ capacity_ v' = capacity_ o
    ∧ buffer m' (arr_ v') = Some (take (size_ o) bufo)
    ∧ arr_ v' ≠ arr_ o
    ∧ objs m' !! rhs = Some o
    ∧ buffer m' (arr_ o) = Some bufo
    ∧ (∀ l, arr_ a = Some l → heap m' !! l = None)
    ∧ (∀ r, r ≠ this → objs m' !! r = objs m !! r).
Proof.
  intros Ha Hbufa Ho Hbufo Hsize Hne Hsep Hnz.
  unfold assign_copy, IsEmpty.
  rewrite decide_True by done. repeat mstep.
  apply Nat.eqb_neq in Hnz as Hnz'. rewrite Hnz'.
  destruct (SimpleVector_copy_spec Type_default rhs m o bufo Ho Hbufo Hsize)
    as (q & m1 & Hrun1 & Hobjs1 & Hbuf1 & Halloc1).
  pose proof (fresh_object m) as Hfresh.
  set (copy := fresh (dom (objs m))) in *.
  assert (copy ≠ this ∧ copy ≠ rhs) as [Hc1 Hc2] by (split; congruence).
  rewrite ?bind_assoc. rewrite (bind_Ret _ _ _ _ _ Hrun1).
  rewrite ?bind_assoc.
  erewrite (bind_Ret (swap _ _)); cycle 1.
  { apply swap_eq; [|solve_lookup..]. done. }
  destruct (allocates_buffer _ _ _ _ _ Halloc1 Hbufa) as [Hbufa1 Hqa].
  destruct (allocates_buffer _ _ _ _ _ Halloc1 Hbufo) as [Hbufo1 Hqo].
  set (m2 := Mem _ _).
  rewrite (bind_Ret _ _ _ _ _ (destroy_eq copy m2 a bufa
                                 ltac:(subst m2; solve_lookup) Hbufa1)).
  assert (q ≠ arr_ o) as Hq_o.
  { intros Heq. apply Hqo; [lia|done]. }
  assert (arr_ a = None ∨ arr_ a ≠ q) as Hq_a.
  { destruct (arr_ a) as [la|] eqn:Ea; [right|by left]. intros Heq.
    destruct Halloc1 as [_ Hnew]. symmetry in Heq.
    specialize (Hnew la Heq). simpl in Hbufa. congruence. }
  exists (mkSimpleVector q (size_ o) (capacity_ o)). eexists.
  split; [reflexivity|]. cbn [arr_ size_ capacity_].
  split; [subst m2; solve_lookup|].
  split; [done|]. split; [done|].
  split; [by rewrite buffer_other_blocks|].
  split; [done|].
  split; [subst m2; solve_lookup|].
  split; [by rewrite buffer_other_blocks|].
  split.
  - intros l Hl. cbn [heap]. rewrite Hl. simpl. apply lookup_delete_eq.
  - intros r Hr. subst m2. cbn [objs]. rewrite Hobjs1.
    destruct (decide (r = copy)) as [->|Hrc].
    + by rewrite lookup_delete_eq.
    + by rewrite lookup_delete_ne, !lookup_insert_ne by done.
Qed.

(** X22.  Copy assignment from a distinct vector that is empty only sets
    the size of the target to 0: the target keeps its block and its
    capacity, and nothing else changes. *)
Theorem copy_assignment_from_empty_only_clears m this rhs a o :
  objs m !! this = Some a → objs m !! rhs = Some o →
  this ≠ rhs → size_ o = 0 →
  ∃ m',
    assign_copy Type_default this rhs m = Ret this m'
    ∧ heap m' = heap m
    ∧ objs m' !! this = Some (mkSimpleVector (arr_ a) 0 (capacity_ a))
    ∧ (∀ r, r ≠ this → objs m' !! r = objs m !! r).
Proof.
  intros Ha Ho Hne Hz. eexists.
  split; [by apply (assign_copy_empty Type_default this rhs m a o)|].
  cbn [heap objs].
  split; [done|]. split; [by rewrite lookup_insert_eq|].
  intros r Hr. by rewrite lookup_insert_ne.
Qed.

(** X23.  When [operator==] of [Type] is reflexive and [operator<] of
    [Type] irreflexive, a vector and its copy compare equal in both
    directions: [==], [<=] and [>=] are true and [!=], [<] and [>] are
    false. *)
Theorem a_copy_compares_equal m a va bufa :
  objs m !! a = Some va → buffer m (arr_ va) = Some bufa →
  size_ va ≤ length bufa →
  (∀ x, Type_eq x x = true) → (∀ x, Type_lt x x = false) →
  ∃ b m',
    SimpleVector_copy Type_default a m = Ret b m'
    ∧ operator_eq Type_eq a b m' = Ret true m'
    ∧ operator_eq Type_eq b a m' = Ret true m'
    ∧ operator_ne Type_eq a b m' = Ret false m'
    ∧ operator_lt Type_lt a b m' = Ret false m'
    ∧ operator_gt Type_lt a b m' = Ret false m'
    ∧ operator_le Type_lt a b m' = Ret true m'
    ∧ operator_ge Type_lt a b m' = Ret true m'.
Proof.
  intros Ha Hbufa Hsize Hrefl Hirr.
  destruct (SimpleVector_copy_spec Type_default a m va bufa Ha Hbufa Hsize)
    as (q & m' & Hrun & Hobjs & Hbuf & Halloc).
  pose proof (fresh_object m) as Hfresh.
  set (b := fresh (dom (objs m))) in *.
  assert (b ≠ a) as Hne by congruence.
  destruct (allocates_buffer _ _ _ _ _ Halloc Hbufa) as [Hbufa' _].
  set (vb := mkSimpleVector q (size_ va) (capacity_ va)).
  assert (objs m' !! a = Some va) as Ha'
    by (by rewrite Hobjs, lookup_insert_ne).
  assert (objs m' !! b = Some vb) as Hb'
    by (by rewrite Hobjs, lookup_insert_eq).
  assert (size_ vb ≤ length (take (size_ va) bufa)) as Hsizeb.
  { subst vb. cbn [size_]. rewrite length_take. lia. }
  assert (take (size_ vb) (take (size_ va) bufa) = take (size_ va) bufa)
    as Htt.
  { subst vb. cbn [size_]. rewrite take_take. f_equal. lia. }
  assert (Forall2 (λ x y, Type_eq x y = true)
            (take (size_ va) bufa) (take (size_ va) bufa)) as Hsame.
  { apply Forall_Forall2_diag, Forall_forall. intros x _. apply Hrefl. }
  destruct (operator_eq_spec Type_eq a b m' va vb bufa _ Ha' Hbufa' Hsize
              Hb' Hbuf Hsizeb) as (r1 & Heq1 & Hiff1).
  destruct (operator_eq_spec Type_eq b a m' vb va _ bufa Hb' Hbuf Hsizeb
              Ha' Hbufa' Hsize) as (r2 & Heq2 & Hiff2).
  destruct (operator_lt_spec Type_lt a b m' va vb bufa _ Ha' Hbufa' Hsize
              Hb' Hbuf Hsizeb) as (r3 & Hlt3 & Hiff3).
  destruct (operator_lt_spec Type_lt b a m' vb va _ bufa Hb' Hbuf Hsizeb
              Ha' Hbufa' Hsize) as (r4 & Hlt4 & Hiff4).
  rewrite Htt in *.
  assert (r1 = true) as -> by (by apply Hiff1).
  assert (r2 = true) as -> by (by apply Hiff2).
  assert (r3 = false) as ->.
  { destruct r3; [|done]. exfalso.
    apply (lexicographically_less_irrefl Type_lt (take (size_ va) bufa) Hirr).
    by apply Hiff3. }
  assert (r4 = false) as ->.
  { destruct r4; [|done]. exfalso.
    apply (lexicographically_less_irrefl Type_lt (take (size_ va) bufa) Hirr).
    by apply Hiff4. }
  exists b, m'. unfold operator_ne, operator_le, operator_ge, operator_gt.
  rewrite (bind_Ret _ _ _ _ _ Heq1), (bind_Ret _ _ _ _ _ Hlt4).
  rewrite (bind_Ret _ _ _ _ _ Hlt3). done.
Qed.

(** X24.  [a == b] and [b == a] give the same result when [operator==] of
    [Type] is symmetric.  When [operator<] of [Type] is asymmetric,
    [a < b] and [b < a] are never both true, so that one of [a <= b] and
    [b <= a] holds. *)
Theorem comparisons_are_symmetric_and_asymmetric m a b va vb bufa bufb :
  objs m !! a = Some va → buffer m (arr_ va) = Some bufa →
  size_ va ≤ length bufa →
  objs m !! b = Some vb → buffer m (arr_ vb) = Some bufb →
  size_ vb ≤ length bufb →
  ((∀ x y, Type_eq x y = Type_eq y x) →
   operator_eq Type_eq a b m = operator_eq Type_eq b a m)
  ∧ ((∀ x y, Type_lt x y = true → Type_lt y x = false) →
     ∃ lt_ab lt_ba,
       operator_lt Type_lt a b m = Ret lt_ab m
       ∧ operator_lt Type_lt b a m = Ret lt_ba m
       ∧ lt_ab && lt_ba = false
       ∧ operator_le Type_lt a b m = Ret (negb lt_ba) m
       ∧ operator_le Type_lt b a m = Ret (negb lt_ab) m
       ∧ negb lt_ba || negb lt_ab = true).
Proof.
  intros Ha Hbufa Hsa Hb Hbufb Hsb. split.
  - intros Hsym.
    destruct (operator_eq_spec Type_eq a b m va vb bufa bufb)
      as (r1 & Heq1 & Hiff1); try done.
    destruct (operator_eq_spec Type_eq b a m vb va bufb bufa)
      as (r2 & Heq2 & Hiff2); try done.
    rewrite Heq1, Heq2. f_equal.
    assert (r1 = true ↔ r2 = true) as Hiff.
    { rewrite Hiff1, Hiff2.
      split; intros [Hs HF]; (split; [done|]); apply Forall2_flip;
        (eapply Forall2_impl; [exact HF|]);
        intros x y Hxy; simpl; by rewrite Hsym. }
    destruct r1, r2; try done.
    + symmetry. by apply Hiff.
    + by apply Hiff.
  - intros Hasym.
    destruct (operator_lt_spec Type_lt a b m va vb bufa bufb)
      as (r1 & Hlt1 & Hiff1); try done.
    destruct (operator_lt_spec Type_lt b a m vb va bufb bufa)
      as (r2 & Hlt2 & Hiff2); try done.
    exists r1, r2. unfold operator_le.
    rewrite (bind_Ret _ _ _ _ _ Hlt1), (bind_Ret _ _ _ _ _ Hlt2).
    assert (r1 && r2 = false) as Hboth.
    { destruct r1, r2; try done. exfalso.
      eapply (lexicographically_less_asym Type_lt _ _ Hasym); [by apply Hiff1|].
      by apply Hiff2. }
    repeat split; try done.
    destruct r1, r2; done.
Qed.

(** X25.  On a vector that satisfies the class invariant, a write through
    [operator[]], [Clear], [Resize], [Reserve], both [PushBack], [PopBack],
    both [Insert] and [Erase], called with an index or a position that
    passes the call's assertion and, for [PushBack] and [Insert], on an
    object outside the vector's block, return and leave the vector
    satisfying the invariant. *)
Theorem every_mutator_keeps_the_class_invariant m this v μ :
  objs m !! this = Some v → well_formed m v → fits (2 * size_ v) →
  admits v μ = true → refers_outside m (arr_ v) μ →
  ∃ v' m',
    mutate Type_default moved_from this μ m = Ret tt m'
    ∧ objs m' !! this = Some v'
    ∧ well_formed m' v'.
Proof.
  intros Hthis [(buf & Hbuf & Hlen) Hsize] Hfits Hadm Hout.
  assert (fits (size_ v)) as Hfits' by (eapply fits_le; [|exact Hfits]; lia).
  destruct (mutators_keep_the_class_invariant Type_default moved_from
              m this v buf Hthis Hbuf Hlen Hsize Hfits)
    as (Hpush & Hins & Hers & Hres & Hrsv).
  assert (∀ c, c = (if size_ v =? capacity_ v
                    then if size_ v =? 0 then 1 else 2 * size_ v
                    else capacity_ v) → size_ v + 1 ≤ c) as Hgrown.
  { intros c ->. destruct (size_ v =? capacity_ v) eqn:E.
    - destruct (size_ v); simpl; lia.
    - apply Nat.eqb_neq in E. lia. }
  destruct μ as [index x| |new_size|new_capacity|item|item| |pos value
                |pos value|pos]; cbn [mutate admits refers_outside] in *.
  - apply Nat.ltb_lt in Hadm.
    rewrite (bind_Ret _ _ _ _ _ (subscript_eq _ _ _ _ Hthis Hadm)).
    destruct (store_buffer m (arr_ v) buf index x Hbuf ltac:(lia))
      as (m' & Hrun & Hobjs & Hbuf' & _).
    exists v, m'. split; [done|]. split; [by rewrite Hobjs|].
    apply well_formed_intro with (<[index := x]> buf);
      [done|by rewrite length_insert|done].
  - unfold Clear. mstep. eexists _, _. split; [reflexivity|]. cbn [objs].
    split; [by rewrite lookup_insert_eq|].
    apply well_formed_intro with buf; [done|done|simpl; lia].
  - destruct (Hres new_size) as (m' & v' & ?). by exists v', m'.
  - destruct (Hrsv new_capacity) as (m' & v' & ?). by exists v', m'.
  - destruct Hout as [[x Hload]%readable_value Hout].
    destruct (Hpush item x Hload Hout) as (m' & v' & ?). by exists v', m'.
  - destruct Hout as [[x Hload]%readable_value Hout].
    destruct (PushBack_move_spec Type_default moved_from this item x m v buf)
      as (q & c & buf' & m' & Hrun & Hobjs & Hbuf' & Hlen' & _ & Hc & _);
      try done.
    eexists _, m'. split; [done|].
    split; [by rewrite Hobjs, lookup_insert_eq|].
    apply well_formed_intro with buf'; [done|done|]. by apply Hgrown.
  - rewrite (PopBack_eq this m v Hthis Hfits'). eexists _, _.
    split; [reflexivity|]. cbn [objs].
    split; [by rewrite lookup_insert_eq|].
    apply well_formed_intro with buf; [done|done|simpl; lia].
  - apply andb_true_iff in Hadm as [[Hb _]%ptr_le_inv [_ Ho]%ptr_le_inv].
    cbn [base off] in *.
    destruct Hout as [[x Hload]%readable_value Hout].
    destruct (Hins pos value x) as (it & m' & v' & Hrun & ?);
      [done|done|done|done|].
    exists v', m'. split; [|done]. by rewrite (bind_Ret _ _ _ _ _ Hrun).
  - apply andb_true_iff in Hadm as [[Hb _]%ptr_le_inv [_ Ho]%ptr_le_inv].
    cbn [base off] in *.
    destruct Hout as [[x Hload]%readable_value Hout].
    destruct (Insert_move_spec Type_default moved_from this pos value x m v
                buf)
      as (q & c & buf' & m' & Hrun & Hobjs & Hbuf' & Hlen' & _ & Hc & _);
      try done.
    eexists _, m'. split; [by rewrite (bind_Ret _ _ _ _ _ Hrun)|].
    split; [by rewrite Hobjs, lookup_insert_eq|].
    apply well_formed_intro with buf'; [done|done|]. by apply Hgrown.
  - apply andb_true_iff in Hadm as [[Hb _]%ptr_le_inv [_ Ho]%ptr_lt_inv].
    cbn [base off] in *.
    destruct (Hers pos) as (m' & v' & Hrun & ?); [done|done|].
    exists v', m'. split; [|done]. by rewrite (bind_Ret _ _ _ _ _ Hrun).
Qed.

(** X26.  A vector that owns its block is not changed by calls made on
    another vector, as long as no [Type&&] argument of those calls is an
    element of it: after any sequence of writes, [Clear], [Resize],
    [Reserve], [PushBack], [PopBack], [Insert] and [Erase] on a distinct
    vector that returns, it has the same members and the same block
    contents, and still no other vector points at its block.  The
    [Type&&] overloads of [PushBack] and [Insert] write [Type{}] into
    their argument. *)
Theorem mutations_leave_other_vectors_alone m a c va bufa μs m' :
  owned a va bufa m → c ≠ a →
  Forall (moves_from_outside (arr_ va)) μs →
  mutate_all Type_default moved_from c μs m = Ret tt m' →
  owned a va bufa m'.
Proof.
  intros Hown Hne Hout Hrun.
  by destruct (keeps_mutate_all Type_default moved_from a va bufa c μs Hne
                 Hout m tt m' Hown Hrun).
Qed.

(** X27.  A vector that is default-constructed, filled by any number of
    [PushBack], on objects that exist when it is constructed, and
    destroyed leaves the memory exactly as it was: every block allocated
    on the way has been released. *)
Theorem pushing_then_destroying_restores_memory m items xs :
  Forall2 (λ p x, load p m = Ret x m) items xs →
  fits (2 * length items) →
  (this <- SimpleVector_default;;
   push_all Type_default moved_from this items;;
   destroy this) m = Ret tt m.
Proof.
  intros Hall Hfits. unfold SimpleVector_default.
  destruct (new_object_spec m) as (m0 & Hrun0 & Hobjs0 & Hheap0 & Hfresh).
  set (this := fresh (dom (objs m))) in *.
  rewrite (bind_Ret _ _ _ _ _ Hrun0).
  destruct (push_all_blocks Type_default moved_from this items xs m0
              (mkSimpleVector None 0 0) [])
    as (v' & buf' & m' & Hrun & Hobjs & Hbuf' & Hrest); try done.
  { by rewrite Hobjs0, lookup_insert_eq. }
  { eapply Forall2_impl; [exact Hall|]. intros p x Hload. cbn [arr_].
    pose proof Hload as (_ & l & buf & -> & _)%load_inv.
    split; [|done]. apply load_frame with m; [done|].
    intros l' _. by rewrite Hheap0. }
  rewrite (bind_Ret _ _ _ _ _ Hrun).
  rewrite (destroy_eq this m' v' buf');
    [|by rewrite Hobjs, lookup_insert_eq|done].
  rewrite Hrest. cbn [arr_ other_blocks]. rewrite Hheap0, Hobjs, Hobjs0.
  rewrite insert_insert_eq, delete_insert_id by done.
  by destruct m.
Qed.

(** X28.  On a vector with room, [PushBack(std::move(a[i]))] on an element
    of the vector itself returns, appends the value the element had and
    leaves [Type{}] at index [i]; the vector stays in its block with the
    same capacity, and every other block is untouched. *)
Theorem PushBack_move_of_an_own_element m this v buf i x :
  objs m !! this = Some v → buffer m (arr_ v) = Some buf →
  length buf = capacity_ v → size_ v < capacity_ v →
  fits (size_ v + 1) →
  i < size_ v → buf !! i = Some x →
  ∃ m',
    PushBack_move Type_default moved_from this (Ptr (arr_ v) i) m = Ret tt m'
    ∧ objs m'
      = <[this := mkSimpleVector (arr_ v) (size_ v + 1) (capacity_ v)]>
          (objs m)
    ∧ buffer m' (arr_ v)
      = Some (<[i := Type_default]> (<[size_ v := x]> buf))
    ∧ take (size_ v + 1) (<[i := Type_default]> (<[size_ v := x]> buf))
      = <[i := Type_default]> (take (size_ v) buf) ++ [x]
    ∧ (∀ l, arr_ v ≠ Some l → heap m' !! l = heap m !! l).
Proof.
  intros Hthis Hbuf Hlen Hroom Hfits Hi Hx.
  destruct (buffer_nonempty _ _ _ Hbuf) as (l & Hl & Hheap); [lia|].
  unfold PushBack_move.
  rewrite (bind_Ret _ _ _ _ _
             (grow_if_full_with_room Type_default moved_from this m v Hthis
                ltac:(lia))).
  mstep. rewrite size_t_succ_fits by done. rewrite Hl.
  rewrite (bind_Ret _ _ _ _ _
             (assigns_within moved_from (move_assign moved_from) m l buf i
                (size_ v) x (move_assign_assigns moved_from) Hheap Hx
                ltac:(lia) ltac:(lia))).
  erewrite (bind_Ret (store _ _));
    [|apply store_eq;
      [cbn [heap]; apply lookup_insert_eq
      |rewrite !length_insert; lia]].
  erewrite set_size_eq by (cbn [objs]; exact Hthis).
  eexists. split; [reflexivity|]. cbn [heap objs arr_ capacity_].
  rewrite Hl. split; [done|]. split.
  { cbn [buffer heap]. rewrite lookup_insert_eq.
    by rewrite list_insert_insert_eq. }
  split.
  { rewrite take_insert_lt by lia. rewrite take_insert_snoc by lia.
    rewrite insert_app_l by (rewrite length_take; lia). done. }
  intros l' Hl'. rewrite !lookup_insert_ne by congruence. done.
Qed.

End Properties.

(** ** The further properties on vectors of [int] *)

Lemma m12_4_constructed :
  (a <- SimpleVector_init int_default [1; 2]%Z;;
   SimpleVector_Reserve int_default int_moved_from a 4;;
   ret a) empty_mem = Ret 1%positive m12_4.
Proof. vm_compute. reflexivity. Qed.

Lemma m123_default_constructed :
  (a <- SimpleVector_init int_default [1; 2; 3]%Z;;
   SimpleVector_default) empty_mem = Ret 2%positive m123_default.
Proof. vm_compute. reflexivity. Qed.

Lemma m123_124_owned : owned 1%positive v123 [1; 2; 3]%Z m123_124.
Proof.
  split; [reflexivity|]. split; [reflexivity|].
  intros r v Hr Hv. unfold m123_124 in Hv. cbn [objs] in Hv.
  rewrite lookup_insert_ne in Hv by done.
  destruct (decide (r = 2%positive)) as [->|Hr2].
  - rewrite lookup_singleton_eq in Hv. injection Hv as <-. by right.
  - by rewrite lookup_singleton_ne in Hv.
Qed.

Lemma m123_well_formed : well_formed m123 v123.
Proof. split; [by exists [1; 2; 3]%Z|simpl; lia]. Qed.

(** X4: [Reserve(4)] and three pushes, of the elements of [{1, 2, 3}]. *)
Lemma reserving_constructor_leaves_room_witness :
  ∃ this v buf m',
    (this <- SimpleVector_reserved int_default (Reserve 4);;
     push_all int_default int_moved_from this
       [Ptr (Some 1%positive) 0; Ptr (Some 1%positive) 1;
        Ptr (Some 1%positive) 2];;
     ret this) m123 = Ret this m'
    ∧ objs m' !! this = Some v
    ∧ size_ v = 3
    ∧ capacity_ v = 4
    ∧ buffer m' (arr_ v) = Some buf
    ∧ length buf = 4
    ∧ take (size_ v) buf = [1; 2; 3]%Z.
Proof.
  apply (reserving_constructor_leaves_room int_default int_moved_from
           m123 4
           [Ptr (Some 1%positive) 0; Ptr (Some 1%positive) 1;
            Ptr (Some 1%positive) 2] [1; 2; 3]%Z);
    [repeat constructor|simpl; lia|by vm_compute].
Defined.

(** X5 on [{1, 2, 3}]. *)
Lemma iterators_span_the_elements_witness :
  (b <- begin 1%positive;; e <- end_ 1%positive;; distance b e) m123
  = Ret 3 m123
  ∧ (b <- begin 1%positive;; load (ptr_add b 1)) m123 = Ret 2%Z m123.
Proof.
  destruct (iterators_span_the_elements m123 1%positive v123 [1; 2; 3]%Z)
    as (Hdist & _ & Hread & _); [reflexivity|reflexivity|simpl; lia|].
  split; [exact Hdist|].
  apply (Hread 1 2%Z); [simpl; lia|reflexivity].
Defined.

(** X6 on [{1, 2, 3}]: index 2 and index 3. *)
Lemma subscript_asserts_the_index_witness :
  subscript 1%positive 2 m123 = Ret (Ptr (Some 1%positive) 2) m123
  ∧ subscript 1%positive 3 m123 = Undefined
  ∧ At 1%positive 3 m123 = Throw out_of_range m123.
Proof.
  split.
  - apply (subscript_asserts_the_index m123 1%positive v123 2);
      [reflexivity|simpl; lia].
  - apply (subscript_asserts_the_index m123 1%positive v123 3);
      [reflexivity|simpl; lia].
Defined.

(** X7 on [{1, 2, 3}]: [v[1] = 9], then [v[1]] and [v[2]]. *)
Lemma subscript_write_then_read_witness :
  (∃ m',
     (p <- subscript 1%positive 1;; store p 9%Z) m123 = Ret tt m'
     ∧ objs m' = objs m123
     ∧ buffer m' (Some 1%positive) = Some [1; 9; 3]%Z
     ∧ (p <- subscript 1%positive 1;; load p) m' = Ret 9%Z m')
  ∧ (∃ m',
       (p <- subscript 1%positive 1;; store p 9%Z) m123 = Ret tt m'
       ∧ (p <- subscript 1%positive 2;; load p) m' = Ret 3%Z m').
Proof.
  split.
  - destruct (subscript_write_then_read m123 1%positive v123 [1; 2; 3]%Z
                1 1 9%Z 2%Z)
      as (m' & Hrun & Hobjs & Hbuf & _ & Hread);
      [reflexivity|reflexivity|simpl; lia|simpl; lia|simpl; lia
      |reflexivity|].
    exists m'. repeat split; assumption.
  - destruct (subscript_write_then_read m123 1%positive v123 [1; 2; 3]%Z
                1 2 9%Z 3%Z)
      as (m' & Hrun & _ & _ & _ & Hread);
      [reflexivity|reflexivity|simpl; lia|simpl; lia|simpl; lia
      |reflexivity|].
    exists m'. split; assumption.
Defined.

(** X8 on [{1, 2, 3}] and [b = {1, 2, 4}]: [a.PushBack(b[2])] gives
    [{1, 2, 3, 4}] and leaves [b[2]] as it is;
    [a.PushBack(std::move(b[2]))] leaves 0 in [b[2]]. *)
Lemma PushBack_appends_witness :
  (∃ v' buf' m',
     PushBack int_default int_moved_from 1%positive (Ptr (Some 2%positive) 2)
       m123_124 = Ret tt m'
     ∧ objs m' !! 1%positive = Some v'
     ∧ buffer m' (arr_ v') = Some buf'
     ∧ length buf' = capacity_ v'
     ∧ size_ v' = 4
     ∧ take (size_ v') buf' = [1; 2; 3; 4]%Z
     ∧ load (Ptr (Some 2%positive) 2) m' = Ret 4%Z m')
  ∧ (∃ v' buf' m',
       PushBack_move int_default int_moved_from 1%positive
         (Ptr (Some 2%positive) 2) m123_124 = Ret tt m'
       ∧ objs m' !! 1%positive = Some v'
       ∧ buffer m' (arr_ v') = Some buf'
       ∧ length buf' = capacity_ v'
       ∧ size_ v' = 4
       ∧ take (size_ v') buf' = [1; 2; 3; 4]%Z
       ∧ load (Ptr (Some 2%positive) 2) m' = Ret 0%Z m').
Proof.
  destruct (PushBack_appends int_default int_moved_from m123_124 1%positive
              v123 [1; 2; 3]%Z (Ptr (Some 2%positive) 2) 4%Z)
    as [(v1 & buf1 & m1 & Hrun1 & Hobj1 & _ & Hbuf1 & Hlen1 & Hsize1
         & Htake1 & Hitem1 & _)
        (v2 & buf2 & m2 & Hrun2 & Hobj2 & _ & Hbuf2 & Hlen2 & Hsize2
         & Htake2 & Hitem2 & _)];
    [reflexivity|reflexivity|reflexivity|simpl; lia|by vm_compute
    |reflexivity|done|].
  split.
  - exists v1, buf1, m1. repeat split; assumption.
  - exists v2, buf2, m2. repeat split; assumption.
Defined.

(** X9 on [a = {1, 2}] with capacity 4: [a.PushBack(a[0])] and
    [a.PushBack(a[1])] stay in the block and give [{1, 2, 1, 2}]. *)
Lemma pushes_within_capacity_keep_the_block_witness :
  ∃ v' buf' m',
    push_all int_default int_moved_from 1%positive
      [Ptr (Some 2%positive) 0; Ptr (Some 2%positive) 1] m12_4 = Ret tt m'
    ∧ objs m' !! 1%positive = Some v'
    ∧ arr_ v' = Some 2%positive
    ∧ capacity_ v' = 4
    ∧ size_ v' = 4
    ∧ buffer m' (Some 2%positive) = Some buf'
    ∧ take (size_ v') buf' = [1; 2; 1; 2]%Z.
Proof.
  destruct (pushes_within_capacity_keep_the_block int_default int_moved_from
              m12_4 1%positive v12_4 [1; 2; 0; 0]%Z
              [Ptr (Some 2%positive) 0; Ptr (Some 2%positive) 1]
              [1; 2]%Z)
    as (v' & buf' & m' & Hrun & Hobj & Harr & Hcap & Hsize & Hbuf & Htake
        & _);
    [reflexivity|reflexivity|reflexivity|simpl; lia|by vm_compute| |].
  { repeat constructor; simpl; lia. }
  exists v', buf', m'. repeat split; assumption.
Defined.

(** X10 on [a = {1, 2, 3}], which is full, and [b = {1, 2, 4}]: after
    [a.PushBack(b[2])] the former [a.begin()] dangles, and
    [a.PushBack(a[0])] is undefined. *)
Lemma growth_invalidates_the_iterators_witness :
  (∃ v' m',
     PushBack int_default int_moved_from 1%positive (Ptr (Some 2%positive) 2)
       m123_124 = Ret tt m'
     ∧ objs m' !! 1%positive = Some v'
     ∧ arr_ v' ≠ Some 1%positive
     ∧ load (Ptr (Some 1%positive) 0) m' = Undefined
     ∧ store (Ptr (Some 1%positive) 0) 9%Z m' = Undefined
     ∧ load (Ptr (arr_ v') 0) m' = Ret 1%Z m')
  ∧ PushBack int_default int_moved_from 1%positive (Ptr (Some 1%positive) 0)
      m123_124 = Undefined.
Proof.
  destruct (growth_invalidates_the_iterators int_default int_moved_from
              m123_124 1%positive v123 [1; 2; 3]%Z (Ptr (Some 2%positive) 2)
              4%Z 0)
    as [(v' & m' & Hrun & Hobj & Hne & Hload & Hstore & Hnew) Hown];
    [reflexivity|reflexivity|reflexivity|reflexivity|simpl; lia
    |by vm_compute|reflexivity|done|].
  split; [|exact Hown].
  exists v', m'. repeat split; try assumption.
  - apply Hstore.
  - by apply Hnew.
Defined.

(** X11 on [{1, 2, 3}] and on a default-constructed vector. *)
Lemma PopBack_drops_the_last_witness :
  (∃ m',
     PopBack 1%positive m123 = Ret tt m'
     ∧ heap m' = heap m123
     ∧ objs m' !! 1%positive = Some (mkSimpleVector (Some 1%positive) 2 3))
  ∧ PopBack 1%positive m_default = Ret tt m_default.
Proof.
  split.
  - destruct (PopBack_drops_the_last m123 1%positive v123)
      as (_ & m' & Hrun & Hheap & Hobj & _); [reflexivity|by vm_compute|].
    exists m'. repeat split; assumption.
  - apply (PopBack_drops_the_last m_default 1%positive
             (mkSimpleVector None 0 0));
      [reflexivity|by vm_compute|reflexivity].
Defined.

(** X12 on [a = {1, 2, 3}] and [b = {1, 2, 4}]: [a.PushBack(b[2])], then
    [a.PopBack()]. *)
Lemma PopBack_undoes_PushBack_witness :
  ∃ v' buf' m',
    (PushBack int_default int_moved_from 1%positive
       (Ptr (Some 2%positive) 2);;
     PopBack 1%positive) m123_124 = Ret tt m'
    ∧ objs m' !! 1%positive = Some v'
    ∧ buffer m' (arr_ v') = Some buf'
    ∧ size_ v' = 3
    ∧ take (size_ v') buf' = [1; 2; 3]%Z
    ∧ 3 ≤ capacity_ v'.
Proof.
  apply (PopBack_undoes_PushBack int_default int_moved_from m123_124
           1%positive v123 [1; 2; 3]%Z (Ptr (Some 2%positive) 2) 4%Z);
    [reflexivity|reflexivity|reflexivity|simpl; lia|by vm_compute
    |reflexivity|done].
Defined.

(** X13 on [{1, 2, 3}]: [ChangeCapacity(5)]. *)
Lemma ChangeCapacity_moves_and_releases_witness :
  ∃ v' m',
    ChangeCapacity int_default int_moved_from 1%positive 5 m123 = Ret tt m'
    ∧ objs m' !! 1%positive = Some v'
    ∧ size_ v' = 3
    ∧ capacity_ v' = 5
    ∧ buffer m' (arr_ v') = Some [1; 2; 3; 0; 0]%Z
    ∧ heap m' !! 1%positive = None.
Proof.
  destruct (ChangeCapacity_moves_and_releases int_default int_moved_from
              m123 1%positive v123 [1; 2; 3]%Z 5)
    as (v' & m' & Hrun & Hobj & _ & Hsize & Hcap & Hbuf & Hgone & _);
    [reflexivity|reflexivity|simpl; lia|simpl; lia|].
  exists v', m'. repeat split; try assumption.
  by apply Hgone.
Defined.

(** X14 on [{1, 2, 3}]: [Reserve(2)] does nothing and [Reserve(5)] makes
    the capacity 5. *)
Lemma Reserve_grows_only_witness :
  SimpleVector_Reserve int_default int_moved_from 1%positive 2 m123
  = Ret tt m123
  ∧ ∃ v' buf' m',
      SimpleVector_Reserve int_default int_moved_from 1%positive 5 m123
      = Ret tt m'
      ∧ objs m' !! 1%positive = Some v'
      ∧ buffer m' (arr_ v') = Some buf'
      ∧ length buf' = capacity_ v'
      ∧ capacity_ v' = 5
      ∧ size_ v' = 3
      ∧ take 3 buf' = [1; 2; 3]%Z.
Proof.
  split.
  - apply (Reserve_grows_only int_default int_moved_from m123 1%positive v123
             [1; 2; 3]%Z 2);
      [reflexivity|reflexivity|reflexivity|simpl; lia|simpl; lia].
  - apply (Reserve_grows_only int_default int_moved_from m123 1%positive v123
             [1; 2; 3]%Z 5);
      [reflexivity|reflexivity|reflexivity|simpl; lia].
Defined.

(** X15 on [{1, 2, 3}]: [Clear()], then [Resize(2)]. *)
Lemma Resize_after_Clear_gives_defaults_witness :
  ∃ v' buf' m',
    (Clear 1%positive;;
     Resize int_default int_moved_from 1%positive 2) m123 = Ret tt m'
    ∧ objs m' !! 1%positive = Some v'
    ∧ buffer m' (arr_ v') = Some buf'
    ∧ size_ v' = 2
    ∧ capacity_ v' = 3
    ∧ take (size_ v') buf' = [0; 0]%Z.
Proof.
  apply (Resize_after_Clear_gives_defaults int_default int_moved_from m123
           1%positive v123 [1; 2; 3]%Z 2); reflexivity.
Defined.

(** X16 on [{1, 2, 3}]. *)
Lemma Resize_Reserve_and_Clear_are_idempotent_witness :
  (∃ m',
     Resize int_default int_moved_from 1%positive 5 m123 = Ret tt m'
     ∧ Resize int_default int_moved_from 1%positive 5 m' = Ret tt m')
  ∧ (∃ m',
       SimpleVector_Reserve int_default int_moved_from 1%positive 5 m123
       = Ret tt m'
       ∧ SimpleVector_Reserve int_default int_moved_from 1%positive 5 m'
         = Ret tt m')
  ∧ (∃ m', Clear 1%positive m123 = Ret tt m' ∧ Clear 1%positive m' = Ret tt m').
Proof.
  apply (Resize_Reserve_and_Clear_are_idempotent int_default int_moved_from
           m123 1%positive v123 [1; 2; 3]%Z 5);
    [reflexivity|reflexivity|reflexivity|simpl; lia].
Defined.

(** X17 on [{1, 2, 3}] and on a default-constructed vector. *)
Lemma positions_outside_the_vector_fail_the_assertion_witness :
  Insert int_default int_moved_from 1%positive (Ptr (Some 1%positive) 4)
    (Ptr (Some 1%positive) 0) m123 = Undefined
  ∧ Erase int_moved_from 1%positive (Ptr (Some 1%positive) 3) m123
    = Undefined
  ∧ Erase int_moved_from 1%positive (Ptr None 0) m_default = Undefined.
Proof.
  split; [|split].
  - destruct (positions_outside_the_vector_fail_the_assertion int_default
                int_moved_from m123 1%positive v123
                (Ptr (Some 1%positive) 4) (Ptr (Some 1%positive) 0))
      as (Hins & _); [reflexivity|].
    apply Hins. reflexivity.
  - destruct (positions_outside_the_vector_fail_the_assertion int_default
                int_moved_from m123 1%positive v123
                (Ptr (Some 1%positive) 3) (Ptr (Some 1%positive) 0))
      as (_ & _ & Hend & _); [reflexivity|].
    exact Hend.
  - destruct (positions_outside_the_vector_fail_the_assertion int_default
                int_moved_from m_default 1%positive
                (mkSimpleVector None 0 0) (Ptr None 0) (Ptr None 0))
      as (_ & _ & _ & Hempty); [reflexivity|].
    apply Hempty. reflexivity.
Defined.

(** X18 on [a = {1, 2, 3}] and [b = {1, 2, 4}]:
    [a.Erase(a.Insert(a.begin() + 1, b[2]))]. *)
Lemma Erase_undoes_Insert_witness :
  ∃ v' buf' m',
    (it <- Insert int_default int_moved_from 1%positive
             (Ptr (Some 1%positive) 1) (Ptr (Some 2%positive) 2);;
     Erase int_moved_from 1%positive it) m123_124 = Ret (Ptr (arr_ v') 1) m'
    ∧ objs m' !! 1%positive = Some v'
    ∧ buffer m' (arr_ v') = Some buf'
    ∧ size_ v' = 3
    ∧ take (size_ v') buf' = [1; 2; 3]%Z
    ∧ 3 ≤ capacity_ v'.
Proof.
  apply (Erase_undoes_Insert int_default int_moved_from m123_124 1%positive
           v123 [1; 2; 3]%Z (Ptr (Some 1%positive) 1)
           (Ptr (Some 2%positive) 2) 4%Z);
    first [reflexivity | simpl; lia | by vm_compute | done].
Defined.

(** X19 on [a = {1, 2, 3}] and [b = {1, 2, 4}], with [b[2]] and with
    [a[0]] as the argument. *)
Lemma operations_at_the_end_agree_witness :
  Insert int_default int_moved_from 1%positive (Ptr (Some 1%positive) 3)
    (Ptr (Some 2%positive) 2) m123_124
  = (PushBack int_default int_moved_from 1%positive
       (Ptr (Some 2%positive) 2);;
     b <- begin 1%positive;;
     ret (ptr_add b 3)) m123_124
  ∧ Insert_move int_default int_moved_from 1%positive
      (Ptr (Some 1%positive) 3) (Ptr (Some 1%positive) 0) m123_124
    = (PushBack_move int_default int_moved_from 1%positive
         (Ptr (Some 1%positive) 0);;
       b <- begin 1%positive;;
       ret (ptr_add b 3)) m123_124
  ∧ (∃ m',
       PopBack 1%positive m123_124 = Ret tt m'
       ∧ Erase int_moved_from 1%positive (Ptr (Some 1%positive) 2) m123_124
         = Ret (Ptr (Some 1%positive) 2) m').
Proof.
  destruct (operations_at_the_end_agree int_default int_moved_from m123_124
              1%positive v123 [1; 2; 3]%Z)
    as (Hins & Hmove & Hpop);
    [reflexivity|reflexivity|reflexivity|simpl; lia|by vm_compute|].
  split; [apply Hins|]. split; [apply Hmove|].
  apply Hpop. simpl. lia.
Defined.

(** X20 on [{1, 2, 3}] and [{1, 2, 4}]. *)
Lemma swap_exchanges_the_vectors_witness :
  ∃ m',
    swap 1%positive 2%positive m123_124 = Ret tt m'
    ∧ swap 2%positive 1%positive m123_124 = Ret tt m'
    ∧ heap m' = heap m123_124
    ∧ objs m' !! 1%positive = Some v124
    ∧ objs m' !! 2%positive = Some v123
    ∧ swap 1%positive 2%positive m' = Ret tt m123_124.
Proof.
  destruct (swap_exchanges_the_vectors m123_124 1%positive 2%positive v123
              v124) as [Hswap _]; [reflexivity|reflexivity|].
  destruct Hswap as (m' & H1 & H2 & Hheap & Ha & Hb & _ & Hback); [done|].
  exists m'. repeat split; assumption.
Defined.

(** X21 on [{1, 2, 3}] and [{1, 2, 4}]: after [b = a] the vector [b] holds
    [{1, 2, 3}] in a new block and its former block is released. *)
Lemma copy_assignment_copies_witness :
  ∃ v' m',
    assign_copy int_default 2%positive 1%positive m123_124
    = Ret 2%positive m'
    ∧ objs m' !! 2%positive = Some v'
    ∧ size_ v' = 3
    ∧ capacity_ v' = 3
    ∧ buffer m' (arr_ v') = Some [1; 2; 3]%Z
    ∧ objs m' !! 1%positive = Some v123
    ∧ buffer m' (Some 1%positive) = Some [1; 2; 3]%Z
    ∧ heap m' !! 2%positive = None.
Proof.
  destruct (copy_assignment_copies int_default m123_124 2%positive 1%positive
              v124 v123 [1; 2; 4]%Z [1; 2; 3]%Z)
    as (v' & m' & Hrun & Hobj & Hsize & Hcap & Hbuf & _ & Hrhs & Hbufr
        & Hgone & _);
    [reflexivity|reflexivity|reflexivity|reflexivity|simpl; lia|done
    |by right|simpl; lia|].
  exists v', m'. repeat split; try assumption.
  by apply Hgone.
Defined.

(** X22 on [{1, 2, 3}] and a default-constructed vector. *)
Lemma copy_assignment_from_empty_only_clears_witness :
  ∃ m',
    assign_copy int_default 1%positive 2%positive m123_default
    = Ret 1%positive m'
    ∧ heap m' = heap m123_default
    ∧ objs m' !! 1%positive = Some (mkSimpleVector (Some 1%positive) 0 3).
Proof.
  destruct (copy_assignment_from_empty_only_clears int_default m123_default
              1%positive 2%positive v123 (mkSimpleVector None 0 0))
    as (m' & Hrun & Hheap & Hobj & _);
    [reflexivity|reflexivity|done|reflexivity|].
  exists m'. repeat split; assumption.
Defined.

(** X23 on [{1, 2, 3}]. *)
Lemma a_copy_compares_equal_witness :
  ∃ b m',
    SimpleVector_copy int_default 1%positive m123 = Ret b m'
    ∧ operator_eq Z.eqb 1%positive b m' = Ret true m'
    ∧ operator_eq Z.eqb b 1%positive m' = Ret true m'
    ∧ operator_ne Z.eqb 1%positive b m' = Ret false m'
    ∧ operator_lt Z.ltb 1%positive b m' = Ret false m'
    ∧ operator_gt Z.ltb 1%positive b m' = Ret false m'
    ∧ operator_le Z.ltb 1%positive b m' = Ret true m'
    ∧ operator_ge Z.ltb 1%positive b m' = Ret true m'.
Proof.
  apply (a_copy_compares_equal int_default Z.eqb Z.ltb m123 1%positive v123
           [1; 2; 3]%Z);
    [reflexivity|reflexivity|simpl; lia|apply Z.eqb_refl|apply Z.ltb_irrefl].
Defined.

(** X24 on [{1, 2, 3}] and [{1, 2, 4}]. *)
Lemma comparisons_are_symmetric_and_asymmetric_witness :
  operator_eq Z.eqb 1%positive 2%positive m123_124
  = operator_eq Z.eqb 2%positive 1%positive m123_124
  ∧ ∃ lt_ab lt_ba,
      operator_lt Z.ltb 1%positive 2%positive m123_124 = Ret lt_ab m123_124
      ∧ operator_lt Z.ltb 2%positive 1%positive m123_124 = Ret lt_ba m123_124
      ∧ lt_ab && lt_ba = false
      ∧ operator_le Z.ltb 1%positive 2%positive m123_124
        = Ret (negb lt_ba) m123_124
      ∧ operator_le Z.ltb 2%positive 1%positive m123_124
        = Ret (negb lt_ab) m123_124
      ∧ negb lt_ba || negb lt_ab = true.
Proof.
  destruct (comparisons_are_symmetric_and_asymmetric Z.eqb Z.ltb m123_124
              1%positive 2%positive v123 v124 [1; 2; 3]%Z [1; 2; 4]%Z)
    as [Heq Hlt]; first [reflexivity | simpl; lia | idtac].
  split.
  - apply Heq. apply Z.eqb_sym.
  - apply Hlt. intros x y Hxy. apply Z.ltb_lt in Hxy. apply Z.ltb_ge. lia.
Defined.

Lemma m123_124_well_formed : well_formed m123_124 v123.
Proof. split; [by exists [1; 2; 3]%Z|simpl; lia]. Qed.

(** X25 on [a = {1, 2, 3}] and [b = {1, 2, 4}]:
    [a.PushBack(std::move(b[2]))]. *)
Lemma every_mutator_keeps_the_class_invariant_witness :
  ∃ v' m',
    mutate int_default int_moved_from 1%positive
      (call_PushBack_move (Ptr (Some 2%positive) 2)) m123_124 = Ret tt m'
    ∧ objs m' !! 1%positive = Some v'
    ∧ well_formed m' v'.
Proof.
  apply (every_mutator_keeps_the_class_invariant int_default int_moved_from
           m123_124 1%positive v123
           (call_PushBack_move (Ptr (Some 2%positive) 2)));
    [reflexivity|exact m123_124_well_formed|by vm_compute|reflexivity|].
  split; [by exists 4%Z|done].
Defined.

(** X26 on [a = {1, 2, 3}] and [b = {1, 2, 4}]: [b.PushBack(a[0])],
    [b.Erase(b.begin())] and [b.Clear()] leave [a] as it is. *)
Lemma mutations_leave_other_vectors_alone_witness :
  ∃ m',
    mutate_all int_default int_moved_from 2%positive
      [call_PushBack (Ptr (Some 1%positive) 0);
       call_Erase (Ptr (Some 3%positive) 0); call_Clear]
      m123_124 = Ret tt m'
    ∧ owned 1%positive v123 [1; 2; 3]%Z m'.
Proof.
  eexists. split; [vm_compute; reflexivity|].
  apply (mutations_leave_other_vectors_alone int_default int_moved_from
           m123_124 1%positive 2%positive v123 [1; 2; 3]%Z
           [call_PushBack (Ptr (Some 1%positive) 0);
            call_Erase (Ptr (Some 3%positive) 0); call_Clear]);
    [exact m123_124_owned|done|repeat constructor|vm_compute; reflexivity].
Defined.

(** X27: three pushes, of the elements of [{1, 2, 3}], into a vector that
    is then destroyed. *)
Lemma pushing_then_destroying_restores_memory_witness :
  (this <- SimpleVector_default;;
   push_all int_default int_moved_from this
     [Ptr (Some 1%positive) 0; Ptr (Some 1%positive) 1;
      Ptr (Some 1%positive) 2];;
   destroy this) m123 = Ret tt m123.
Proof.
  apply (pushing_then_destroying_restores_memory int_default int_moved_from
           m123
           [Ptr (Some 1%positive) 0; Ptr (Some 1%positive) 1;
            Ptr (Some 1%positive) 2] [1; 2; 3]%Z);
    [repeat constructor|by vm_compute].
Defined.

(** X28 on [a = {1, 2}] with capacity 4: [a.PushBack(std::move(a[0]))]
    gives [{0, 2, 1}]. *)
Lemma PushBack_move_of_an_own_element_witness :
  ∃ m',
    PushBack_move int_default int_moved_from 1%positive
      (Ptr (Some 2%positive) 0) m12_4 = Ret tt m'
    ∧ objs m' !! 1%positive = Some (mkSimpleVector (Some 2%positive) 3 4)
    ∧ buffer m' (Some 2%positive) = Some [0; 2; 1; 0]%Z.
Proof.
  destruct (PushBack_move_of_an_own_element int_default int_moved_from m12_4
              1%positive v12_4 [1; 2; 0; 0]%Z 0 1%Z)
    as (m' & Hrun & Hobjs & Hbuf & _);
    [reflexivity|reflexivity|reflexivity|simpl; lia|by vm_compute
    |simpl; lia|reflexivity|].
  exists m'. split; [exact Hrun|]. split; [|exact Hbuf].
  rewrite Hobjs. apply lookup_insert_eq.
Defined.
